(** * go-blosc: shuffle engine, frame header and pipeline

    A shallow embedding of the Go package [blosc] (the shuffle engine with
    its portable SIMD stubs of shuffle_generic.go, and the header, codec
    registry, codec adapters and pipeline of codec.go), the properties
    its specification states about them, and further properties of the
    transforms, the header, the pipeline, the registry and the built-in
    codecs.

    Conventions.
    - A Go [[]byte] is a [list Z]; a well-formed byte is in [0, 256).
    - A Go [int] is a [Z]; [/] and [%] are [Z.quot] and [Z.rem].  The
      arithmetic on lengths and indices stays inside [int] for slices that
      the target can hold.  [int] is 32 or 64 bits wide, by target: the
      conversions [int(x)] of the header's [uint32] sizes, which the
      input decides, are written out for both widths ([to_int]).
    - [uint8(x)] and [uint32(x)] are written out as [x mod 2^8], [x mod 2^32].
    - An index or slice expression out of range panics in Go; the
      operations below return [None] there and the shuffle functions live
      in the option monad.  That they never panic is proved, not assumed.
    - The pipeline returns a value, an error kind, or panics ([result]). *)

From Stdlib Require Import ZArith Lia Bool.
From stdpp Require Import base option list gmap strings pretty.

Local Open Scope Z_scope.

(** ** Slices *)

Module Slice.

(** [len(s)] *)
Definition len (s : list Z) : Z := Z.of_nat (length s).

(** [make([]byte, n)]: [n] zero bytes. *)
Definition make (n : Z) : list Z := replicate (Z.to_nat n) 0.

(** [s[i]] as a value; panics unless [0 <= i < len(s)]. *)
Definition index (s : list Z) (i : Z) : option Z :=
  if bool_decide (0 <= i) then s !! Z.to_nat i else None.

(** [s[i] = v]; panics unless [0 <= i < len(s)]. *)
Definition store (s : list Z) (i v : Z) : option (list Z) :=
  if bool_decide (0 <= i < len s) then Some (<[Z.to_nat i := v]> s) else None.

(** [s[lo:hi]]; panics unless [0 <= lo <= hi <= len(s)] (the slices of
    this package have [cap = len]). *)
Definition slice (s : list Z) (lo hi : Z) : option (list Z) :=
  if bool_decide (0 <= lo <= hi /\ hi <= len s)
  then Some (take (Z.to_nat (hi - lo)) (drop (Z.to_nat lo) s))
  else None.

(** [s[lo:]] *)
Definition slice_from (s : list Z) (lo : Z) : option (list Z) :=
  slice s lo (len s).

(** [copy(d, from)] where [d] is a slice value: the first
    [min(len(d), len(from))] bytes of [d] are overwritten. *)
Definition copy (d from : list Z) : list Z :=
  let k := Nat.min (length d) (length from) in
  take k from ++ drop k d.

(** [copy(dst[lo:hi], from)]: the window [dst[lo:hi]] aliases [dst], so
    the bytes written land in [dst] at offset [lo]. *)
Definition copy_at (dst : list Z) (lo hi : Z) (from : list Z)
  : option (list Z) :=
  w ← slice dst lo hi;
  Some (take (Z.to_nat lo) dst ++ copy w from ++ drop (Z.to_nat hi) dst).

End Slice.
Import Slice.

(** ** Fixed-width integers

    The conversions [uint8(x)] and [uint32(x)], and the wrap-around of
    the arithmetic on these types. *)

Definition u8 (x : Z) : Z := x mod 2 ^ 8.
Definition u32 (x : Z) : Z := x mod 2 ^ 32.

(** The width of [int]: the package has no build constraint on the word
    size, and the portable build of shuffle_generic.go ([!amd64 && !arm64])
    covers 32-bit targets. *)
Inductive IntWidth : Type := Int32 | Int64.

Definition int_bits (w : IntWidth) : Z :=
  match w with
  | Int32 => 32
  | Int64 => 64
  end.

(** [int(x)]: the low [int_bits w] bits of [x], read in two's
    complement. *)
Definition to_int (w : IntWidth) (x : Z) : Z :=
  let r := x mod 2 ^ int_bits w in
  if bool_decide (r < 2 ^ (int_bits w - 1)) then r else r - 2 ^ int_bits w.

(** ** Counted loops

    [for i := lo; i < hi; i++ { s = body(i, s) }] in the option monad. *)

Fixpoint for_loop {S : Type} (cnt : nat) (i : Z)
    (body : Z -> S -> option S) (s : S) : option S :=
  match cnt with
  | O => Some s
  | Datatypes.S cnt' => s' ← body i s; for_loop cnt' (i + 1) body s'
  end.

Definition for_range {S : Type} (lo hi : Z)
    (body : Z -> S -> option S) (s : S) : option S :=
  for_loop (Z.to_nat (hi - lo)) lo body s.

(** ** SIMD dispatch (shuffle_generic.go)

    The portable build: no vector unit is detected and every kernel
    declines by returning [false] without touching [dst]. *)

Definition useAVX2 : bool := false.
Definition useNEON : bool := false.

Definition shuffleBytesAVX2 (dst src : list Z) (typeSize : Z) : list Z * bool := (dst, false).
Definition unshuffleBytesAVX2 (dst src : list Z) (typeSize : Z) : list Z * bool := (dst, false).
Definition shuffleBytesNEON (dst src : list Z) (typeSize : Z) : list Z * bool := (dst, false).
Definition unshuffleBytesNEON (dst src : list Z) (typeSize : Z) : list Z * bool := (dst, false).
Definition bitShuffleAVX2 (dst src : list Z) (typeSize : Z) : list Z * bool := (dst, false).
Definition bitUnshuffleAVX2 (dst src : list Z) (typeSize : Z) : list Z * bool := (dst, false).
Definition bitShuffleNEON (dst src : list Z) (typeSize : Z) : list Z * bool := (dst, false).
Definition bitUnshuffleNEON (dst src : list Z) (typeSize : Z) : list Z * bool := (dst, false).

(** ** Byte shuffle *)

(** The element loop shared by the scalar path and the SIMD tail:
    [for i := from; i < numElements; i++ { for j := 0; j < typeSize; j++ {
       dst[j*numElements+i] = src[i*typeSize+j] } }] *)
Definition shuffle_loop (src : list Z) (typeSize numElements from : Z)
    (dst : list Z) : option (list Z) :=
  for_range from numElements (fun i dst =>
    for_range 0 typeSize (fun j dst =>
      v ← index src (i * typeSize + j);
      store dst (j * numElements + i) v) dst) dst.

(** [remainder := n % typeSize; if remainder > 0 {
      copy(dst[numElements*typeSize:], src[numElements*typeSize:]) }] *)
Definition copy_remainder (src : list Z) (typeSize numElements : Z)
    (dst : list Z) : option (list Z) :=
  let remainder := Z.rem (len src) typeSize in
  if bool_decide (remainder > 0) then
    from ← slice_from src (numElements * typeSize);
    copy_at dst (numElements * typeSize) (len dst) from
  else Some dst.

(** The SIMD attempt of [shuffleBytes] and [unshuffleBytes]: the AVX2
    kernel first, then the NEON one; the result is the buffer, whether a
    kernel ran, and its chunk width in elements. *)
Definition try_simd4 (avx2 neon : list Z -> list Z -> Z -> list Z * bool)
    (dst src : list Z) (typeSize n : Z) : list Z * bool * Z :=
  let '(dst, usedSIMD, chunkElements) :=
    if useAVX2 && bool_decide (n >= 32)
    then let '(d, u) := avx2 dst src typeSize in (d, u, 8)
    else (dst, false, 0) in
  if negb usedSIMD && useNEON && bool_decide (n >= 16)
  then let '(d, u) := neon dst src typeSize in (d, u, 4)
  else (dst, usedSIMD, chunkElements).

Definition shuffleBytes (src : list Z) (typeSize : Z) : option (list Z) :=
  if bool_decide (typeSize <= 1) || bool_decide (len src < typeSize)
  then Some src
  else
    let n := len src in
    let numElements := Z.quot n typeSize in
    let dst := make n in
    let '(dst, usedSIMD, chunkElements) :=
      if bool_decide (typeSize = 4)
      then try_simd4 shuffleBytesAVX2 shuffleBytesNEON dst src typeSize n
      else (dst, false, 0) in
    if usedSIMD then
      let processedElements := Z.quot numElements chunkElements * chunkElements in
      dst ← shuffle_loop src typeSize numElements processedElements dst;
      copy_remainder src typeSize numElements dst
    else
      dst ← shuffle_loop src typeSize numElements 0 dst;
      copy_remainder src typeSize numElements dst.

(** [for i := from; i < numElements; i++ { for j := 0; j < typeSize; j++ {
       dst[i*typeSize+j] = src[j*numElements+i] } }] *)
Definition unshuffle_loop (src : list Z) (typeSize numElements from : Z)
    (dst : list Z) : option (list Z) :=
  for_range from numElements (fun i dst =>
    for_range 0 typeSize (fun j dst =>
      v ← index src (j * numElements + i);
      store dst (i * typeSize + j) v) dst) dst.

Definition unshuffleBytes (src : list Z) (typeSize : Z) : option (list Z) :=
  if bool_decide (typeSize <= 1) || bool_decide (len src < typeSize)
  then Some src
  else
    let n := len src in
    let numElements := Z.quot n typeSize in
    let dst := make n in
    let '(dst, usedSIMD, chunkElements) :=
      if bool_decide (typeSize = 4)
      then try_simd4 unshuffleBytesAVX2 unshuffleBytesNEON dst src typeSize n
      else (dst, false, 0) in
    if usedSIMD then
      let processedElements := Z.quot numElements chunkElements * chunkElements in
      dst ← unshuffle_loop src typeSize numElements processedElements dst;
      copy_remainder src typeSize numElements dst
    else
      dst ← unshuffle_loop src typeSize numElements 0 dst;
      copy_remainder src typeSize numElements dst.

(** ** Bit shuffle *)

(** The bit loop of [bitShuffle], and of [bitUnshuffle] where the
    variables are called [outElem] and [inBit]:
    [var outByte byte
     for inByte := 0; inByte < 8; inByte++ {
       if bytes[inByte]&(1<<(7-outBit)) != 0 { outByte |= 1 << (7 - inByte) } }] *)
Definition transpose_bit (bytes : list Z) (outBit : Z) : option Z :=
  for_range 0 8 (fun inByte outByte =>
    b ← index bytes inByte;
    Some (if bool_decide (Z.land b (u8 (Z.shiftl 1 (7 - outBit))) ≠ 0)
          then Z.lor outByte (u8 (Z.shiftl 1 (7 - inByte)))
          else outByte)) 0.

(** [var bytes [8]byte; for k := 0; k < 8; k++ { bytes[k] = src[at(k)] }] *)
Definition gather8 (src : list Z) (at_ : Z -> Z) : option (list Z) :=
  for_range 0 8 (fun k bytes => v ← index src (at_ k); store bytes k v) (make 8).

(** The group loop of [bitShuffle]. *)
Definition bitShuffle_groups (src : list Z) (typeSize numGroups : Z)
    (dst : list Z) : option (list Z) :=
  let groupSize := 8 in
  for_range 0 numGroups (fun g dst =>
    let baseIn := g * groupSize * typeSize in
    let baseOut := g * groupSize * typeSize in
    for_range 0 typeSize (fun byteIdx dst =>
      bytes ← gather8 src (fun elem => baseIn + elem * typeSize + byteIdx);
      for_range 0 8 (fun outBit dst =>
        outByte ← transpose_bit bytes outBit;
        store dst (baseOut + byteIdx * 8 + outBit) outByte) dst) dst) dst.

(** The group loop of [bitUnshuffle]. *)
Definition bitUnshuffle_groups (src : list Z) (typeSize numGroups : Z)
    (dst : list Z) : option (list Z) :=
  let groupSize := 8 in
  for_range 0 numGroups (fun g dst =>
    let baseIn := g * groupSize * typeSize in
    let baseOut := g * groupSize * typeSize in
    for_range 0 typeSize (fun byteIdx dst =>
      bytes ← gather8 src (fun i => baseIn + byteIdx * 8 + i);
      for_range 0 8 (fun outElem dst =>
        outByte ← transpose_bit bytes outElem;
        store dst (baseOut + outElem * typeSize + byteIdx) outByte) dst) dst) dst.

(** [copy(dst[startIdx:numElements*typeSize], src[startIdx:numElements*typeSize])] *)
Definition copy_elements (src : list Z) (typeSize numElements startIdx : Z)
    (dst : list Z) : option (list Z) :=
  from ← slice src startIdx (numElements * typeSize);
  copy_at dst startIdx (numElements * typeSize) from.

(** The SIMD attempt of [bitShuffle] and [bitUnshuffle]. *)
Definition try_simd_bits (avx2 neon : list Z -> list Z -> Z -> list Z * bool)
    (dst src : list Z) (typeSize n : Z) : list Z * bool :=
  let '(dst, usedSIMD) :=
    if useAVX2 && bool_decide (n >= 64) then avx2 dst src typeSize
    else (dst, false) in
  if negb usedSIMD && useNEON && bool_decide (n >= 64)
  then neon dst src typeSize
  else (dst, usedSIMD).

(** What both bit transforms do around their group loop. *)
Definition bit_transform
    (avx2 neon : list Z -> list Z -> Z -> list Z * bool)
    (groups : list Z -> Z -> Z -> list Z -> option (list Z))
    (src : list Z) (typeSize : Z) : option (list Z) :=
  if bool_decide (typeSize <= 1) || bool_decide (len src < typeSize)
  then Some src
  else
    let n := len src in
    let numElements := Z.quot n typeSize in
    let dst := make n in
    let '(dst, usedSIMD) := try_simd_bits avx2 neon dst src typeSize n in
    if usedSIMD then
      let processedElements := Z.quot numElements 8 * 8 in
      dst ← (if bool_decide (processedElements < numElements)
             then copy_elements src typeSize numElements
                    (processedElements * typeSize) dst
             else Some dst);
      copy_remainder src typeSize numElements dst
    else
      let groupSize := 8 in
      let numGroups := Z.quot numElements groupSize in
      dst ← groups src typeSize numGroups dst;
      let remainingElements := Z.rem numElements groupSize in
      dst ← (if bool_decide (remainingElements > 0)
             then copy_elements src typeSize numElements
                    (numGroups * groupSize * typeSize) dst
             else Some dst);
      copy_remainder src typeSize numElements dst.

Definition bitShuffle (src : list Z) (typeSize : Z) : option (list Z) :=
  bit_transform bitShuffleAVX2 bitShuffleNEON bitShuffle_groups src typeSize.

Definition bitUnshuffle (src : list Z) (typeSize : Z) : option (list Z) :=
  bit_transform bitUnshuffleAVX2 bitUnshuffleNEON bitUnshuffle_groups src typeSize.

(** ** Outcomes

    A Go call returns a value, returns an error, or panics. *)

Inductive result (E A : Type) : Type :=
  | Ok (a : A)
  | Err (e : E)
  | Panic.
Arguments Ok {E A} a.
Arguments Err {E A} e.
Arguments Panic {E A}.

Definition rbind {E A B : Type} (m : result E A) (f : A -> result E B)
    : result E B :=
  match m with
  | Ok a => f a
  | Err e => Err e
  | Panic => Panic
  end.

(** An operation that can only panic. *)
Definition must {E A : Type} (o : option A) : result E A :=
  match o with
  | Some a => Ok a
  | None => Panic
  end.

Declare Scope result_scope.
Delimit Scope result_scope with result.
Notation "x <~ m ;; k" := (rbind m (fun x => k))
  (at level 100, m at next level, right associativity) : result_scope.
Local Open Scope result_scope.

(** ** encoding/binary, little endian

    Modelled from the Go standard library: [binary.LittleEndian.Uint32]
    and [PutUint32], which are not part of this repository.  Both start
    with the bounds check [_ = b[3]]. *)

Module LittleEndian.

Definition Uint32 (b : list Z) : option Z :=
  b0 ← index b 0; b1 ← index b 1; b2 ← index b 2; b3 ← index b 3;
  Some (Z.lor (Z.lor (Z.lor (u32 b0) (u32 (Z.shiftl (u32 b1) 8)))
                     (u32 (Z.shiftl (u32 b2) 16)))
              (u32 (Z.shiftl (u32 b3) 24))).

Definition PutUint32 (b : list Z) (v : Z) : option (list Z) :=
  _ ← index b 3;
  b ← store b 0 (u8 v);
  b ← store b 1 (u8 (Z.shiftr v 8));
  b ← store b 2 (u8 (Z.shiftr v 16));
  store b 3 (u8 (Z.shiftr v 24)).

(** [PutUint32(buf[lo:hi], v)]: the window aliases [buf]. *)
Definition PutUint32_at (buf : list Z) (lo hi v : Z) : option (list Z) :=
  w ← slice buf lo hi;
  w ← PutUint32 w v;
  Some (take (Z.to_nat lo) buf ++ w ++ drop (Z.to_nat hi) buf).

End LittleEndian.

(** ** Frame header (codec.go) *)

Definition FormatVersion : Z := 2.
Definition HeaderSize : Z := 16.

(** [type Codec uint8] *)
Definition BloscLZ : Z := 0.
Definition LZ4 : Z := 1.
Definition LZ4HC : Z := 2.
Definition Snappy : Z := 3.
Definition ZLIB : Z := 4.
Definition ZSTD : Z := 5.

(** [type Shuffle uint8] *)
Definition NoShuffle : Z := 0.
Definition Shuffle1 : Z := 1.
Definition BitShuffle : Z := 2.

Definition flagShuffle : Z := 1.
Definition flagMemcpy : Z := 2.
Definition flagBitShuffle : Z := 4.
Definition flagSplit : Z := 8.

Inductive Error : Type :=
  | ErrInvalidData
  | ErrInvalidHeader
  | ErrInvalidVersion
  | ErrInvalidCodec
  | ErrSizeMismatch
  | ErrDataTooLarge
  | ErrCompressionFailed
  | ErrDecompressionFailed.

Record Header : Type := mkHeader {
  Version : Z;     (* uint8 *)
  VersionLZ : Z;   (* uint8 *)
  Flags : Z;       (* uint8 *)
  TypeSize : Z;    (* uint8 *)
  NBytesOrig : Z;  (* uint32 *)
  BlockSize : Z;   (* uint32 *)
  NBytesComp : Z   (* uint32 *)
}.

Definition ParseHeader (data : list Z) : result Error Header :=
  if bool_decide (len data < HeaderSize) then Err ErrInvalidHeader
  else
    d0 <~ must (index data 0);;
    d1 <~ must (index data 1);;
    d2 <~ must (index data 2);;
    d3 <~ must (index data 3);;
    orig <~ must (slice data 4 8 ≫= LittleEndian.Uint32);;
    block <~ must (slice data 8 12 ≫= LittleEndian.Uint32);;
    comp <~ must (slice data 12 16 ≫= LittleEndian.Uint32);;
    let h := {| Version := d0; VersionLZ := d1; Flags := d2; TypeSize := d3;
                NBytesOrig := orig; BlockSize := block; NBytesComp := comp |} in
    if bool_decide (Version h ≠ FormatVersion) then Err ErrInvalidVersion
    else Ok h.

(** [(h *Header) Bytes()] *)
Definition Bytes (h : Header) : option (list Z) :=
  let buf := make HeaderSize in
  buf ← store buf 0 (Version h);
  buf ← store buf 1 (VersionLZ h);
  buf ← store buf 2 (Flags h);
  buf ← store buf 3 (TypeSize h);
  buf ← LittleEndian.PutUint32_at buf 4 8 (NBytesOrig h);
  buf ← LittleEndian.PutUint32_at buf 8 12 (BlockSize h);
  LittleEndian.PutUint32_at buf 12 16 (NBytesComp h).

Definition HasShuffle (h : Header) : bool :=
  bool_decide (Z.land (Flags h) flagShuffle ≠ 0).
Definition HasBitShuffle (h : Header) : bool :=
  bool_decide (Z.land (Flags h) flagBitShuffle ≠ 0).
Definition IsMemcpy (h : Header) : bool :=
  bool_decide (Z.land (Flags h) flagMemcpy ≠ 0).

Definition ShuffleMode (h : Header) : Z :=
  if HasBitShuffle h then BitShuffle
  else if HasShuffle h then Shuffle1
  else NoShuffle.

(** ** Codecs (codec.go) *)

(** The [error] a codec returns; the pipeline only wraps it. *)
Definition CodecError : Type := string.

Record CodecInterface : Type := mkCodec {
  Codec_Compress : list Z -> Z -> result CodecError (list Z);
  Codec_Decompress : list Z -> Z -> result CodecError (list Z);
  Codec_Name : string
}.

(** *** io.ReadFull

    Modelled from the Go standard library.  A reader that is drained is
    seen as the bytes it delivers and the error its [Read] reports after
    them: [io.EOF] at the end of a stream, [io.ErrUnexpectedEOF] where a
    decoder finds its input cut short, or another error.
    [io.ReadFull(r, buf)] is [io.ReadAtLeast(r, buf, len(buf))]:
    [for n < min && err == nil { nn, err = r.Read(buf[n:]); n += nn }
     if n >= min { err = nil } else if n > 0 && err == EOF { err = ErrUnexpectedEOF }]. *)

Inductive io_error : Type :=
  | io_EOF
  | io_ErrUnexpectedEOF
  | io_other (msg : string).

Record Reader : Type := mkReader {
  delivered : list Z;   (* the bytes of the stream *)
  ending : io_error     (* the error of [Read] once they are delivered *)
}.

Definition ReadFull (r : Reader) (buf : list Z) : list Z * Z * option io_error :=
  let buf' := copy buf (delivered r) in
  let n := Z.min (len buf) (len (delivered r)) in
  if bool_decide (n >= len buf) then (buf', n, None)
  else
    let err := ending r in
    (buf', n,
     Some match err with
          | io_EOF => if bool_decide (n > 0) then io_ErrUnexpectedEOF else io_EOF
          | _ => err
          end).

Section BuiltinCodecs.

(** The third-party decoders, as the adapters call them. *)
Variable kzlib_NewReader : list Z -> result CodecError Reader.
(** [lz4.UncompressBlock(src, dst)]: the buffer after the call, [n], [err]. *)
Variable lz4_UncompressBlock : list Z -> list Z -> list Z * Z * option CodecError.

(** [(c *zlibCodec) Decompress]:
    [if err != nil && err != io.EOF && err != io.ErrUnexpectedEOF] is the
    only error it returns after the reader is created. *)
Definition zlibCodec_Decompress (data : list Z) (expectedSize : Z)
    : result CodecError (list Z) :=
  r <~ kzlib_NewReader data;;
  if bool_decide (expectedSize < 0) then Panic   (* make with a negative length *)
  else
    let buf := make expectedSize in
    let '(buf, n, err) := ReadFull r buf in
    match err with
    | Some (io_other msg) => Err msg
    | _ => must (slice buf 0 n)
    end.

(** [(c *lz4Codec) Decompress] *)
Definition lz4Codec_Decompress (data : list Z) (expectedSize : Z)
    : result CodecError (list Z) :=
  if bool_decide (expectedSize < 0) then Panic   (* make with a negative length *)
  else
    let buf := make expectedSize in
    let '(buf, n, err) := lz4_UncompressBlock data buf in
    match err with
    | Some msg => Err msg
    | None => must (slice buf 0 n)
    end.

End BuiltinCodecs.

(** [mockCodecImpl] of codec_test.go, which the tests register. *)
Definition mockCodecImpl (name : string) : CodecInterface :=
  {| Codec_Compress := fun data _ => Ok data;
     Codec_Decompress := fun data _ => Ok data;
     Codec_Name := name |}.

(** ** Pipeline (codec.go) *)

Record Options : Type := mkOptions {
  opt_Codec : Z;      (* Codec, uint8 *)
  opt_Level : Z;
  opt_Shuffle : Z;    (* Shuffle, uint8 *)
  opt_TypeSize : Z;
  opt_BlockSize : Z;
  opt_NumThreads : Z
}.

Definition DefaultOptions : Options :=
  {| opt_Codec := LZ4; opt_Level := 5; opt_Shuffle := Shuffle1;
     opt_TypeSize := 4; opt_BlockSize := 0; opt_NumThreads := 0 |}.

Section Pipeline.

(** The width of [int] on the target. *)
Variable W : IntWidth.

(** The package-level registry [codecs] at the time of the call. *)
Variable codecs : gmap Z CodecInterface.

(** The shuffle preprocessing of [compressBackend]:
    [shuffled := data
     if opts.Shuffle == Shuffle1 && opts.TypeSize > 1 { shuffled = shuffleBytes(...) }
     else if opts.Shuffle == BitShuffle && opts.TypeSize > 1 { shuffled = bitShuffle(...) }] *)
Definition applyShuffle (data : list Z) (opts : Options) : option (list Z) :=
  if bool_decide (opt_Shuffle opts = Shuffle1) && bool_decide (opt_TypeSize opts > 1)
  then shuffleBytes data (opt_TypeSize opts)
  else if bool_decide (opt_Shuffle opts = BitShuffle) && bool_decide (opt_TypeSize opts > 1)
  then bitShuffle data (opt_TypeSize opts)
  else Some data.

(** The header [compressBackend] builds once the payload is chosen. *)
Definition buildHeader (data payload : list Z) (opts : Options)
    (useMemcpy : bool) : Header :=
  let flags := 0 in
  let flags :=
    if bool_decide (opt_Shuffle opts = Shuffle1) then Z.lor flags flagShuffle
    else if bool_decide (opt_Shuffle opts = BitShuffle) then Z.lor flags flagBitShuffle
    else flags in
  let flags := if useMemcpy then Z.lor flags flagMemcpy else flags in
  {| Version := FormatVersion;
     VersionLZ := u8 (opt_Codec opts);
     Flags := flags;
     TypeSize := u8 (opt_TypeSize opts);
     NBytesOrig := u32 (len data);
     BlockSize := u32 (len data);
     NBytesComp := u32 (HeaderSize + len payload) |}.

Definition compressBackend (data : list Z) (opts : Options)
    : result Error (list Z) :=
  match codecs !! opt_Codec opts with
  | None => Err ErrInvalidCodec
  | Some compressor =>
    shuffled <~ must (applyShuffle data opts);;
    match Codec_Compress compressor shuffled (opt_Level opts) with
    | Panic => Panic
    | Err _ => Err ErrCompressionFailed
    | Ok compressed =>
      let useMemcpy := bool_decide (len compressed >= len data) in
      let compressed := if useMemcpy then data else compressed in
      let header := buildHeader data compressed opts useMemcpy in
      let result := make (HeaderSize + len compressed) in
      hb <~ must (Bytes header);;
      result <~ must (copy_at result 0 HeaderSize hb);;
      must (copy_at result HeaderSize (len result) compressed)
    end
  end.

(** The option clamping of [CompressWithOptions]:
    [if opts.TypeSize <= 0 { opts.TypeSize = 1 }
     if opts.Level < 1 { opts.Level = 1 }
     if opts.Level > 9 { opts.Level = 9 }] *)
Definition validateOptions (opts : Options) : Options :=
  let opts := if bool_decide (opt_TypeSize opts <= 0)
              then {| opt_Codec := opt_Codec opts; opt_Level := opt_Level opts;
                      opt_Shuffle := opt_Shuffle opts; opt_TypeSize := 1;
                      opt_BlockSize := opt_BlockSize opts;
                      opt_NumThreads := opt_NumThreads opts |}
              else opts in
  let opts := if bool_decide (opt_Level opts < 1)
              then {| opt_Codec := opt_Codec opts; opt_Level := 1;
                      opt_Shuffle := opt_Shuffle opts; opt_TypeSize := opt_TypeSize opts;
                      opt_BlockSize := opt_BlockSize opts;
                      opt_NumThreads := opt_NumThreads opts |}
              else opts in
  if bool_decide (opt_Level opts > 9)
  then {| opt_Codec := opt_Codec opts; opt_Level := 9;
          opt_Shuffle := opt_Shuffle opts; opt_TypeSize := opt_TypeSize opts;
          opt_BlockSize := opt_BlockSize opts;
          opt_NumThreads := opt_NumThreads opts |}
  else opts.

Definition CompressWithOptions (data : list Z) (opts : Options)
    : result Error (list Z) :=
  if bool_decide (len data = 0) then Err ErrInvalidData
  else compressBackend data (validateOptions opts).

Definition Compress (data : list Z) (codec level shuffle typeSize : Z)
    : result Error (list Z) :=
  CompressWithOptions data
    {| opt_Codec := codec; opt_Level := level; opt_Shuffle := shuffle;
       opt_TypeSize := typeSize; opt_BlockSize := 0; opt_NumThreads := 0 |}.

(** The decode step of [decompressBackend]: a copy of the payload under
    the memcpy flag, the registered codec otherwise, called with
    [int(header.NBytesOrig)]. *)
Definition decodePayload (header : Header) (payload : list Z)
    : result Error (list Z) :=
  if IsMemcpy header
  then Ok (copy (make (len payload)) payload)
  else
    let codec := VersionLZ header in
    match codecs !! codec with
    | None => Err ErrInvalidCodec
    | Some decompressor =>
      match Codec_Decompress decompressor payload
              (to_int W (NBytesOrig header)) with
      | Panic => Panic
      | Err _ => Err ErrDecompressionFailed
      | Ok d => Ok d
      end
    end.

(** The unshuffle step of [decompressBackend]:
    [if typeSize <= 0 { typeSize = int(header.TypeSize) }
     if header.HasBitShuffle() && typeSize > 1 { bitUnshuffle }
     else if header.HasShuffle() && typeSize > 1 { unshuffleBytes }] *)
Definition applyUnshuffle (header : Header) (typeSize : Z)
    (decompressed : list Z) : option (list Z) :=
  let typeSize := if bool_decide (typeSize <= 0) then TypeSize header else typeSize in
  if HasBitShuffle header && bool_decide (typeSize > 1)
  then bitUnshuffle decompressed typeSize
  else if HasShuffle header && bool_decide (typeSize > 1)
  then unshuffleBytes decompressed typeSize
  else Some decompressed.

(** [decompressBackend].  The first size check compares
    [int(header.NBytesComp)], the second the [uint32] field itself, and
    the slice expression [data[HeaderSize:header.NBytesComp]] takes the
    [uint32] value as its bound. *)
Definition decompressBackend (data : list Z) (typeSize : Z)
    : result Error (list Z) :=
  header <~ ParseHeader data;;
  if bool_decide (to_int W (NBytesComp header) > len data) then Err ErrInvalidData
  else if bool_decide (NBytesComp header < HeaderSize) then Err ErrInvalidData
  else
    payload <~ must (slice data HeaderSize (NBytesComp header));;
    decompressed <~ decodePayload header payload;;
    decompressed <~ must (applyUnshuffle header typeSize decompressed);;
    if bool_decide (len decompressed ≠ to_int W (NBytesOrig header))
    then Err ErrSizeMismatch
    else Ok decompressed.

Definition DecompressWithSize (data : list Z) (typeSize : Z)
    : result Error (list Z) :=
  if bool_decide (len data < HeaderSize) then Err ErrInvalidHeader
  else decompressBackend data typeSize.

Definition Decompress (data : list Z) : result Error (list Z) :=
  DecompressWithSize data 0.

End Pipeline.

(** ** Queries (codec.go) *)

(** [GetInfo] *)
Definition GetInfo (data : list Z) : result Error Header := ParseHeader data.

(** [GetDecompressedSize]: [int(header.NBytesOrig)]. *)
Definition GetDecompressedSize (W : IntWidth) (data : list Z) : result Error Z :=
  header <~ ParseHeader data;;
  Ok (to_int W (NBytesOrig header)).

(** ** In-place transforms

    [ShuffleBuffer] and [UnshuffleBuffer] end with [copy(data, result)];
    the value returned here is the content of [data] after the call.  In
    the degenerate shapes [result] is [data] itself and the copy changes
    nothing. *)

Definition ShuffleBuffer (data : list Z) (typeSize mode : Z) : option (list Z) :=
  if bool_decide (mode = Shuffle1) then
    result ← shuffleBytes data typeSize; Some (copy data result)
  else if bool_decide (mode = BitShuffle) then
    result ← bitShuffle data typeSize; Some (copy data result)
  else Some data.

Definition UnshuffleBuffer (data : list Z) (typeSize mode : Z) : option (list Z) :=
  if bool_decide (mode = Shuffle1) then
    result ← unshuffleBytes data typeSize; Some (copy data result)
  else if bool_decide (mode = BitShuffle) then
    result ← bitUnshuffle data typeSize; Some (copy data result)
  else Some data.

(** ** Names (codec.go) *)

(** [(c Codec) String()]; [fmt.Sprintf("unknown(%d)", c)] prints the
    decimal digits of [c]. *)
Definition Codec_String (c : Z) : string :=
  if bool_decide (c = BloscLZ) then "blosclz"
  else if bool_decide (c = LZ4) then "lz4"
  else if bool_decide (c = LZ4HC) then "lz4hc"
  else if bool_decide (c = Snappy) then "snappy"
  else if bool_decide (c = ZLIB) then "zlib"
  else if bool_decide (c = ZSTD) then "zstd"
  else "unknown(" +:+ pretty c +:+ ")".

(** [(s Shuffle) String()] *)
Definition Shuffle_String (s : Z) : string :=
  if bool_decide (s = NoShuffle) then "noshuffle"
  else if bool_decide (s = Shuffle1) then "shuffle"
  else if bool_decide (s = BitShuffle) then "bitshuffle"
  else "unknown(" +:+ pretty s +:+ ")".

(** ** The registry (codec.go)

    The package-level map [codecs] is passed explicitly. *)

(** [RegisterCodec]: [codecs[id] = codec]. *)
Definition RegisterCodec (codecs : gmap Z CodecInterface) (id : Z)
    (codec : CodecInterface) : gmap Z CodecInterface :=
  <[id := codec]> codecs.

(** [GetCodec]: [c, ok := codecs[id]]. *)
Definition GetCodec (codecs : gmap Z CodecInterface) (id : Z)
    : option CodecInterface :=
  codecs !! id.

(** [ListCodecs] appends every key while ranging over the map; Go leaves
    the order of that iteration open, so the possible results are the
    permutations of the keys. *)
Definition ListCodecs_returns (codecs : gmap Z CodecInterface)
    (result : list Z) : Prop :=
  result ≡ₚ (map_to_list codecs).*1.

(** ** The built-in codecs (codec.go)

    The third-party packages are parameters.  A function that fills a
    caller's buffer returns the buffer after the call with its other
    results; an [error] is [None] for [nil].  The adapters wrap the
    library's error with a prefix ([fmt.Errorf("...: %w", err)]), which
    keeps its identity and is not modelled. *)

(** [lz4.CompressionLevel], the constants the adapters use. *)
Inductive lz4_CompressionLevel : Type :=
  | lz4_Fast | lz4_Level1 | lz4_Level5 | lz4_Level7 | lz4_Level9.

(** [zstd.EncoderLevel] *)
Inductive zstd_EncoderLevel : Type :=
  | zstd_SpeedFastest
  | zstd_SpeedDefault
  | zstd_SpeedBetterCompression
  | zstd_SpeedBestCompression.

Record Libraries : Type := mkLibraries {
  (** [lz4.CompressBlockBound(n)] *)
  lz4_CompressBlockBound : Z -> Z;
  (** [lz4.CompressBlock(src, dst, nil)]: [dst] after the call, [n], [err] *)
  lz4_CompressBlock : list Z -> list Z -> list Z * Z * option CodecError;
  (** [lz4.CompressBlockHC(src, dst, level, ht, nil)] *)
  lz4_CompressBlockHC :
    list Z -> list Z -> lz4_CompressionLevel -> list Z * Z * option CodecError;
  (** [lz4.UncompressBlock(src, dst)] *)
  lz4_UncompressBlock_ : list Z -> list Z -> list Z * Z * option CodecError;
  (** [kzlib.NewWriterLevel(&buf, level)]: its [err] *)
  kzlib_NewWriterLevel : Z -> option CodecError;
  (** [w.Write(data)] on a writer of that level: its [err] *)
  kzlib_Write : Z -> list Z -> option CodecError;
  (** [w.Close()] after that write: its [err] *)
  kzlib_Close : Z -> list Z -> option CodecError;
  (** [buf.Bytes()] after a successful write and close *)
  kzlib_Bytes : Z -> list Z -> list Z;
  (** [kzlib.NewReader(bytes.NewReader(data))] *)
  kzlib_NewReader_ : list Z -> result CodecError Reader;
  (** [e.EncodeAll(data, nil)] on the encoder built with a level *)
  zstd_EncodeAll : zstd_EncoderLevel -> list Z -> list Z;
  (** [zstdDecoder.DecodeAll(data, make([]byte, 0, cap))] *)
  zstd_DecodeAll : list Z -> Z -> list Z * option CodecError;
  (** [snappy.Encode(nil, data)] *)
  snappy_Encode : list Z -> list Z;
  (** [snappy.Decode(buf, data)] *)
  snappy_Decode : list Z -> list Z -> list Z * option CodecError
}.

Section Adapters.

Variable L : Libraries.

(** [(c *lz4Codec) Compress] *)
Definition lz4Codec_Compress (data : list Z) (level : Z)
    : result CodecError (list Z) :=
  let bound := lz4_CompressBlockBound L (len data) in
  if bool_decide (bound < 0) then Panic   (* make with a negative length *)
  else
    let buf := make bound in
    let '(buf, n, err) := lz4_CompressBlock L data buf in
    match err with
    | Some e => Err e
    | None => if bool_decide (n = 0) then Ok data else must (slice buf 0 n)
    end.

(** The level switch of [(c *lz4hcCodec) Compress]. *)
Definition lz4hc_level (level : Z) : lz4_CompressionLevel :=
  if bool_decide (level <= 3) then lz4_Level1
  else if bool_decide (level <= 5) then lz4_Level5
  else if bool_decide (level <= 7) then lz4_Level7
  else lz4_Level9.

(** [(c *lz4hcCodec) Compress] *)
Definition lz4hcCodec_Compress (data : list Z) (level : Z)
    : result CodecError (list Z) :=
  let lz4Level := lz4hc_level level in
  let bound := lz4_CompressBlockBound L (len data) in
  if bool_decide (bound < 0) then Panic   (* make with a negative length *)
  else
    let buf := make bound in
    let '(buf, n, err) := lz4_CompressBlockHC L data buf lz4Level in
    match err with
    | Some e => Err e
    | None => if bool_decide (n = 0) then Ok data else must (slice buf 0 n)
    end.

(** [(c *lz4hcCodec) Decompress] *)
Definition lz4hcCodec_Decompress (data : list Z) (expectedSize : Z)
    : result CodecError (list Z) :=
  if bool_decide (expectedSize < 0) then Panic   (* make with a negative length *)
  else
    let buf := make expectedSize in
    let '(buf, n, err) := lz4_UncompressBlock_ L data buf in
    match err with
    | Some msg => Err msg
    | None => must (slice buf 0 n)
    end.

(** [(c *zlibCodec) Compress] *)
Definition zlibCodec_Compress (data : list Z) (level : Z)
    : result CodecError (list Z) :=
  match kzlib_NewWriterLevel L level with
  | Some e => Err e
  | None =>
    match kzlib_Write L level data with
    | Some e => Err e
    | None =>
      match kzlib_Close L level data with
      | Some e => Err e
      | None => Ok (kzlib_Bytes L level data)
      end
    end
  end.

(** [zstdEncoders]: one encoder per level of the list [levels]. *)
Definition zstdEncoders : list zstd_EncoderLevel :=
  [zstd_SpeedFastest; zstd_SpeedDefault;
   zstd_SpeedBetterCompression; zstd_SpeedBestCompression].

(** The index switch of [(c *zstdCodec) Compress]. *)
Definition zstd_index (level : Z) : Z :=
  if bool_decide (level <= 2) then 0
  else if bool_decide (level <= 4) then 1
  else if bool_decide (level <= 6) then 2
  else 3.

(** [(c *zstdCodec) Compress]: [zstdEncoders[idx].EncodeAll(data, nil)]. *)
Definition zstdCodec_Compress (data : list Z) (level : Z)
    : result CodecError (list Z) :=
  let idx := zstd_index level in
  match (if bool_decide (0 <= idx) then zstdEncoders !! Z.to_nat idx else None) with
  | Some e => Ok (zstd_EncodeAll L e data)
  | None => Panic
  end.

(** [(c *zstdCodec) Decompress] *)
Definition zstdCodec_Decompress (data : list Z) (expectedSize : Z)
    : result CodecError (list Z) :=
  if bool_decide (expectedSize < 0) then Panic   (* make with a negative capacity *)
  else
    let '(buf, err) := zstd_DecodeAll L data expectedSize in
    match err with
    | Some e => Err e
    | None => Ok buf
    end.

(** [(c *snappyCodec) Compress] *)
Definition snappyCodec_Compress (data : list Z) (level : Z)
    : result CodecError (list Z) :=
  Ok (snappy_Encode L data).

(** [(c *snappyCodec) Decompress] *)
Definition snappyCodec_Decompress (data : list Z) (expectedSize : Z)
    : result CodecError (list Z) :=
  if bool_decide (expectedSize < 0) then Panic   (* make with a negative length *)
  else
    let buf := make expectedSize in
    let '(result, err) := snappy_Decode L buf data in
    match err with
    | Some e => Err e
    | None => Ok result
    end.

Definition lz4Codec : CodecInterface :=
  {| Codec_Compress := lz4Codec_Compress;
     Codec_Decompress := lz4Codec_Decompress (lz4_UncompressBlock_ L);
     Codec_Name := "lz4" |}.

Definition lz4hcCodec : CodecInterface :=
  {| Codec_Compress := lz4hcCodec_Compress;
     Codec_Decompress := lz4hcCodec_Decompress;
     Codec_Name := "lz4hc" |}.

Definition zlibCodec : CodecInterface :=
  {| Codec_Compress := zlibCodec_Compress;
     Codec_Decompress := zlibCodec_Decompress (kzlib_NewReader_ L);
     Codec_Name := "zlib" |}.

Definition zstdCodec : CodecInterface :=
  {| Codec_Compress := zstdCodec_Compress;
     Codec_Decompress := zstdCodec_Decompress;
     Codec_Name := "zstd" |}.

Definition snappyCodec : CodecInterface :=
  {| Codec_Compress := snappyCodec_Compress;
     Codec_Decompress := snappyCodec_Decompress;
     Codec_Name := "snappy" |}.

(** The initial value of [codecs]. *)
Definition default_codecs : gmap Z CodecInterface :=
  <[LZ4 := lz4Codec]> (<[LZ4HC := lz4hcCodec]> (<[ZLIB := zlibCodec]>
    (<[ZSTD := zstdCodec]> (<[Snappy := snappyCodec]> ∅)))).

End Adapters.

(** * Definitions used by the statements and proofs *)

(** ** Arrays in closed form *)

(** [tabulate n f]: the array [f 0, ..., f (n-1)]. *)
Definition tabulate (n : nat) (f : Z -> Z) : list Z :=
  (fun k => f (Z.of_nat k)) <$> seq 0 n.

(** The byte at [i]; 0 outside the array, where no statement looks. *)
Definition at0 (s : list Z) (i : Z) : Z := default 0 (s !! Z.to_nat i).

(** A well-formed byte. *)
Definition is_byte (b : Z) : Prop := 0 <= b < 256.

(** [fills tgt F f]: run on a buffer as long as [tgt], the array
    computation [f] does not panic, keeps the length, leaves every
    position either untouched or equal to [tgt] there, and makes the
    positions in [F] equal to [tgt]. *)
Definition fills (tgt : list Z) (F : nat -> Prop)
    (f : list Z -> option (list Z)) : Prop :=
  forall s, length s = length tgt ->
    exists s', f s = Some s' /\ length s' = length tgt /\
      (forall k, F k -> s' !! k = tgt !! k) /\
      (forall k, s' !! k = tgt !! k \/ s' !! k = s !! k).

(** ** The arrays the transforms compute *)

(** What [shuffleBytes] returns when it transforms: position
    [k = j*E + i] of the element area holds input byte [i*T + j]; the bytes
    after the element area are the input's. *)
Definition shuffle_tgt (src : list Z) (T : Z) : list Z :=
  let E := len src / T in
  tabulate (length src) (fun k =>
    at0 src (if bool_decide (k < E * T) then (k mod E) * T + k / E else k)).

(** What [unshuffleBytes] returns when it transforms: position
    [k = i*T + j] of the element area holds input byte [j*E + i]. *)
Definition unshuffle_tgt (src : list Z) (T : Z) : list Z :=
  let E := len src / T in
  tabulate (length src) (fun k =>
    at0 src (if bool_decide (k < E * T) then (k mod T) * E + k / T else k)).

(** The byte [transpose_bit] builds for output index [m]. *)
Definition tbit (bytes : list Z) (m : Z) : Z :=
  foldl (fun outByte inByte =>
           if bool_decide (Z.land (at0 bytes inByte) (u8 (Z.shiftl 1 (7 - m))) ≠ 0)
           then Z.lor outByte (u8 (Z.shiftl 1 (7 - inByte)))
           else outByte) 0 (seqZ 0 8).

(** The eight bytes [gather8] collects. *)
Definition group_bytes (src : list Z) (at_ : Z -> Z) : list Z :=
  (fun k => at0 src (at_ k)) <$> seqZ 0 8.

(** What [bitShuffle] returns when it transforms: inside the whole
    groups, output byte [g*8T + j*8 + m] is the transpose at [m] of the
    eight input bytes [g*8T + e*T + j]; the rest is the input. *)
Definition bitShuffle_tgt (src : list Z) (T : Z) : list Z :=
  let G := len src / T / 8 in
  tabulate (length src) (fun k =>
    if bool_decide (k < G * 8 * T) then
      let g := k / (8 * T) in
      let r := k mod (8 * T) in
      tbit (group_bytes src (fun elem => g * 8 * T + elem * T + r / 8)) (r mod 8)
    else at0 src k).

(** What [bitUnshuffle] returns when it transforms: inside the whole
    groups, output byte [g*8T + e*T + j] is the transpose at [e] of the
    eight input bytes [g*8T + j*8 + i]; the rest is the input. *)
Definition bitUnshuffle_tgt (src : list Z) (T : Z) : list Z :=
  let G := len src / T / 8 in
  tabulate (length src) (fun k =>
    if bool_decide (k < G * 8 * T) then
      let g := k / (8 * T) in
      let r := k mod (8 * T) in
      tbit (group_bytes src (fun i => g * 8 * T + r mod T * 8 + i)) (r / T)
    else at0 src k).

(** ** Header bytes *)

(** The four bytes [PutUint32] writes for [v]. *)
Definition le32_bytes (v : Z) : list Z :=
  [u8 v; u8 (Z.shiftr v 8); u8 (Z.shiftr v 16); u8 (Z.shiftr v 24)].

(** What [Uint32] reads from four bytes. *)
Definition le32 (b0 b1 b2 b3 : Z) : Z :=
  Z.lor (Z.lor (Z.lor (u32 b0) (u32 (Z.shiftl (u32 b1) 8)))
               (u32 (Z.shiftl (u32 b2) 16)))
        (u32 (Z.shiftl (u32 b3) 24)).

(** The byte of [v] at little-endian position [i]. *)
Definition le_byte (v i : Z) : Z := (v / 2 ^ (8 * i)) mod 256.

(** A header whose fields fit their Go types and carry the format
    version. *)
Record well_formed (h : Header) : Prop := {
  wf_version : Version h = FormatVersion;
  wf_versionlz : 0 <= VersionLZ h < 2 ^ 8;
  wf_flags : 0 <= Flags h < 2 ^ 8;
  wf_typesize : 0 <= TypeSize h < 2 ^ 8;
  wf_orig : 0 <= NBytesOrig h < 2 ^ 32;
  wf_block : 0 <= BlockSize h < 2 ^ 32;
  wf_comp : 0 <= NBytesComp h < 2 ^ 32
}.

(** ** Sample inputs *)

(** The header of a 4000-byte input shuffled at type size 4 and
    compressed by LZ4 to 284 bytes. *)
Definition sample_header : Header :=
  {| Version := 2; VersionLZ := 1; Flags := 1; TypeSize := 4;
     NBytesOrig := 4000; BlockSize := 4000; NBytesComp := 300 |}.

(** A registry in which LZ4 is the identity codec of the tests: it
    stands for any codec on input it cannot shrink. *)
Definition identity_registry : gmap Z CodecInterface :=
  {[ LZ4 := mockCodecImpl "mock" ]}.

(** An input of [n] zero bytes; the proofs about large inputs use its
    length only. *)
Definition zeros (n : Z) : list Z := make n.

(** The zlib stream of the three bytes 1, 2, 3. *)
Definition zlib_blob_123 : list Z := [120; 156; 99; 100; 98; 6; 0; 0; 13; 0; 7].

(** The same stream cut before its four checksum bytes. *)
Definition zlib_blob_123_cut : list Z := [120; 156; 99; 100; 98; 6; 0].

(** [kzlib.NewReader] on these streams: a reader that delivers 1, 2, 3
    and ends with [io.EOF] on the whole stream, with
    [io.ErrUnexpectedEOF] on the cut one, where the checksum is missing. *)
Definition sample_NewReader (data : list Z) : result CodecError Reader :=
  if bool_decide (data = zlib_blob_123)
  then Ok {| delivered := [1; 2; 3]; ending := io_EOF |}
  else if bool_decide (data = zlib_blob_123_cut)
  then Ok {| delivered := [1; 2; 3]; ending := io_ErrUnexpectedEOF |}
  else Err "zlib: invalid header"%string.

(** A codec that shrinks some inputs: it drops the trailing zero bytes
    and restores them from the expected size. *)
Fixpoint strip_zeros (data : list Z) : list Z :=
  match data with
  | [] => []
  | b :: rest =>
    match strip_zeros rest with
    | [] => if bool_decide (b = 0) then [] else [b]
    | s => b :: s
    end
  end.

Definition zero_tail_codec : CodecInterface :=
  {| Codec_Compress := fun data _ => Ok (strip_zeros data);
     Codec_Decompress := fun data n => Ok (data ++ make (n - len data));
     Codec_Name := "zero-tail" |}.

Definition zero_tail_registry : gmap Z CodecInterface :=
  {[ LZ4 := zero_tail_codec ]}.

(** Stand-ins for the third-party packages: LZ4 finds nothing to gain
    ([n = 0]) and decodes by copying, the other formats store the bytes
    as they are. *)
Definition sample_libraries : Libraries :=
  {| lz4_CompressBlockBound := fun n => n + 16;
     lz4_CompressBlock := fun _ dst => (dst, 0, None);
     lz4_CompressBlockHC := fun _ dst _ => (dst, 0, None);
     lz4_UncompressBlock_ := fun src dst => (copy dst src, len src, None);
     kzlib_NewWriterLevel := fun _ => None;
     kzlib_Write := fun _ _ => None;
     kzlib_Close := fun _ _ => None;
     kzlib_Bytes := fun _ data => data;
     kzlib_NewReader_ := fun data => Ok {| delivered := data; ending := io_EOF |};
     zstd_EncodeAll := fun _ data => data;
     zstd_DecodeAll := fun data _ => (data, None);
     snappy_Encode := fun data => data;
     snappy_Decode := fun _ data => (data, None) |}.

(** ** The header a buffer holds *)

(** The fields [ParseHeader] reads from the first sixteen bytes. *)
Definition header_at (data : list Z) : Header :=
  {| Version := at0 data 0;
     VersionLZ := at0 data 1;
     Flags := at0 data 2;
     TypeSize := at0 data 3;
     NBytesOrig := le32 (at0 data 4) (at0 data 5) (at0 data 6) (at0 data 7);
     BlockSize := le32 (at0 data 8) (at0 data 9) (at0 data 10) (at0 data 11);
     NBytesComp := le32 (at0 data 12) (at0 data 13) (at0 data 14) (at0 data 15) |}.

(** The number whose little-endian bytes are [b0 b1 b2 b3]. *)
Definition le_value (b0 b1 b2 b3 : Z) : Z :=
  b0 + b1 * 2 ^ 8 + b2 * 2 ^ 16 + b3 * 2 ^ 24.

(** ** Proof automation *)

(** Replace each [a <? b] by the truth value [lia] finds for it. *)
Ltac decide_ltb :=
  repeat match goal with
         | |- context [?a <? ?b] =>
           first [ rewrite (proj2 (Z.ltb_lt a b)) by lia
                 | rewrite (proj2 (Z.ltb_ge a b)) by lia ]
         end.

(** Bring the length facts of the hypotheses and the goal to [nat]/[Z]
    arithmetic. *)
Ltac len_lia := unfold len in *; lia.

(** * Properties *)

(** ** The model on the package's documented and tested inputs *)

Example shuffleBytes_doc :
  shuffleBytes [10; 11; 12; 13; 20; 21; 22; 23; 30; 31; 32; 33; 99] 4
  = Some [10; 20; 30; 11; 21; 31; 12; 22; 32; 13; 23; 33; 99].
Proof. vm_compute. reflexivity. Qed.

Example unshuffleBytes_doc :
  unshuffleBytes [10; 20; 30; 11; 21; 31; 12; 22; 32; 13; 23; 33; 99] 4
  = Some [10; 11; 12; 13; 20; 21; 22; 23; 30; 31; 32; 33; 99].
Proof. vm_compute. reflexivity. Qed.

(** One whole group of two-byte elements, one more element and one
    remainder byte. *)
Example bitShuffle_one_group :
  bitShuffle [128; 0; 0; 0; 0; 0; 0; 0; 0; 0; 0; 0; 0; 0; 1; 255; 7; 7; 9] 2
  = Some [128; 0; 0; 0; 0; 0; 0; 1; 1; 1; 1; 1; 1; 1; 1; 1; 7; 7; 9].
Proof. vm_compute. reflexivity. Qed.

(** 28 bytes at type size 4: seven elements, no whole group. *)
Example bitShuffle_28_bytes : bitShuffle (seqZ 0 28) 4 = Some (seqZ 0 28).
Proof. vm_compute. reflexivity. Qed.

Example bit_roundtrip_40_bytes :
  bitShuffle (seqZ 200 40) 4 ≫= (fun s => bitUnshuffle s 4) = Some (seqZ 200 40).
Proof. vm_compute. reflexivity. Qed.

Example decompress_four_bytes (W : IntWidth) :
  Decompress W ∅ [1; 2; 3; 4] = Err ErrInvalidHeader.
Proof. reflexivity. Qed.

Example decompress_version_99 (W : IntWidth) :
  Decompress W ∅ (99 :: replicate 15 0) = Err ErrInvalidVersion.
Proof. reflexivity. Qed.

Example decompress_unknown_codec (W : IntWidth) :
  Decompress W identity_registry
    ([2; 99; 0; 4; 100; 0; 0; 0; 100; 0; 0; 0; 66; 0; 0; 0] ++ replicate 50 0)
  = Err ErrInvalidCodec.
Proof. destruct W; vm_compute; reflexivity. Qed.

Example compress_then_decompress (W : IntWidth) :
  rbind (Compress identity_registry [5; 6; 7; 8; 9] LZ4 5 NoShuffle 1)
        (Decompress W identity_registry)
  = Ok [5; 6; 7; 8; 9].
Proof. destruct W; vm_compute; reflexivity. Qed.

(** ** The conversion to [int] *)

Lemma int_bits_cases (W : IntWidth) : int_bits W = 32 \/ int_bits W = 64.
Proof. destruct W; [by left|by right]. Qed.

(** A value that fits [int] is kept. *)
Lemma to_int_fits (W : IntWidth) (x : Z) :
  0 <= x < 2 ^ (int_bits W - 1) -> to_int W x = x.
Proof.
  intros Hx. unfold to_int. destruct W; cbn [int_bits] in *.
  - change (2 ^ (32 - 1)) with (2 ^ 31) in *.
    rewrite Z.mod_small by lia. by rewrite bool_decide_eq_true_2 by lia.
  - change (2 ^ (64 - 1)) with (2 ^ 63) in *.
    rewrite Z.mod_small by lia. by rewrite bool_decide_eq_true_2 by lia.
Qed.

(** A [uint32] is kept by a 64-bit [int]; a 32-bit [int] keeps it below
    [2^31] and takes [2^32] off from there on. *)
Lemma to_int_u32 (W : IntWidth) (x : Z) :
  0 <= x < 2 ^ 32 ->
  to_int W x
  = match W with
    | Int64 => x
    | Int32 => if bool_decide (x < 2 ^ 31) then x else x - 2 ^ 32
    end.
Proof.
  intros Hx. unfold to_int. destruct W; cbn [int_bits].
  - rewrite Z.mod_small by lia. reflexivity.
  - change (2 ^ (64 - 1)) with (2 ^ 63).
    rewrite Z.mod_small by lia. by rewrite bool_decide_eq_true_2 by lia.
Qed.

Lemma to_int_le (W : IntWidth) (x : Z) : 0 <= x -> to_int W x <= x.
Proof.
  intros Hx. unfold to_int.
  assert (0 < 2 ^ int_bits W) as Hp by (destruct W; cbn; lia).
  pose proof (Z.mod_le x (2 ^ int_bits W) Hx Hp).
  case_bool_decide; lia.
Qed.

Lemma lor_lt_pow2 (a b n : Z) :
  0 < n -> 0 <= a < 2 ^ n -> 0 <= b < 2 ^ n -> 0 <= Z.lor a b < 2 ^ n.
Proof.
  intros Hn Ha Hb.
  assert (0 <= Z.lor a b) as Hl by (apply Z.lor_nonneg; lia).
  split; [done|].
  assert (forall c, 0 <= c < 2 ^ n -> Z.log2 c < n) as Hlog.
  { intros c Hc. destruct (decide (c = 0)) as [->|Hc0].
    - rewrite Z.log2_nonpos; lia.
    - apply Z.log2_lt_pow2; lia. }
  destruct (decide (Z.lor a b = 0)) as [->|Hnz]; [lia|].
  apply Z.log2_lt_pow2; [lia|].
  rewrite Z.log2_lor by lia.
  pose proof (Hlog a Ha). pose proof (Hlog b Hb). lia.
Qed.

(** ** Slices *)

Lemma len_nonneg (s : list Z) : 0 <= len s.
Proof. unfold len. lia. Qed.

Lemma index_Some (s : list Z) (i : Z) :
  0 <= i < len s -> exists v, index s i = Some v /\ s !! Z.to_nat i = Some v.
Proof.
  intros Hi. unfold index, len in *.
  rewrite bool_decide_eq_true_2 by lia.
  destruct (lookup_lt_is_Some_2 s (Z.to_nat i)) as [v Hv]; [lia|].
  exists v. by rewrite Hv.
Qed.

Lemma index_lookup (s : list Z) (i : Z) :
  0 <= i -> index s i = s !! Z.to_nat i.
Proof. intros Hi. unfold index. by rewrite bool_decide_eq_true_2. Qed.

Lemma store_Some (s : list Z) (i v : Z) :
  0 <= i < len s -> store s i v = Some (<[Z.to_nat i := v]> s).
Proof. intros Hi. unfold store. by rewrite bool_decide_eq_true_2. Qed.

Lemma slice_Some (s : list Z) (lo hi : Z) :
  0 <= lo <= hi -> hi <= len s ->
  slice s lo hi = Some (take (Z.to_nat (hi - lo)) (drop (Z.to_nat lo) s)).
Proof. intros H1 H2. unfold slice. by rewrite bool_decide_eq_true_2. Qed.

Lemma length_slice (s w : list Z) (lo hi : Z) :
  slice s lo hi = Some w -> len w = hi - lo.
Proof.
  unfold slice, len. case_bool_decide as H; [|done].
  intros [= <-]. rewrite length_take, length_drop. lia.
Qed.

Lemma copy_exact (d from : list Z) :
  length from = length d -> copy d from = from.
Proof.
  intros H. unfold copy. rewrite H, Nat.min_id.
  rewrite <- H at 1. rewrite firstn_all.
  rewrite drop_all. apply app_nil_r.
Qed.

Lemma copy_at_exact (dst from : list Z) (lo hi : Z) :
  0 <= lo <= hi -> hi <= len dst -> len from = hi - lo ->
  copy_at dst lo hi from
  = Some (take (Z.to_nat lo) dst ++ from ++ drop (Z.to_nat hi) dst).
Proof.
  intros H1 H2 H3. unfold copy_at. rewrite slice_Some by done. simpl.
  rewrite copy_exact; [done|].
  unfold len in *. rewrite length_take, length_drop. lia.
Qed.

Lemma length_make (n : Z) : length (make n) = Z.to_nat n.
Proof. unfold make. apply length_replicate. Qed.

(** ** Loops that fill an array *)

Lemma fills_for_loop (tgt : list Z) (F : Z -> nat -> Prop)
    (body : Z -> list Z -> option (list Z)) (cnt : nat) :
  forall lo,
    (forall i, lo <= i < lo + Z.of_nat cnt -> fills tgt (F i) (body i)) ->
    fills tgt (fun k => exists i, lo <= i < lo + Z.of_nat cnt /\ F i k)
      (for_loop cnt lo body).
Proof.
  induction cnt as [|cnt IH]; intros lo Hbody s Hs.
  - exists s. simpl. split_and!; auto.
    intros k (i & Hi & _). lia.
  - destruct (Hbody lo ltac:(lia) s Hs) as (s1 & E1 & L1 & W1 & U1).
    destruct (IH (lo + 1)
                ltac:(intros i Hi; apply Hbody; lia) s1 L1)
      as (s2 & E2 & L2 & W2 & U2).
    exists s2. simpl. rewrite E1. simpl. split_and!; auto.
    + intros k (i & Hi & Fi).
      destruct (decide (i = lo)) as [->|Hne].
      * destruct (U2 k) as [->| ->]; auto.
      * apply W2. exists i. split; [lia|done].
    + intros k. destruct (U2 k) as [->| ->]; auto.
Qed.

Lemma fills_for_range (tgt : list Z) (F : Z -> nat -> Prop)
    (body : Z -> list Z -> option (list Z)) (lo hi : Z) :
  (forall i, lo <= i < hi -> fills tgt (F i) (body i)) ->
  fills tgt (fun k => exists i, lo <= i < hi /\ F i k) (for_range lo hi body).
Proof.
  intros Hbody s Hs. unfold for_range.
  destruct (fills_for_loop tgt F body (Z.to_nat (hi - lo)) lo
              ltac:(intros i Hi; apply Hbody; lia) s Hs)
    as (s' & E & L & W & U).
  exists s'. split_and!; auto.
  intros k (i & Hi & Fi). apply W. exists i. split; [lia|done].
Qed.

Lemma fills_store_value (tgt : list Z) (c : option Z) (p v : Z) :
  c = Some v ->
  0 <= p < len tgt ->
  tgt !! Z.to_nat p = Some v ->
  fills tgt (fun k => k = Z.to_nat p) (fun dst => v ← c; store dst p v).
Proof.
  intros Ha Hp Ht s Hs. rewrite Ha. simpl.
  rewrite store_Some by (unfold len in *; lia).
  eexists. split_and!; [done|by rewrite length_insert|..].
  - intros k ->. rewrite list_lookup_insert_eq by (unfold len in *; lia). done.
  - intros k. destruct (decide (k = Z.to_nat p)) as [->|Hne].
    + left. rewrite list_lookup_insert_eq by (unfold len in *; lia). done.
    + right. by rewrite list_lookup_insert_ne.
Qed.

Lemma fills_all (tgt s : list Z) :
  length s = length tgt ->
  (forall k, (k < length tgt)%nat -> s !! k = tgt !! k) ->
  s = tgt.
Proof.
  intros HL H. apply list_eq. intros k.
  destruct (decide (k < length tgt)%nat) as [Hk|Hk]; [by apply H|].
  rewrite !lookup_ge_None_2; [done|lia|lia].
Qed.

Lemma length_tabulate n f : length (tabulate n f) = n.
Proof. unfold tabulate. by rewrite length_fmap, length_seq. Qed.

Lemma lookup_tabulate n f (k : nat) :
  (k < n)%nat -> tabulate n f !! k = Some (f (Z.of_nat k)).
Proof.
  intros Hk. unfold tabulate. rewrite list_lookup_fmap, lookup_seq_lt by done.
  done.
Qed.

Lemma index_at0 (s : list Z) (i : Z) :
  0 <= i < len s -> index s i = Some (at0 s i).
Proof.
  intros Hi. destruct (index_Some s i Hi) as (v & E & L).
  unfold at0. by rewrite E, L.
Qed.

Lemma lookup_at0 (s : list Z) (k : nat) :
  (k < length s)%nat -> s !! k = Some (at0 s (Z.of_nat k)).
Proof.
  intros Hk. unfold at0. rewrite Nat2Z.id.
  destruct (lookup_lt_is_Some_2 s k Hk) as [v ->]. done.
Qed.

Lemma fills_weaken (tgt : list Z) (F F' : nat -> Prop) f :
  (forall k, F' k -> F k) -> fills tgt F f -> fills tgt F' f.
Proof.
  intros HF H s Hs. destruct (H s Hs) as (s' & E & L & W & U).
  exists s'. split_and!; auto.
Qed.

(** ** Index arithmetic *)

Lemma div_mod_pair (E i j : Z) :
  0 <= i < E -> (j * E + i) / E = j /\ (j * E + i) mod E = i.
Proof.
  intros Hi. split.
  - rewrite Z.div_add_l by lia. rewrite Z.div_small by lia. lia.
  - rewrite Z.add_comm, Z.mod_add by lia. apply Z.mod_small. lia.
Qed.

Lemma elements_bounds (n T : Z) :
  1 < T -> T <= n -> 1 <= n / T /\ n / T * T <= n /\ n < n / T * T + T.
Proof.
  intros HT Hn.
  pose proof (Z.div_mod n T ltac:(lia)).
  pose proof (Z.mod_pos_bound n T ltac:(lia)).
  assert (1 <= n / T) by (apply Z.div_le_lower_bound; lia).
  lia.
Qed.

Lemma cell_bound (E T i j : Z) :
  0 <= i < E -> 0 <= j < T -> 0 <= j * E + i < E * T.
Proof. intros. nia. Qed.

(** ** Byte shuffle: closed form *)

Lemma try_simd4_shuffle dst src T n :
  try_simd4 shuffleBytesAVX2 shuffleBytesNEON dst src T n = (dst, false, 0).
Proof. reflexivity. Qed.

Lemma try_simd4_unshuffle dst src T n :
  try_simd4 unshuffleBytesAVX2 unshuffleBytesNEON dst src T n = (dst, false, 0).
Proof. reflexivity. Qed.

Lemma shuffle_loop_fills (src : list Z) (T : Z) :
  1 < T -> T <= len src ->
  fills (shuffle_tgt src T) (fun k => Z.of_nat k < len src / T * T)
    (shuffle_loop src T (len src / T) 0).
Proof.
  intros HT Hn. set (E := len src / T).
  destruct (elements_bounds (len src) T HT Hn) as (HE1 & HE2 & HE3). fold E in HE1, HE2, HE3.
  eapply fills_weaken; [|apply fills_for_range with
    (F := fun i k => exists j, 0 <= j < T /\ k = Z.to_nat (j * E + i))].
  - intros k Hk. exists (Z.of_nat k mod E). split; [apply Z.mod_pos_bound; lia|].
    exists (Z.of_nat k / E). split.
    + split; [apply Z.div_pos; lia|]. apply Z.div_lt_upper_bound; lia.
    + pose proof (Z.div_mod (Z.of_nat k) E ltac:(lia)). lia.
  - intros i Hi. apply fills_for_range. intros j Hj.
    pose proof (cell_bound E T i j Hi Hj) as Hc.
    apply fills_store_value with (v := at0 src (i * T + j)).
    + apply index_at0. nia.
    + unfold shuffle_tgt, len. rewrite length_tabulate. unfold len in *. lia.
    + unfold shuffle_tgt. fold E. rewrite lookup_tabulate by (unfold len in *; lia).
      rewrite Z2Nat.id by lia. rewrite bool_decide_eq_true_2 by lia.
      destruct (div_mod_pair E i j ltac:(lia)) as [-> ->]. done.
Qed.

Lemma unshuffle_loop_fills (src : list Z) (T : Z) :
  1 < T -> T <= len src ->
  fills (unshuffle_tgt src T) (fun k => Z.of_nat k < len src / T * T)
    (unshuffle_loop src T (len src / T) 0).
Proof.
  intros HT Hn. set (E := len src / T).
  destruct (elements_bounds (len src) T HT Hn) as (HE1 & HE2 & HE3). fold E in HE1, HE2, HE3.
  eapply fills_weaken; [|apply fills_for_range with
    (F := fun i k => exists j, 0 <= j < T /\ k = Z.to_nat (i * T + j))].
  - intros k Hk. exists (Z.of_nat k / T). split.
    + split; [apply Z.div_pos; lia|]. apply Z.div_lt_upper_bound; lia.
    + exists (Z.of_nat k mod T). split; [apply Z.mod_pos_bound; lia|].
      pose proof (Z.div_mod (Z.of_nat k) T ltac:(lia)). lia.
  - intros i Hi. apply fills_for_range. intros j Hj.
    pose proof (cell_bound E T i j Hi Hj) as Hc.
    assert (0 <= i * T + j < E * T) as Hc' by nia.
    apply fills_store_value with (v := at0 src (j * E + i)).
    + apply index_at0. nia.
    + unfold unshuffle_tgt, len. rewrite length_tabulate. unfold len in *. lia.
    + unfold unshuffle_tgt. fold E. rewrite lookup_tabulate by (unfold len in *; lia).
      rewrite Z2Nat.id by lia. rewrite bool_decide_eq_true_2 by lia.
      destruct (div_mod_pair T j i ltac:(lia)) as [-> ->]. done.
Qed.

(** The tail copy, on a buffer as long as the input. *)
Lemma copy_remainder_eq (src dst : list Z) (T : Z) :
  1 < T -> T <= len src -> length dst = length src ->
  copy_remainder src T (len src / T) dst
  = Some (take (Z.to_nat (len src / T * T)) dst
          ++ drop (Z.to_nat (len src / T * T)) src).
Proof.
  intros HT Hn HL. set (E := len src / T).
  destruct (elements_bounds (len src) T HT Hn) as (HE1 & HE2 & HE3). fold E in HE1, HE2, HE3.
  unfold copy_remainder.
  rewrite Z.rem_mod_nonneg by (pose proof (len_nonneg src); lia).
  assert (len dst = len src) as HL' by (unfold len; lia).
  case_bool_decide as Hr.
  - unfold slice_from. rewrite slice_Some by lia. simpl.
    rewrite copy_at_exact.
    + rewrite HL'. rewrite (drop_ge dst) by (unfold len in *; lia).
      rewrite app_nil_r. f_equal. f_equal.
      apply take_ge. rewrite length_drop. unfold len in *. lia.
    + lia.
    + lia.
    + unfold len. rewrite length_take, length_drop. unfold len in *. lia.
  - assert (E * T = len src) as HET.
    { pose proof (Z.div_mod (len src) T ltac:(lia)).
      pose proof (Z.mod_pos_bound (len src) T ltac:(lia)). fold E in H. lia. }
    rewrite HET. rewrite take_ge by (unfold len in *; lia).
    rewrite drop_ge by (unfold len in *; lia). by rewrite app_nil_r.
Qed.

Lemma shuffleBytes_eq (src : list Z) (T : Z) :
  1 < T -> T <= len src -> shuffleBytes src T = Some (shuffle_tgt src T).
Proof.
  intros HT Hn. unfold shuffleBytes.
  rewrite !bool_decide_eq_false_2 by lia. simpl.
  rewrite try_simd4_shuffle.
  replace (if bool_decide (T = 4) then (make (len src), false, 0)
           else (make (len src), false, 0)) with (make (len src), false, 0)
    by (by case_bool_decide).
  rewrite Z.quot_div_nonneg by lia.
  destruct (shuffle_loop_fills src T HT Hn (make (len src)))
    as (s' & E1 & L1 & W1 & _).
  { rewrite length_make. unfold shuffle_tgt. rewrite length_tabulate.
    unfold len. lia. }
  rewrite E1. simpl.
  assert (length s' = length src) as L1'.
  { rewrite L1. unfold shuffle_tgt. by rewrite length_tabulate. }
  rewrite copy_remainder_eq by done. f_equal.
  destruct (elements_bounds (len src) T HT Hn) as (HE1 & HE2 & HE3).
  apply fills_all.
  - rewrite length_app, length_take, length_drop. unfold len in *. lia.
  - intros k Hk. unfold shuffle_tgt in Hk. rewrite length_tabulate in Hk.
    destruct (decide (Z.of_nat k < len src / T * T)) as [Hlt|Hge].
    + rewrite lookup_app_l by (rewrite length_take; unfold len in *; lia).
      rewrite lookup_take_lt by lia. by apply W1.
    + rewrite lookup_app_r by (rewrite length_take; unfold len in *; lia).
      rewrite lookup_drop, length_take.
      unfold shuffle_tgt. rewrite lookup_tabulate by done.
      rewrite bool_decide_eq_false_2 by lia.
      rewrite <- lookup_at0 by done. f_equal. unfold len in *. lia.
Qed.

Lemma unshuffleBytes_eq (src : list Z) (T : Z) :
  1 < T -> T <= len src -> unshuffleBytes src T = Some (unshuffle_tgt src T).
Proof.
  intros HT Hn. unfold unshuffleBytes.
  rewrite !bool_decide_eq_false_2 by lia. simpl.
  rewrite try_simd4_unshuffle.
  replace (if bool_decide (T = 4) then (make (len src), false, 0)
           else (make (len src), false, 0)) with (make (len src), false, 0)
    by (by case_bool_decide).
  rewrite Z.quot_div_nonneg by lia.
  destruct (unshuffle_loop_fills src T HT Hn (make (len src)))
    as (s' & E1 & L1 & W1 & _).
  { rewrite length_make. unfold unshuffle_tgt. rewrite length_tabulate.
    unfold len. lia. }
  rewrite E1. simpl.
  assert (length s' = length src) as L1'.
  { rewrite L1. unfold unshuffle_tgt. by rewrite length_tabulate. }
  rewrite copy_remainder_eq by done. f_equal.
  destruct (elements_bounds (len src) T HT Hn) as (HE1 & HE2 & HE3).
  apply fills_all.
  - rewrite length_app, length_take, length_drop. unfold len in *. lia.
  - intros k Hk. unfold unshuffle_tgt in Hk. rewrite length_tabulate in Hk.
    destruct (decide (Z.of_nat k < len src / T * T)) as [Hlt|Hge].
    + rewrite lookup_app_l by (rewrite length_take; unfold len in *; lia).
      rewrite lookup_take_lt by lia. by apply W1.
    + rewrite lookup_app_r by (rewrite length_take; unfold len in *; lia).
      rewrite lookup_drop, length_take.
      unfold unshuffle_tgt. rewrite lookup_tabulate by done.
      rewrite bool_decide_eq_false_2 by lia.
      rewrite <- lookup_at0 by done. f_equal. unfold len in *. lia.
Qed.

(** Degenerate shapes: every transform hands its input back. *)
Lemma shuffleBytes_degenerate (src : list Z) (T : Z) :
  T <= 1 \/ len src < T -> shuffleBytes src T = Some src.
Proof.
  intros H. unfold shuffleBytes.
  destruct (bool_decide_reflect (T <= 1)), (bool_decide_reflect (len src < T));
    simpl; try done; lia.
Qed.

Lemma unshuffleBytes_degenerate (src : list Z) (T : Z) :
  T <= 1 \/ len src < T -> unshuffleBytes src T = Some src.
Proof.
  intros H. unfold unshuffleBytes.
  destruct (bool_decide_reflect (T <= 1)), (bool_decide_reflect (len src < T));
    simpl; try done; lia.
Qed.

Lemma at0_tabulate n f (k : Z) :
  0 <= k < Z.of_nat n -> at0 (tabulate n f) k = f k.
Proof.
  intros Hk. unfold at0. rewrite lookup_tabulate by lia. simpl.
  f_equal. lia.
Qed.

Lemma len_shuffle_tgt src T : len (shuffle_tgt src T) = len src.
Proof. unfold len, shuffle_tgt. by rewrite length_tabulate. Qed.

Lemma len_unshuffle_tgt src T : len (unshuffle_tgt src T) = len src.
Proof. unfold len, unshuffle_tgt. by rewrite length_tabulate. Qed.

Lemma unshuffle_shuffle_tgt (src : list Z) (T : Z) :
  1 < T -> T <= len src -> unshuffle_tgt (shuffle_tgt src T) T = src.
Proof.
  intros HT Hn.
  destruct (elements_bounds (len src) T HT Hn) as (HE1 & HE2 & HE3).
  apply fills_all.
  - unfold unshuffle_tgt, shuffle_tgt. by rewrite !length_tabulate.
  - intros k Hk. rewrite (lookup_at0 src k Hk).
    unfold unshuffle_tgt. rewrite len_shuffle_tgt.
    assert (length (shuffle_tgt src T) = length src) as HL
      by (unfold shuffle_tgt; by rewrite length_tabulate).
    rewrite HL. rewrite lookup_tabulate by done. f_equal.
    set (E := len src / T) in *.
    unfold shuffle_tgt. fold E.
    case_bool_decide as Hlt.
    + assert (0 <= Z.of_nat k / T < E) as Hq.
      { split; [apply Z.div_pos; lia|]. apply Z.div_lt_upper_bound; lia. }
      pose proof (Z.mod_pos_bound (Z.of_nat k) T ltac:(lia)) as Hr.
      pose proof (cell_bound E T _ _ Hq Hr) as Hc.
      rewrite at0_tabulate by (unfold len in *; lia).
      rewrite bool_decide_eq_true_2 by lia.
      destruct (div_mod_pair E (Z.of_nat k / T) (Z.of_nat k mod T) Hq) as [-> ->].
      f_equal. pose proof (Z.div_mod (Z.of_nat k) T ltac:(lia)). lia.
    + rewrite at0_tabulate by (unfold len in *; lia).
      by rewrite bool_decide_eq_false_2 by lia.
Qed.

(** ** The 8x8 bit transpose *)

Lemma for_loop_index_foldl (bytes : list Z) (g : Z -> Z -> Z -> Z) (cnt : nat) :
  forall lo acc, 0 <= lo -> lo + Z.of_nat cnt <= len bytes ->
    for_loop cnt lo (fun i acc => b ← index bytes i; Some (g i b acc)) acc
    = Some (foldl (fun acc i => g i (at0 bytes i) acc) acc
              (seqZ lo (Z.of_nat cnt))).
Proof.
  induction cnt as [|cnt IH]; intros lo acc Hlo Hhi; [done|].
  rewrite seqZ_cons by lia. simpl for_loop.
  rewrite index_at0 by lia. simpl.
  rewrite IH by lia. do 3 f_equal; lia.
Qed.

Lemma transpose_bit_eq (bytes : list Z) (m : Z) :
  length bytes = 8%nat -> transpose_bit bytes m = Some (tbit bytes m).
Proof.
  intros HL. unfold transpose_bit, for_range, tbit.
  change (Z.to_nat (8 - 0)) with 8%nat.
  rewrite (for_loop_index_foldl bytes
    (fun inByte b outByte =>
       if bool_decide (Z.land b (u8 (Z.shiftl 1 (7 - m))) ≠ 0)
       then Z.lor outByte (u8 (Z.shiftl 1 (7 - inByte))) else outByte));
    [done|lia|unfold len; lia].
Qed.

Lemma u8_bit (k : Z) : 0 <= k < 8 -> u8 (Z.shiftl 1 (7 - k)) = 2 ^ (7 - k).
Proof.
  intros Hk. unfold u8. rewrite Z.shiftl_1_l.
  apply Z.mod_small. split; [apply Z.pow_nonneg; lia|].
  apply Z.pow_lt_mono_r; lia.
Qed.

Lemma land_pow2 (b c : Z) :
  0 <= c -> Z.land b (2 ^ c) = if Z.testbit b c then 2 ^ c else 0.
Proof.
  intros Hc. apply Z.bits_inj'. intros n Hn.
  rewrite Z.land_spec, Z.pow2_bits_eqb by done.
  destruct (Z.eqb_spec c n) as [->|Hne].
  - destruct (Z.testbit b n) eqn:E; simpl.
    + by rewrite Z.pow2_bits_true.
    + by rewrite Z.bits_0.
  - rewrite andb_false_r. destruct (Z.testbit b c).
    + rewrite Z.pow2_bits_false; [done|lia].
    + by rewrite Z.bits_0.
Qed.

Lemma land_bit_test (b m : Z) :
  0 <= m < 8 ->
  bool_decide (Z.land b (u8 (Z.shiftl 1 (7 - m))) ≠ 0) = Z.testbit b (7 - m).
Proof.
  intros Hm. rewrite u8_bit, land_pow2 by lia.
  assert (0 < 2 ^ (7 - m)) by (apply Z.pow_pos_nonneg; lia).
  destruct (Z.testbit b (7 - m)).
  - apply bool_decide_eq_true_2. lia.
  - apply bool_decide_eq_false_2. intros Hne. by apply Hne.
Qed.

Lemma testbit_foldl_bits (c : Z -> bool) (l : list Z) :
  Forall (fun k => 0 <= k < 8) l ->
  forall acc n, 0 <= n ->
    Z.testbit
      (foldl (fun outByte inByte =>
                if c inByte then Z.lor outByte (u8 (Z.shiftl 1 (7 - inByte)))
                else outByte) acc l) n
    = Z.testbit acc n || existsb (fun k => c k && (n =? 7 - k)) l.
Proof.
  induction 1 as [|k l Hk Hl IH]; intros acc n Hn; simpl.
  - by rewrite orb_false_r.
  - rewrite IH by done. destruct (c k); simpl.
    + rewrite Z.lor_spec, u8_bit, Z.pow2_bits_eqb by lia.
      rewrite (Z.eqb_sym (7 - k) n). by rewrite orb_assoc.
    + done.
Qed.

Lemma seqZ_0_8 : seqZ 0 8 = [0; 1; 2; 3; 4; 5; 6; 7].
Proof. reflexivity. Qed.

Lemma testbit_tbit (bytes : list Z) (m n : Z) :
  0 <= m < 8 -> 0 <= n ->
  Z.testbit (tbit bytes m) n
  = (n <? 8) && Z.testbit (at0 bytes (7 - n)) (7 - m).
Proof.
  intros Hm Hn. unfold tbit.
  rewrite (testbit_foldl_bits
    (fun k => bool_decide (Z.land (at0 bytes k) (u8 (Z.shiftl 1 (7 - m))) ≠ 0)));
    [|rewrite seqZ_0_8; repeat constructor; lia|done].
  rewrite Z.bits_0, orb_false_l, seqZ_0_8. cbn [existsb].
  destruct (Z.ltb_spec n 8) as [Hlt|Hge].
  - assert (n = 0 \/ n = 1 \/ n = 2 \/ n = 3 \/ n = 4 \/ n = 5 \/ n = 6 \/ n = 7)
      as Hcases by lia.
    destruct Hcases as [->|[->|[->|[->|[->|[->|[->| ->]]]]]]]; cbn [Z.eqb Z.sub Z.add Z.opp Z.pos_sub Pos.eqb Pos.pred_double];
      rewrite ?andb_false_r, ?andb_true_r, ?orb_false_r, ?orb_false_l;
      apply land_bit_test; lia.
  - repeat match goal with
           | |- context [n =? ?c] => rewrite (proj2 (Z.eqb_neq n c)) by lia
           end.
    by rewrite ?andb_false_r.
Qed.

Lemma tbit_range (bytes : list Z) (m : Z) :
  0 <= m < 8 -> 0 <= tbit bytes m < 256.
Proof.
  intros Hm.
  assert (forall n, 8 <= n -> Z.testbit (tbit bytes m) n = false) as Hhigh.
  { intros n Hn. rewrite testbit_tbit by lia.
    by rewrite (proj2 (Z.ltb_ge n 8)). }
  assert (0 <= tbit bytes m) as Hnn.
  { apply Z.bits_iff_nonneg_ex. exists 8. intros n Hn. apply Hhigh. lia. }
  split; [done|].
  destruct (decide (tbit bytes m < 256)) as [|Hge]; [done|exfalso].
  assert (0 < tbit bytes m) as Hpos by lia.
  pose proof (Z.bit_log2 _ Hpos) as Hbit.
  assert (8 <= Z.log2 (tbit bytes m)).
  { apply Z.log2_le_pow2; [lia|]. change (2 ^ 8) with 256. lia. }
  rewrite Hhigh in Hbit by done. done.
Qed.

Lemma length_group_bytes src at_ : length (group_bytes src at_) = 8%nat.
Proof. reflexivity. Qed.

Lemma lookup_fmap_seqZ_8 (f : Z -> Z) (k : Z) :
  0 <= k < 8 -> (f <$> seqZ 0 8) !! Z.to_nat k = Some (f k).
Proof.
  intros Hk. rewrite list_lookup_fmap, lookup_seqZ_lt by lia.
  simpl. do 2 f_equal. lia.
Qed.

Lemma at0_fmap_seqZ_8 (f : Z -> Z) (k : Z) :
  0 <= k < 8 -> at0 (f <$> seqZ 0 8) k = f k.
Proof. intros Hk. unfold at0. by rewrite lookup_fmap_seqZ_8. Qed.

Lemma gather8_eq (src : list Z) (at_ : Z -> Z) :
  (forall k, 0 <= k < 8 -> 0 <= at_ k < len src) ->
  gather8 src at_ = Some (group_bytes src at_).
Proof.
  intros Hat. unfold gather8.
  destruct (fills_for_range (group_bytes src at_)
              (fun i k => k = Z.to_nat i)
              (fun k bytes => v ← index src (at_ k); store bytes k v) 0 8)
    with (s := make 8) as (s' & E & L & W & _).
  - intros i Hi. apply fills_store_value with (v := at0 src (at_ i)).
    + apply index_at0. by apply Hat.
    + unfold len. rewrite length_group_bytes. lia.
    + unfold group_bytes.
      by apply (lookup_fmap_seqZ_8 (fun k => at0 src (at_ k))).
  - done.
  - rewrite E. f_equal. apply fills_all; [done|].
    intros k Hk. apply W. exists (Z.of_nat k).
    rewrite length_group_bytes in Hk. split; lia.
Qed.

(** Transposing twice gives the byte back. *)
Lemma tbit_involutive (bs : list Z) (e : Z) :
  0 <= e < 8 -> 0 <= at0 bs e < 256 ->
  tbit ((fun m => tbit bs m) <$> seqZ 0 8) e = at0 bs e.
Proof.
  intros He Hb. apply Z.bits_inj'. intros n Hn.
  rewrite testbit_tbit by lia.
  destruct (Z.ltb_spec n 8) as [Hlt|Hge]; cbn [andb].
  - rewrite at0_fmap_seqZ_8 by lia. rewrite testbit_tbit by lia.
    rewrite (proj2 (Z.ltb_lt (7 - e) 8)) by lia. cbn [andb].
    f_equal; [f_equal|]; lia.
  - symmetry. destruct (decide (at0 bs e = 0)) as [->|Hnz]; [apply Z.bits_0|].
    apply Z.bits_above_log2; [lia|].
    assert (Z.log2 (at0 bs e) < 8); [|lia].
    apply Z.log2_lt_pow2; [lia|]. change (2 ^ 8) with 256. lia.
Qed.

(** ** Bit shuffle: closed form *)

Lemma group_cell (T g a : Z) :
  0 <= a < 8 * T ->
  (g * 8 * T + a) / (8 * T) = g /\ (g * 8 * T + a) mod (8 * T) = a.
Proof.
  intros Ha. replace (g * 8 * T + a) with (g * (8 * T) + a) by lia.
  by apply div_mod_pair.
Qed.

Lemma groups_bounds (n T : Z) :
  1 < T -> T <= n ->
  0 <= n / T / 8 /\ n / T / 8 * 8 <= n / T /\ n / T / 8 * 8 * T <= n / T * T.
Proof.
  intros HT Hn. destruct (elements_bounds n T HT Hn) as (HE1 & HE2 & HE3).
  pose proof (Z.div_mod (n / T) 8 ltac:(lia)).
  pose proof (Z.mod_pos_bound (n / T) 8 ltac:(lia)).
  assert (0 <= n / T / 8) by (apply Z.div_pos; lia).
  nia.
Qed.

Lemma fills_bind (tgt : list Z) (F : nat -> Prop) (c : option (list Z))
    (b : list Z) (f : list Z -> list Z -> option (list Z)) :
  c = Some b -> fills tgt F (f b) -> fills tgt F (fun dst => x ← c; f x dst).
Proof. intros -> H s Hs. simpl. by apply H. Qed.

Lemma bitShuffle_groups_fills (src : list Z) (T : Z) :
  1 < T -> T <= len src ->
  fills (bitShuffle_tgt src T)
    (fun k => Z.of_nat k < len src / T / 8 * 8 * T)
    (bitShuffle_groups src T (len src / T / 8)).
Proof.
  intros HT Hn. set (G := len src / T / 8).
  destruct (elements_bounds (len src) T HT Hn) as (HE1 & HE2 & HE3).
  destruct (groups_bounds (len src) T HT Hn) as (HG1 & HG2 & HG3). fold G in HG1, HG2, HG3.
  unfold bitShuffle_groups.
  eapply fills_weaken; [|apply fills_for_range with
    (F := fun g k => exists j, 0 <= j < T /\
            exists m, 0 <= m < 8 /\ k = Z.to_nat (g * 8 * T + j * 8 + m))].
  - intros k Hk.
    pose proof (Z.div_mod (Z.of_nat k) (8 * T) ltac:(lia)) as Hdm.
    pose proof (Z.mod_pos_bound (Z.of_nat k) (8 * T) ltac:(lia)) as Hr.
    set (r := Z.of_nat k mod (8 * T)) in *.
    pose proof (Z.div_mod r 8 ltac:(lia)) as Hdm'.
    pose proof (Z.mod_pos_bound r 8 ltac:(lia)) as Hr'.
    exists (Z.of_nat k / (8 * T)). split.
    { split; [apply Z.div_pos; lia|]. apply Z.div_lt_upper_bound; lia. }
    exists (r / 8). split.
    { split; [apply Z.div_pos; lia|]. apply Z.div_lt_upper_bound; lia. }
    exists (r mod 8). split; [done|]. lia.
  - intros g Hg. apply fills_for_range. intros j Hj.
    eapply fills_bind.
    { apply gather8_eq. intros e He. cbv beta. nia. }
    apply fills_for_range. intros m Hm.
    assert (0 <= j * 8 + m < 8 * T) as Ha by lia.
    assert (0 <= g * 8 * T + j * 8 + m < G * 8 * T) as Hp by nia.
    apply fills_store_value with
      (v := tbit (group_bytes src (fun elem => g * 8 * T + elem * T + j)) m).
    + apply transpose_bit_eq, length_group_bytes.
    + unfold bitShuffle_tgt, len. rewrite length_tabulate. unfold len in *. lia.
    + unfold bitShuffle_tgt. fold G.
      rewrite lookup_tabulate by (unfold len in *; lia).
      rewrite Z2Nat.id by lia. rewrite bool_decide_eq_true_2 by lia.
      cbv zeta. replace (g * 8 * T + j * 8 + m) with (g * 8 * T + (j * 8 + m)) by lia.
      destruct (group_cell T g (j * 8 + m) Ha) as [-> ->].
      destruct (div_mod_pair 8 m j ltac:(lia)) as [-> ->]. done.
Qed.

Lemma bitUnshuffle_groups_fills (src : list Z) (T : Z) :
  1 < T -> T <= len src ->
  fills (bitUnshuffle_tgt src T)
    (fun k => Z.of_nat k < len src / T / 8 * 8 * T)
    (bitUnshuffle_groups src T (len src / T / 8)).
Proof.
  intros HT Hn. set (G := len src / T / 8).
  destruct (elements_bounds (len src) T HT Hn) as (HE1 & HE2 & HE3).
  destruct (groups_bounds (len src) T HT Hn) as (HG1 & HG2 & HG3). fold G in HG1, HG2, HG3.
  unfold bitUnshuffle_groups.
  eapply fills_weaken; [|apply fills_for_range with
    (F := fun g k => exists j, 0 <= j < T /\
            exists e, 0 <= e < 8 /\ k = Z.to_nat (g * 8 * T + e * T + j))].
  - intros k Hk.
    pose proof (Z.div_mod (Z.of_nat k) (8 * T) ltac:(lia)) as Hdm.
    pose proof (Z.mod_pos_bound (Z.of_nat k) (8 * T) ltac:(lia)) as Hr.
    set (r := Z.of_nat k mod (8 * T)) in *.
    pose proof (Z.div_mod r T ltac:(lia)) as Hdm'.
    pose proof (Z.mod_pos_bound r T ltac:(lia)) as Hr'.
    exists (Z.of_nat k / (8 * T)). split.
    { split; [apply Z.div_pos; lia|]. apply Z.div_lt_upper_bound; lia. }
    exists (r mod T). split; [done|].
    exists (r / T). split.
    { split; [apply Z.div_pos; lia|]. apply Z.div_lt_upper_bound; lia. }
    lia.
  - intros g Hg. apply fills_for_range. intros j Hj.
    eapply fills_bind.
    { apply gather8_eq. intros i Hi. cbv beta. nia. }
    apply fills_for_range. intros e He.
    assert (0 <= e * T + j < 8 * T) as Ha by nia.
    assert (0 <= g * 8 * T + e * T + j < G * 8 * T) as Hp by nia.
    apply fills_store_value with
      (v := tbit (group_bytes src (fun i => g * 8 * T + j * 8 + i)) e).
    + apply transpose_bit_eq, length_group_bytes.
    + unfold bitUnshuffle_tgt, len. rewrite length_tabulate. unfold len in *. lia.
    + unfold bitUnshuffle_tgt. fold G.
      rewrite lookup_tabulate by (unfold len in *; lia).
      rewrite Z2Nat.id by lia. rewrite bool_decide_eq_true_2 by lia.
      cbv zeta. replace (g * 8 * T + e * T + j) with (g * 8 * T + (e * T + j)) by lia.
      destruct (group_cell T g (e * T + j) Ha) as [-> ->].
      destruct (div_mod_pair T j e ltac:(lia)) as [-> ->]. done.
Qed.

Lemma try_simd_bits_shuffle dst src T n :
  try_simd_bits bitShuffleAVX2 bitShuffleNEON dst src T n = (dst, false).
Proof. reflexivity. Qed.

Lemma try_simd_bits_unshuffle dst src T n :
  try_simd_bits bitUnshuffleAVX2 bitUnshuffleNEON dst src T n = (dst, false).
Proof. reflexivity. Qed.

Lemma copy_elements_eq (src dst : list Z) (T E start : Z) :
  0 <= start <= E * T -> E * T <= len src -> length dst = length src ->
  copy_elements src T E start dst
  = Some (take (Z.to_nat start) dst
          ++ take (Z.to_nat (E * T - start)) (drop (Z.to_nat start) src)
          ++ drop (Z.to_nat (E * T)) dst).
Proof.
  intros H1 H2 HL. unfold copy_elements.
  rewrite slice_Some by lia. simpl.
  rewrite copy_at_exact; [done|lia|unfold len in *; lia|].
  unfold len in *. rewrite length_take, length_drop. lia.
Qed.

(** Both bit transforms: the group loop fills the whole groups, the two
    copies bring the rest of the input over. *)
Lemma bit_transform_eq avx2 neon groups (src tgt : list Z) (T : Z) :
  1 < T -> T <= len src ->
  (forall dst, try_simd_bits avx2 neon dst src T (len src) = (dst, false)) ->
  length tgt = length src ->
  fills tgt (fun k => Z.of_nat k < len src / T / 8 * 8 * T)
    (groups src T (len src / T / 8)) ->
  (forall k, len src / T / 8 * 8 * T <= Z.of_nat k < len src ->
             tgt !! k = src !! k) ->
  bit_transform avx2 neon groups src T = Some tgt.
Proof.
  intros HT Hn Hsimd HL Hfills Hrest. unfold bit_transform.
  rewrite !bool_decide_eq_false_2 by lia. cbn [orb]. cbv zeta.
  rewrite Hsimd.
  rewrite !Z.quot_div_nonneg by (try apply Z.div_pos; lia).
  rewrite Z.rem_mod_nonneg by (try apply Z.div_pos; lia).
  set (E := len src / T). set (G := E / 8).
  destruct (elements_bounds (len src) T HT Hn) as (HE1 & HE2 & HE3).
  destruct (groups_bounds (len src) T HT Hn) as (HG1 & HG2 & HG3).
  fold E in HE1, HE2, HE3, HG1, HG2, HG3. fold G in HG1, HG2, HG3.
  destruct (Hfills (make (len src))) as (s1 & E1 & L1 & W1 & _).
  { rewrite length_make, HL. unfold len. lia. }
  fold E in E1. fold G in E1. rewrite E1. simpl.
  assert (length s1 = length src) as L1' by congruence.
  assert (exists s2,
    (if bool_decide (E mod 8 > 0)
     then copy_elements src T E (G * 8 * T) s1 else Some s1) = Some s2 /\
    length s2 = length src /\
    forall k, Z.of_nat k < E * T -> s2 !! k = tgt !! k) as (s2 & E2 & L2 & W2).
  { case_bool_decide as Hrem.
    - rewrite copy_elements_eq by (done || lia).
      eexists. split; [done|]. split.
      + rewrite !length_app, !length_take, !length_drop. unfold len in *. lia.
      + intros k Hk. destruct (decide (Z.of_nat k < G * 8 * T)) as [Hlt|Hge].
        * rewrite lookup_app_l by (rewrite length_take; unfold len in *; lia).
          rewrite lookup_take_lt by lia. apply W1. by fold E G.
        * rewrite lookup_app_r by (rewrite length_take; unfold len in *; lia).
          rewrite length_take.
          rewrite lookup_app_l
            by (rewrite length_take, length_drop; unfold len in *; lia).
          rewrite lookup_take_lt by (unfold len in *; lia).
          rewrite lookup_drop, Hrest by (fold E G; unfold len in *; lia).
          f_equal. unfold len in *. lia.
    - exists s1. split; [done|]. split; [done|].
      intros k Hk. apply W1. fold E G.
      pose proof (Z.div_mod E 8 ltac:(lia)).
      pose proof (Z.mod_pos_bound E 8 ltac:(lia)). fold G in H. nia. }
  rewrite E2. simpl. rewrite copy_remainder_eq by done. fold E. f_equal.
  apply fills_all.
  - rewrite length_app, length_take, length_drop. unfold len in *. lia.
  - intros k Hk. rewrite HL in Hk.
    destruct (decide (Z.of_nat k < E * T)) as [Hlt|Hge].
    + rewrite lookup_app_l by (rewrite length_take; unfold len in *; lia).
      rewrite lookup_take_lt by lia. by apply W2.
    + rewrite lookup_app_r by (rewrite length_take; unfold len in *; lia).
      rewrite lookup_drop, length_take, Hrest by (fold E G; unfold len in *; lia).
      f_equal. unfold len in *. lia.
Qed.

Lemma bit_tgt_rest (src : list Z) (T : Z) (k : nat) :
  len src / T / 8 * 8 * T <= Z.of_nat k < len src ->
  bitShuffle_tgt src T !! k = src !! k /\ bitUnshuffle_tgt src T !! k = src !! k.
Proof.
  intros Hk. unfold bitShuffle_tgt, bitUnshuffle_tgt.
  rewrite !lookup_tabulate by (unfold len in *; lia).
  rewrite !bool_decide_eq_false_2 by lia.
  rewrite lookup_at0 by (unfold len in *; lia). done.
Qed.

Lemma bitShuffle_eq (src : list Z) (T : Z) :
  1 < T -> T <= len src -> bitShuffle src T = Some (bitShuffle_tgt src T).
Proof.
  intros HT Hn. unfold bitShuffle. apply bit_transform_eq; try done.
  - unfold bitShuffle_tgt. by rewrite length_tabulate.
  - by apply bitShuffle_groups_fills.
  - intros k Hk. by apply bit_tgt_rest.
Qed.

Lemma bitUnshuffle_eq (src : list Z) (T : Z) :
  1 < T -> T <= len src -> bitUnshuffle src T = Some (bitUnshuffle_tgt src T).
Proof.
  intros HT Hn. unfold bitUnshuffle. apply bit_transform_eq; try done.
  - unfold bitUnshuffle_tgt. by rewrite length_tabulate.
  - by apply bitUnshuffle_groups_fills.
  - intros k Hk. by apply bit_tgt_rest.
Qed.

Lemma bit_transform_degenerate avx2 neon groups (src : list Z) (T : Z) :
  T <= 1 \/ len src < T -> bit_transform avx2 neon groups src T = Some src.
Proof.
  intros H. unfold bit_transform.
  destruct (bool_decide_reflect (T <= 1)), (bool_decide_reflect (len src < T));
    simpl; try done; lia.
Qed.

(** ** Bit shuffle round trip *)

Lemma at0_is_byte (s : list Z) (i : Z) : Forall is_byte s -> is_byte (at0 s i).
Proof.
  intros Hs. unfold at0. destruct (s !! Z.to_nat i) as [v|] eqn:E; simpl.
  - by eapply Forall_lookup_1.
  - unfold is_byte. lia.
Qed.

Lemma bitUnshuffle_bitShuffle_tgt (src : list Z) (T : Z) :
  1 < T -> T <= len src -> Forall is_byte src ->
  bitUnshuffle_tgt (bitShuffle_tgt src T) T = src.
Proof.
  intros HT Hn Hbytes.
  destruct (elements_bounds (len src) T HT Hn) as (HE1 & HE2 & HE3).
  destruct (groups_bounds (len src) T HT Hn) as (HG1 & HG2 & HG3).
  assert (length (bitShuffle_tgt src T) = length src) as HL
    by (unfold bitShuffle_tgt; by rewrite length_tabulate).
  assert (len (bitShuffle_tgt src T) = len src) as HL' by (unfold len; lia).
  apply fills_all.
  - unfold bitUnshuffle_tgt. by rewrite length_tabulate.
  - intros k Hk. rewrite (lookup_at0 src k Hk).
    unfold bitUnshuffle_tgt. rewrite HL, HL'.
    rewrite lookup_tabulate by done. f_equal.
    set (G := len src / T / 8) in *.
    case_bool_decide as Hlt; cbv zeta.
    + pose proof (Z.div_mod (Z.of_nat k) (8 * T) ltac:(lia)) as Hdm.
      pose proof (Z.mod_pos_bound (Z.of_nat k) (8 * T) ltac:(lia)) as Hr.
      set (g := Z.of_nat k / (8 * T)) in *.
      set (r := Z.of_nat k mod (8 * T)) in *.
      pose proof (Z.div_mod r T ltac:(lia)) as Hdm'.
      pose proof (Z.mod_pos_bound r T ltac:(lia)) as Hr'.
      set (e := r / T) in *. set (j := r mod T) in *.
      assert (0 <= g < G) as Hg.
      { split; [apply Z.div_pos; lia|]. apply Z.div_lt_upper_bound; lia. }
      assert (0 <= e < 8) as He.
      { split; [apply Z.div_pos; lia|]. apply Z.div_lt_upper_bound; lia. }
      set (bs := group_bytes src (fun elem => g * 8 * T + elem * T + j)).
      assert (group_bytes (bitShuffle_tgt src T) (fun i => g * 8 * T + j * 8 + i)
              = (fun m => tbit bs m) <$> seqZ 0 8) as ->.
      { unfold group_bytes at 1. apply list_fmap_ext. intros i m Hm.
        apply lookup_seqZ in Hm as [-> Hi]. cbv beta.
        assert (0 <= j * 8 + (0 + Z.of_nat i) < 8 * T) as Ha by lia.
        unfold bitShuffle_tgt. fold G.
        rewrite at0_tabulate by (unfold len in *; nia).
        rewrite bool_decide_eq_true_2 by nia. cbv zeta.
        replace (g * 8 * T + j * 8 + (0 + Z.of_nat i))
          with (g * 8 * T + (j * 8 + (0 + Z.of_nat i))) by lia.
        destruct (group_cell T g _ Ha) as [-> ->].
        destruct (div_mod_pair 8 (0 + Z.of_nat i) j ltac:(lia)) as [-> ->].
        done. }
      assert (at0 bs e = at0 src (Z.of_nat k)) as Hbs.
      { unfold bs, group_bytes.
        rewrite (at0_fmap_seqZ_8 (fun k => at0 src (g * 8 * T + k * T + j))) by done.
        f_equal. lia. }
      rewrite tbit_involutive; [done|done|].
      rewrite Hbs. by apply at0_is_byte.
    + unfold bitShuffle_tgt. fold G.
      rewrite at0_tabulate by (unfold len in *; lia).
      by rewrite bool_decide_eq_false_2 by lia.
Qed.

(** ** The shuffle engine: specification theorems *)

Lemma transform_cases (src : list Z) (T : Z) :
  (T <= 1 \/ len src < T) \/ (1 < T /\ T <= len src).
Proof. lia. Qed.

Lemma transforms_total (x : list Z) (typeSize : Z) :
  (exists y, shuffleBytes x typeSize = Some y /\ length y = length x) /\
  (exists y, unshuffleBytes x typeSize = Some y /\ length y = length x) /\
  (exists y, bitShuffle x typeSize = Some y /\ length y = length x) /\
  (exists y, bitUnshuffle x typeSize = Some y /\ length y = length x).
Proof.
  destruct (transform_cases x typeSize) as [Hd|[HT Hn]].
  - rewrite shuffleBytes_degenerate, unshuffleBytes_degenerate by done.
    unfold bitShuffle, bitUnshuffle.
    rewrite !bit_transform_degenerate by done.
    split_and!; by exists x.
  - rewrite shuffleBytes_eq, unshuffleBytes_eq, bitShuffle_eq, bitUnshuffle_eq
      by done.
    unfold shuffle_tgt, unshuffle_tgt, bitShuffle_tgt, bitUnshuffle_tgt.
    split_and!; eexists; (split; [done|]); by rewrite length_tabulate.
Qed.

(** C9. Length preservation: each of [shuffleBytes], [unshuffleBytes],
    [bitShuffle] and [bitUnshuffle] returns, for every input [x] and every
    [typeSize], a buffer exactly as long as [x]. *)
Theorem transforms_preserve_length (x : list Z) (typeSize : Z) :
  (exists y, shuffleBytes x typeSize = Some y /\ len y = len x) /\
  (exists y, unshuffleBytes x typeSize = Some y /\ len y = len x) /\
  (exists y, bitShuffle x typeSize = Some y /\ len y = len x) /\
  (exists y, bitUnshuffle x typeSize = Some y /\ len y = len x).
Proof.
  destruct (transforms_total x typeSize)
    as ((y1 & E1 & L1) & (y2 & E2 & L2) & (y3 & E3 & L3) & (y4 & E4 & L4)).
  unfold len. rewrite E1, E2, E3, E4.
  split_and!; eexists; (split; [done|]); congruence.
Qed.

(** C3. Layout of the byte shuffle: for [N = len src >= T = typeSize > 1],
    [E = N / T] and [R = N mod T], [shuffleBytes] returns a buffer of [N]
    bytes whose position [j*E + i] holds input byte [i*T + j] for all
    [0 <= i < E], [0 <= j < T], and whose last [R] bytes are the last [R]
    bytes of the input, at the same positions. *)
Theorem shuffleBytes_layout (src : list Z) (T : Z) :
  1 < T -> T <= len src ->
  let E := len src / T in
  let R := len src mod T in
  exists dst,
    shuffleBytes src T = Some dst /\
    len dst = len src /\
    (forall i j, 0 <= i < E -> 0 <= j < T ->
       dst !! Z.to_nat (j * E + i) = src !! Z.to_nat (i * T + j)) /\
    (forall r, 0 <= r < R ->
       dst !! Z.to_nat (E * T + r) = src !! Z.to_nat (E * T + r)).
Proof.
  intros HT Hn E R.
  destruct (elements_bounds (len src) T HT Hn) as (HE1 & HE2 & HE3).
  fold E in HE1, HE2, HE3.
  pose proof (Z.div_mod (len src) T ltac:(lia)) as Hdm. fold E R in Hdm.
  exists (shuffle_tgt src T). split; [by apply shuffleBytes_eq|].
  split; [apply len_shuffle_tgt|]. split.
  - intros i j Hi Hj. pose proof (cell_bound E T i j Hi Hj) as Hc.
    assert (0 <= i * T + j < E * T) as Hc' by nia.
    unfold shuffle_tgt. fold E.
    rewrite lookup_tabulate by (unfold len in *; lia).
    rewrite Z2Nat.id by lia. rewrite bool_decide_eq_true_2 by lia.
    destruct (div_mod_pair E i j ltac:(lia)) as [-> ->].
    rewrite lookup_at0 by (unfold len in *; lia).
    by rewrite Z2Nat.id by lia.
  - intros r Hr. unfold shuffle_tgt. fold E.
    rewrite lookup_tabulate by (unfold len in *; lia).
    rewrite Z2Nat.id by lia. rewrite bool_decide_eq_false_2 by lia.
    rewrite lookup_at0 by (unfold len in *; lia).
    by rewrite Z2Nat.id by lia.
Qed.

Lemma shuffleBytes_layout_witness :
  exists dst,
    shuffleBytes [10; 11; 12; 20; 21; 22; 30; 31] 3 = Some dst /\
    len dst = 8 /\
    (forall i j, 0 <= i < 2 -> 0 <= j < 3 ->
       dst !! Z.to_nat (j * 2 + i)
       = [10; 11; 12; 20; 21; 22; 30; 31] !! Z.to_nat (i * 3 + j)) /\
    (forall r, 0 <= r < 2 ->
       dst !! Z.to_nat (2 * 3 + r)
       = [10; 11; 12; 20; 21; 22; 30; 31] !! Z.to_nat (2 * 3 + r)).
Proof.
  apply (shuffleBytes_layout [10; 11; 12; 20; 21; 22; 30; 31] 3);
    [lia | vm_compute; discriminate].
Defined.

(** C2. Partial groups of the bit shuffle: for [typeSize = T > 1] and
    [len src >= T], with [E = len src / T] and [G = E / 8], both
    [bitShuffle] and [bitUnshuffle] return a buffer as long as the input
    in which every byte from offset [8*G*T] on (the elements after the
    first [8*G] ones and the [len src mod T] remainder bytes) is the input
    byte at the same offset. *)
Theorem bit_transforms_copy_partial_group (src : list Z) (T : Z) :
  1 < T -> T <= len src ->
  let E := len src / T in
  let G := E / 8 in
  exists fwd inv,
    bitShuffle src T = Some fwd /\
    bitUnshuffle src T = Some inv /\
    len fwd = len src /\ len inv = len src /\
    (forall k, 8 * G * T <= k < len src ->
       fwd !! Z.to_nat k = src !! Z.to_nat k /\
       inv !! Z.to_nat k = src !! Z.to_nat k).
Proof.
  intros HT Hn E G.
  exists (bitShuffle_tgt src T), (bitUnshuffle_tgt src T).
  split; [by apply bitShuffle_eq|]. split; [by apply bitUnshuffle_eq|].
  split; [unfold len, bitShuffle_tgt; by rewrite length_tabulate|].
  split; [unfold len, bitUnshuffle_tgt; by rewrite length_tabulate|].
  intros k Hk. apply bit_tgt_rest. fold E G. lia.
Qed.

Lemma bit_transforms_copy_partial_group_witness :
  let src := seqZ 1 28 in
  exists fwd inv,
    bitShuffle src 3 = Some fwd /\
    bitUnshuffle src 3 = Some inv /\
    len fwd = len src /\ len inv = len src /\
    (forall k, 8 * (len src / 3 / 8) * 3 <= k < len src ->
       fwd !! Z.to_nat k = src !! Z.to_nat k /\
       inv !! Z.to_nat k = src !! Z.to_nat k).
Proof.
  apply (bit_transforms_copy_partial_group (seqZ 1 28) 3);
    [lia | vm_compute; discriminate].
Defined.

(** C1. Round trip: for every byte sequence [src] and every
    [typeSize >= 1], [unshuffleBytes (shuffleBytes src typeSize) typeSize]
    is [src] and [bitUnshuffle (bitShuffle src typeSize) typeSize] is
    [src]; no call panics, and the degenerate shapes are included. *)
Theorem shuffle_roundtrip (src : list Z) (typeSize : Z) :
  1 <= typeSize -> Forall is_byte src ->
  (exists s, shuffleBytes src typeSize = Some s /\
             unshuffleBytes s typeSize = Some src) /\
  (exists s, bitShuffle src typeSize = Some s /\
             bitUnshuffle s typeSize = Some src).
Proof.
  intros _ Hbytes.
  destruct (transform_cases src typeSize) as [Hd|[HT Hn]].
  - split; exists src.
    + by rewrite shuffleBytes_degenerate, unshuffleBytes_degenerate.
    + unfold bitShuffle, bitUnshuffle.
      by rewrite !bit_transform_degenerate.
  - split.
    + exists (shuffle_tgt src typeSize). split; [by apply shuffleBytes_eq|].
      rewrite unshuffleBytes_eq by (rewrite ?len_shuffle_tgt; done).
      by rewrite unshuffle_shuffle_tgt.
    + exists (bitShuffle_tgt src typeSize). split; [by apply bitShuffle_eq|].
      rewrite bitUnshuffle_eq.
      * by rewrite bitUnshuffle_bitShuffle_tgt.
      * done.
      * unfold len, bitShuffle_tgt. by rewrite length_tabulate.
Qed.

Lemma shuffle_roundtrip_witness :
  let src := seqZ 100 28 in
  (exists s, shuffleBytes src 4 = Some s /\ unshuffleBytes s 4 = Some src) /\
  (exists s, bitShuffle src 4 = Some s /\ bitUnshuffle s 4 = Some src).
Proof.
  apply (shuffle_roundtrip (seqZ 100 28) 4); [lia|].
  apply Forall_forall. intros b Hb. apply elem_of_seqZ in Hb.
  unfold is_byte. lia.
Defined.

(** ** Frame header *)

Lemma Bytes_layout (h : Header) :
  Bytes h
  = Some ([Version h; VersionLZ h; Flags h; TypeSize h]
          ++ le32_bytes (NBytesOrig h)
          ++ le32_bytes (BlockSize h)
          ++ le32_bytes (NBytesComp h)).
Proof. destruct h. reflexivity. Qed.

Lemma Uint32_four (b0 b1 b2 b3 : Z) :
  LittleEndian.Uint32 [b0; b1; b2; b3]
  = Some (Z.lor (Z.lor (Z.lor (u32 b0) (u32 (Z.shiftl (u32 b1) 8)))
                       (u32 (Z.shiftl (u32 b2) 16)))
                (u32 (Z.shiftl (u32 b3) 24))).
Proof. reflexivity. Qed.

Lemma testbit_high (v n k : Z) :
  0 <= v < 2 ^ k -> 0 <= k <= n -> Z.testbit v n = false.
Proof.
  intros Hv Hn. destruct (decide (v = 0)) as [->|Hnz]; [apply Z.bits_0|].
  apply Z.bits_above_log2; [lia|].
  assert (Z.log2 v < k); [|lia]. apply Z.log2_lt_pow2; lia.
Qed.

Lemma le32_combine (v : Z) :
  0 <= v < 2 ^ 32 ->
  Z.lor (Z.lor (Z.lor (u32 (u8 v)) (u32 (Z.shiftl (u32 (u8 (Z.shiftr v 8))) 8)))
               (u32 (Z.shiftl (u32 (u8 (Z.shiftr v 16))) 16)))
        (u32 (Z.shiftl (u32 (u8 (Z.shiftr v 24))) 24)) = v.
Proof.
  intros Hv. apply Z.bits_inj'. intros n Hn.
  unfold u32, u8.
  rewrite !Z.lor_spec.
  rewrite !Z.testbit_mod_pow2 by lia.
  rewrite !Z.shiftl_spec by lia.
  rewrite !Z.testbit_mod_pow2 by lia.
  assert (n < 8 \/ 8 <= n < 16 \/ 16 <= n < 24 \/ 24 <= n < 32 \/ 32 <= n)
    as [H|[H|[H|[H|H]]]] by lia; decide_ltb; cbn [andb orb];
    rewrite ?(Z.testbit_neg_r _ (n - 8)), ?(Z.testbit_neg_r _ (n - 16)),
      ?(Z.testbit_neg_r _ (n - 24)) by lia;
    rewrite ?orb_false_r, ?orb_false_l.
  - done.
  - rewrite Z.shiftr_spec by lia. f_equal. lia.
  - rewrite Z.shiftr_spec by lia. f_equal. lia.
  - rewrite Z.shiftr_spec by lia. f_equal. lia.
  - symmetry. by apply testbit_high with (k := 32).
Qed.

Lemma Uint32_le32_bytes (v : Z) :
  0 <= v < 2 ^ 32 -> LittleEndian.Uint32 (le32_bytes v) = Some v.
Proof.
  intros Hv. unfold le32_bytes. rewrite Uint32_four. f_equal.
  by apply le32_combine.
Qed.

(** Parsing sixteen header bytes, spelled out. *)
Lemma ParseHeader_sixteen (d0 d1 d2 d3 : Z) (o b c : list Z) :
  length o = 4%nat -> length b = 4%nat -> length c = 4%nat ->
  ParseHeader ([d0; d1; d2; d3] ++ o ++ b ++ c)
  = (orig <~ must (LittleEndian.Uint32 o);;
     block <~ must (LittleEndian.Uint32 b);;
     comp <~ must (LittleEndian.Uint32 c);;
     if bool_decide (d0 ≠ FormatVersion) then Err ErrInvalidVersion
     else Ok {| Version := d0; VersionLZ := d1; Flags := d2; TypeSize := d3;
                NBytesOrig := orig; BlockSize := block; NBytesComp := comp |}).
Proof.
  intros Ho Hb Hc.
  destruct o as [|o0 [|o1 [|o2 [|o3 [|]]]]]; try discriminate.
  destruct b as [|b0 [|b1 [|b2 [|b3 [|]]]]]; try discriminate.
  destruct c as [|c0 [|c1 [|c2 [|c3 [|]]]]]; try discriminate.
  reflexivity.
Qed.

Lemma ParseHeader_Bytes (h : Header) (hb : list Z) :
  Version h = FormatVersion ->
  0 <= NBytesOrig h < 2 ^ 32 ->
  0 <= BlockSize h < 2 ^ 32 ->
  0 <= NBytesComp h < 2 ^ 32 ->
  Bytes h = Some hb -> ParseHeader hb = Ok h.
Proof.
  intros Hv Ho Hb Hc. rewrite Bytes_layout. intros Heq.
  apply (inj Some) in Heq. subst hb.
  rewrite ParseHeader_sixteen by done.
  rewrite !Uint32_le32_bytes by done. cbn [must rbind].
  rewrite bool_decide_eq_false_2 by (intros Hne; by apply Hne).
  by destruct h.
Qed.

Lemma le32_bytes_le_byte (v : Z) :
  le32_bytes v = [le_byte v 0; le_byte v 1; le_byte v 2; le_byte v 3].
Proof.
  unfold le32_bytes, le_byte, u8.
  rewrite !Z.shiftr_div_pow2 by lia.
  change (2 ^ (8 * 0)) with 1. by rewrite Z.div_1_r.
Qed.

(** C6. Header round trip: for every well-formed header [h] (format
    version 2, every field within its uint8 or uint32 range), [Bytes h] is
    the sixteen bytes Version, VersionLZ, Flags, TypeSize at offsets 0 to
    3 and NBytesOrig, BlockSize, NBytesComp little-endian at offsets 4, 8
    and 12, and [ParseHeader] of these bytes succeeds and returns [h]. *)
Theorem header_roundtrip (h : Header) :
  well_formed h ->
  exists hb,
    Bytes h = Some hb /\
    hb = [Version h; VersionLZ h; Flags h; TypeSize h;
          le_byte (NBytesOrig h) 0; le_byte (NBytesOrig h) 1;
          le_byte (NBytesOrig h) 2; le_byte (NBytesOrig h) 3;
          le_byte (BlockSize h) 0; le_byte (BlockSize h) 1;
          le_byte (BlockSize h) 2; le_byte (BlockSize h) 3;
          le_byte (NBytesComp h) 0; le_byte (NBytesComp h) 1;
          le_byte (NBytesComp h) 2; le_byte (NBytesComp h) 3] /\
    ParseHeader hb = Ok h.
Proof.
  intros [Hv Hl Hf Ht Ho Hb Hc].
  eexists. split; [apply Bytes_layout|]. split.
  - by rewrite !le32_bytes_le_byte.
  - eapply ParseHeader_Bytes; eauto using Bytes_layout.
Qed.

Lemma header_roundtrip_witness :
  exists hb,
    Bytes sample_header = Some hb /\
    hb = [2; 1; 1; 4; 160; 15; 0; 0; 160; 15; 0; 0; 44; 1; 0; 0] /\
    ParseHeader hb = Ok sample_header.
Proof.
  apply (header_roundtrip sample_header).
  constructor; vm_compute; split; congruence.
Defined.

(** ** Pipeline *)

Lemma validateOptions_fields (opts : Options) :
  opt_Codec (validateOptions opts) = opt_Codec opts /\
  opt_Shuffle (validateOptions opts) = opt_Shuffle opts /\
  1 <= opt_TypeSize (validateOptions opts) /\
  1 <= opt_Level (validateOptions opts) <= 9.
Proof.
  unfold validateOptions. destruct opts as [c l s t b n]; simpl.
  repeat case_bool_decide; simpl in *; repeat case_bool_decide; simpl in *;
    split_and!; try done; lia.
Qed.

Lemma slice_app (F G : list Z) (lo hi : Z) :
  0 <= lo <= hi -> hi <= len F -> slice (F ++ G) lo hi = slice F lo hi.
Proof.
  intros H1 H2. rewrite !slice_Some; try done.
  - f_equal. rewrite drop_app_le by (unfold len in *; lia).
    apply take_app_le. rewrite length_drop. unfold len in *. lia.
  - unfold len in *. rewrite length_app. lia.
Qed.

Lemma index_app (F G : list Z) (i : Z) :
  0 <= i < len F -> index (F ++ G) i = index F i.
Proof.
  intros Hi. rewrite !index_lookup by lia.
  apply lookup_app_l. unfold len in *. lia.
Qed.

Lemma ParseHeader_app (F G : list Z) :
  HeaderSize <= len F -> ParseHeader (F ++ G) = ParseHeader F.
Proof.
  unfold HeaderSize. intros HF. unfold ParseHeader.
  assert (len (F ++ G) = len F + len G) as HL
    by (unfold len; rewrite length_app; lia).
  pose proof (len_nonneg G).
  rewrite !bool_decide_eq_false_2 by (unfold HeaderSize; lia).
  rewrite !index_app by lia.
  rewrite !slice_app by lia. done.
Qed.

Lemma applyShuffle_total (data : list Z) (opts : Options) :
  exists s, applyShuffle data opts = Some s /\ length s = length data.
Proof.
  unfold applyShuffle.
  destruct (transforms_total data (opt_TypeSize opts))
    as (H1 & _ & H3 & _).
  destruct (_ && _); [done|]. destruct (_ && _); [done|]. by exists data.
Qed.

Lemma applyUnshuffle_total (h : Header) (typeSize : Z) (d : list Z) :
  exists s, applyUnshuffle h typeSize d = Some s /\ length s = length d.
Proof.
  unfold applyUnshuffle.
  set (ts := if bool_decide (typeSize <= 0) then TypeSize h else typeSize).
  destruct (transforms_total d ts) as (_ & H2 & _ & H4).
  destruct (_ && _); [done|]. destruct (_ && _); [done|]. by exists d.
Qed.

Lemma length_Bytes (h : Header) (hb : list Z) :
  Bytes h = Some hb -> length hb = 16%nat.
Proof. rewrite Bytes_layout. by intros [= <-]. Qed.

(** The two [copy] calls that assemble the frame. *)
Lemma frame_assembly (hb payload : list Z) :
  length hb = 16%nat ->
  (result <~ must (copy_at (make (HeaderSize + len payload)) 0 HeaderSize hb);;
   must (E := Error) (copy_at result HeaderSize (len result) payload))
  = Ok (hb ++ payload).
Proof.
  intros Hhb. unfold HeaderSize.
  pose proof (len_nonneg payload) as Hp.
  assert (len (make (16 + len payload)) = 16 + len payload) as Hm
    by (unfold len at 1; rewrite length_make; lia).
  rewrite copy_at_exact by (unfold len in *; lia). cbn [must rbind].
  change (Z.to_nat 0) with 0%nat. rewrite take_0, app_nil_l.
  set (r := hb ++ drop (Z.to_nat 16) (make (16 + len payload))).
  assert (len r = 16 + len payload) as Hr.
  { unfold r, len in *. rewrite length_app, length_drop. lia. }
  rewrite copy_at_exact by lia. cbn [must]. f_equal.
  rewrite drop_ge by (unfold len in *; lia). rewrite app_nil_r.
  unfold r. rewrite take_app_le by lia. rewrite take_ge by lia. done.
Qed.

(** What [compressBackend] returns once the codec has answered. *)
Lemma compressBackend_Ok codecs (data : list Z) (opts : Options)
    (c : CodecInterface) (shuffled compressed : list Z) :
  codecs !! opt_Codec opts = Some c ->
  applyShuffle data opts = Some shuffled ->
  Codec_Compress c shuffled (opt_Level opts) = Ok compressed ->
  let useMemcpy := bool_decide (len compressed >= len data) in
  let payload := if useMemcpy then data else compressed in
  let header := buildHeader data payload opts useMemcpy in
  exists hb, Bytes header = Some hb /\
             compressBackend codecs data opts = Ok (hb ++ payload).
Proof.
  intros Hc Hs Hz useMemcpy payload header.
  exists ([Version header; VersionLZ header; Flags header; TypeSize header]
          ++ le32_bytes (NBytesOrig header)
          ++ le32_bytes (BlockSize header)
          ++ le32_bytes (NBytesComp header)).
  split; [apply Bytes_layout|].
  unfold compressBackend. rewrite Hc, Hs. cbn [must rbind]. rewrite Hz.
  fold useMemcpy. fold payload. fold header.
  rewrite Bytes_layout. cbn [must rbind].
  by rewrite frame_assembly.
Qed.

Lemma buildHeader_parse (data payload : list Z) (opts : Options)
    (useMemcpy : bool) (hb : list Z) :
  Bytes (buildHeader data payload opts useMemcpy) = Some hb ->
  ParseHeader hb = Ok (buildHeader data payload opts useMemcpy).
Proof.
  apply ParseHeader_Bytes; try done; unfold buildHeader; simpl;
    apply Z.mod_pos_bound; lia.
Qed.

Lemma buildHeader_IsMemcpy (data payload : list Z) (opts : Options)
    (useMemcpy : bool) :
  IsMemcpy (buildHeader data payload opts useMemcpy) = useMemcpy.
Proof.
  unfold IsMemcpy, buildHeader. simpl.
  destruct useMemcpy; repeat case_bool_decide; done.
Qed.

(** The frame [Compress] returns once the codec has answered, and the
    header a parser reads back from it. *)
Lemma compress_frame codecs (data : list Z) (codec level shuffle typeSize : Z)
    (c : CodecInterface) :
  data <> [] ->
  codecs !! codec = Some c ->
  let opts := validateOptions
                {| opt_Codec := codec; opt_Level := level; opt_Shuffle := shuffle;
                   opt_TypeSize := typeSize; opt_BlockSize := 0;
                   opt_NumThreads := 0 |} in
  exists shuffled,
    applyShuffle data opts = Some shuffled /\
    forall compressed,
      Codec_Compress c shuffled (opt_Level opts) = Ok compressed ->
      let useMemcpy := bool_decide (len compressed >= len data) in
      let payload := if useMemcpy then data else compressed in
      let header := buildHeader data payload opts useMemcpy in
      exists hb,
        length hb = 16%nat /\
        Compress codecs data codec level shuffle typeSize = Ok (hb ++ payload) /\
        ParseHeader (hb ++ payload) = Ok header.
Proof.
  intros Hne Hc opts.
  destruct (applyShuffle_total data opts) as (shuffled & Hs & _).
  exists shuffled. split; [done|].
  intros compressed Hz useMemcpy payload header.
  destruct (validateOptions_fields
              {| opt_Codec := codec; opt_Level := level; opt_Shuffle := shuffle;
                 opt_TypeSize := typeSize; opt_BlockSize := 0;
                 opt_NumThreads := 0 |}) as (Hcodec & _).
  fold opts in Hcodec. cbn [opt_Codec] in Hcodec.
  destruct (compressBackend_Ok codecs data opts c shuffled compressed)
    as (hb & Hhb & Hback); [by rewrite Hcodec|done|done|].
  exists hb. pose proof (length_Bytes _ _ Hhb) as Hlen.
  split; [done|]. split.
  - unfold Compress, CompressWithOptions.
    rewrite bool_decide_eq_false_2; [exact Hback|].
    unfold len. destruct data; [done|]. simpl length. lia.
  - rewrite ParseHeader_app by (unfold HeaderSize, len; lia).
    by apply buildHeader_parse.
Qed.

(** X25. The memcpy decision, for every non-empty input of any size and
    every registered codec that answers: the frame [Compress] returns
    carries the MEMCPY flag exactly when [len compressed >= len data];
    when the flag is set the payload is the original input (not the
    shuffled bytes), otherwise it is the codec's output; and for an input
    with [len data + 16 < 2^32] a frame with the flag has
    [NBytesComp = 16 + NBytesOrig]. *)
Theorem compress_memcpy_coherent codecs (data : list Z)
    (codec level shuffle typeSize : Z) (c : CodecInterface) :
  data <> [] ->
  codecs !! codec = Some c ->
  let opts := validateOptions
                {| opt_Codec := codec; opt_Level := level; opt_Shuffle := shuffle;
                   opt_TypeSize := typeSize; opt_BlockSize := 0;
                   opt_NumThreads := 0 |} in
  exists shuffled,
    applyShuffle data opts = Some shuffled /\
    forall compressed,
      Codec_Compress c shuffled (opt_Level opts) = Ok compressed ->
      exists frame h,
        Compress codecs data codec level shuffle typeSize = Ok frame /\
        ParseHeader frame = Ok h /\
        IsMemcpy h = bool_decide (len compressed >= len data) /\
        (IsMemcpy h = true ->
           drop 16 frame = data /\
           (len data + 16 < 2 ^ 32 -> NBytesComp h = 16 + NBytesOrig h)) /\
        (IsMemcpy h = false -> drop 16 frame = compressed).
Proof.
  intros Hne Hc opts.
  destruct (compress_frame codecs data codec level shuffle typeSize c Hne Hc)
    as (shuffled & Hs & Hframe).
  exists shuffled. split; [done|]. intros compressed Hz.
  destruct (Hframe compressed Hz) as (hb & Hlen & Hcomp & Hparse).
  eexists _, _. split; [exact Hcomp|]. split; [exact Hparse|].
  rewrite buildHeader_IsMemcpy. split; [done|].
  pose proof (len_nonneg data).
  split; intros Hm; rewrite Hm.
  - split; [by rewrite drop_app_length' by done|]. intros Hsize.
    unfold buildHeader, NBytesComp, NBytesOrig, u32, HeaderSize.
    rewrite !Z.mod_small by lia. done.
  - by rewrite drop_app_length' by done.
Qed.

Lemma compress_memcpy_coherent_witness :
  exists shuffled,
    applyShuffle [7; 7; 7; 9]
      (validateOptions
         {| opt_Codec := LZ4; opt_Level := 5; opt_Shuffle := Shuffle1;
            opt_TypeSize := 2; opt_BlockSize := 0; opt_NumThreads := 0 |})
    = Some shuffled /\
    forall compressed,
      Codec_Compress (mockCodecImpl "mock") shuffled 5 = Ok compressed ->
      exists frame h,
        Compress identity_registry [7; 7; 7; 9] LZ4 5 Shuffle1 2 = Ok frame /\
        ParseHeader frame = Ok h /\
        IsMemcpy h = bool_decide (len compressed >= len [7; 7; 7; 9]) /\
        (IsMemcpy h = true ->
           drop 16 frame = [7; 7; 7; 9] /\
           (len [7; 7; 7; 9] + 16 < 2 ^ 32 ->
            NBytesComp h = 16 + NBytesOrig h)) /\
        (IsMemcpy h = false -> drop 16 frame = compressed).
Proof.
  apply (compress_memcpy_coherent identity_registry [7; 7; 7; 9]
           LZ4 5 Shuffle1 2 (mockCodecImpl "mock")).
  - discriminate.
  - reflexivity.
Defined.

Lemma len_zeros (n : Z) : 0 <= n -> len (zeros n) = n.
Proof. intros Hn. unfold len, zeros. rewrite length_make. lia. Qed.

Lemma zeros_nonempty (n : Z) : 0 < n -> zeros n <> [].
Proof.
  intros Hn Heq. pose proof (len_zeros n ltac:(lia)) as HL.
  rewrite Heq in HL. unfold len in HL. simpl in HL. lia.
Qed.

(** The identity codec on input it cannot shrink: the frame of
    [Compress] for an input of [n] bytes. *)
Lemma compress_identity_header (data : list Z) :
  data <> [] ->
  exists frame h,
    Compress identity_registry data LZ4 5 NoShuffle 1 = Ok frame /\
    ParseHeader frame = Ok h /\
    IsMemcpy h = true /\
    NBytesOrig h = u32 (len data) /\
    BlockSize h = u32 (len data) /\
    NBytesComp h = u32 (16 + len data).
Proof.
  intros Hne.
  destruct (compress_frame identity_registry data LZ4 5 NoShuffle 1
              (mockCodecImpl "mock") Hne eq_refl)
    as (shuffled & Hs & Hframe).
  assert (shuffled = data) as -> by (cbv in Hs; congruence).
  destruct (Hframe data eq_refl) as (hb & Hlen & Hcomp & Hparse).
  rewrite bool_decide_eq_true_2 in Hcomp, Hparse by lia.
  eexists _, _. split; [exact Hcomp|]. split; [exact Hparse|].
  split; [apply buildHeader_IsMemcpy|]. repeat split.
Qed.

Lemma ParseHeader_Ok_len (data : list Z) (h : Header) :
  ParseHeader data = Ok h -> HeaderSize <= len data.
Proof.
  unfold ParseHeader. case_bool_decide; [discriminate|]. lia.
Qed.

(** C4, the code at a failing input.  For an input of [2^32 - 16] bytes
    that the codec does not shrink, [Compress] returns a frame with the
    MEMCPY flag whose [NBytesOrig] is [2^32 - 16] and whose [NBytesComp]
    has wrapped to [0], not [16 + NBytesOrig]; and [Decompress] rejects
    that frame with [ErrInvalidData]. *)
Theorem compress_memcpy_size_wraps :
  exists frame h,
    Compress identity_registry (zeros 4294967280) LZ4 5 NoShuffle 1 = Ok frame /\
    ParseHeader frame = Ok h /\
    IsMemcpy h = true /\
    NBytesOrig h = 4294967280 /\
    NBytesComp h = 0 /\
    NBytesComp h <> 16 + NBytesOrig h /\
    Decompress Int64 identity_registry frame = Err ErrInvalidData.
Proof.
  destruct (compress_identity_header (zeros 4294967280))
    as (frame & h & Hc & Hp & Hm & Ho & _ & Hn).
  { apply zeros_nonempty. lia. }
  rewrite len_zeros in Ho, Hn by lia.
  assert (NBytesOrig h = 4294967280) as Ho' by (rewrite Ho; reflexivity).
  assert (NBytesComp h = 0) as Hn' by (rewrite Hn; reflexivity).
  exists frame, h.
  split; [exact Hc|]. split; [exact Hp|]. split; [exact Hm|].
  split; [exact Ho'|]. split; [exact Hn'|].
  split; [rewrite Ho', Hn'; discriminate|].
  pose proof (len_nonneg frame) as Hl.
  pose proof (ParseHeader_Ok_len _ _ Hp) as Hlen.
  unfold Decompress, DecompressWithSize.
  rewrite (bool_decide_eq_false_2 (len frame < HeaderSize)) by lia.
  unfold decompressBackend. rewrite Hp. cbn [rbind]. rewrite Hn'.
  rewrite (bool_decide_eq_false_2 (to_int Int64 0 > len frame))
    by (change (to_int Int64 0) with 0; lia).
  reflexivity.
Qed.

Lemma compressBackend_never_DataTooLarge codecs (data : list Z) (opts : Options) :
  compressBackend codecs data opts <> Err ErrDataTooLarge.
Proof.
  unfold compressBackend.
  destruct (codecs !! opt_Codec opts) as [c|]; [|discriminate].
  destruct (applyShuffle_total data opts) as (s & -> & _). cbn [must rbind].
  destruct (Codec_Compress c s (opt_Level opts)) as [z| |]; try discriminate.
  set (useMemcpy := bool_decide (len z >= len data)).
  set (payload := if useMemcpy then data else z).
  rewrite Bytes_layout. cbn [must rbind].
  rewrite frame_assembly by done. discriminate.
Qed.

(** C7, the code at a failing input.  [Compress] never answers
    [ErrDataTooLarge]; for an input of [2^32] bytes it returns a frame
    whose header says [NBytesOrig = 0], [BlockSize = 0] and
    [NBytesComp = 16]. *)
Theorem compress_truncates_large_input :
  (forall codecs data opts,
     CompressWithOptions codecs data opts <> Err ErrDataTooLarge) /\
  exists frame h,
    Compress identity_registry (zeros 4294967296) LZ4 5 NoShuffle 1 = Ok frame /\
    ParseHeader frame = Ok h /\
    NBytesOrig h = 0 /\ BlockSize h = 0 /\ NBytesComp h = 16.
Proof.
  split.
  - intros codecs data opts. unfold CompressWithOptions.
    case_bool_decide; [discriminate|].
    apply compressBackend_never_DataTooLarge.
  - destruct (compress_identity_header (zeros 4294967296))
      as (frame & h & Hc & Hp & _ & Ho & Hb & Hn).
    { apply zeros_nonempty. lia. }
    exists frame, h. split; [exact Hc|]. split; [exact Hp|].
    rewrite Ho, Hb, Hn, len_zeros by lia. vm_compute. repeat split.
Qed.

(** ** Decompression *)

(** With sixteen bytes or more the parser never panics: it reads a
    header and then looks at the version. *)
Lemma ParseHeader_cases (data : list Z) :
  HeaderSize <= len data ->
  exists h,
    index data 0 = Some (Version h) /\
    (slice data 12 16 ≫= LittleEndian.Uint32) = Some (NBytesComp h) /\
    ParseHeader data
    = if bool_decide (Version h ≠ FormatVersion) then Err ErrInvalidVersion
      else Ok h.
Proof.
  unfold HeaderSize. intros Hlen.
  rewrite <- (take_drop 16 data).
  assert (length (take 16 data) = 16%nat) as Hhd
    by (rewrite length_take; unfold len in *; lia).
  set (rest := drop 16 data). clearbody rest.
  destruct (take 16 data) as [|x0 hd]; [discriminate|].
  do 15 (destruct hd as [|? hd]; [discriminate|]).
  destruct hd; [|discriminate].
  rewrite ParseHeader_app by (unfold HeaderSize, len; simpl; lia).
  rewrite index_app by (unfold len; simpl; lia).
  rewrite slice_app by (unfold len; simpl; lia).
  exists {| Version := x0; VersionLZ := z; Flags := z0; TypeSize := z1;
            NBytesOrig := le32 z2 z3 z4 z5;
            BlockSize := le32 z6 z7 z8 z9;
            NBytesComp := le32 z10 z11 z12 z13 |}.
  split_and!; reflexivity.
Qed.

Lemma ParseHeader_NBytesComp (data : list Z) (h : Header) :
  ParseHeader data = Ok h ->
  (slice data 12 16 ≫= LittleEndian.Uint32) = Some (NBytesComp h).
Proof.
  intros Hp. pose proof (ParseHeader_Ok_len _ _ Hp) as Hlen.
  destruct (ParseHeader_cases data Hlen) as (h' & _ & Hn & Hp').
  rewrite Hp in Hp'. case_bool_decide; [discriminate|].
  by injection Hp' as ->.
Qed.

(** C5, the code at a failing input.  The 16-byte frame of the fuzz
    corpus whose three size fields are [0xFFFFFFFF] declares an
    [NBytesComp] above the frame length.  Where [int] has 64 bits the call
    fails with [ErrInvalidData]; where it has 32 bits,
    [int(header.NBytesComp)] is [-1], the check
    [int(header.NBytesComp) > len(data)] passes, so does
    [header.NBytesComp < HeaderSize], and the slice expression
    [data[HeaderSize:header.NBytesComp]] panics, with any registry and
    type size. *)
Theorem decompress_max_sizes_panics (codecs : gmap Z CodecInterface) (ts : Z) :
  let frame := [2; 1; 0; 0; 255; 255; 255; 255; 255; 255; 255; 255;
                255; 255; 255; 255] in
  (exists h, ParseHeader frame = Ok h /\
             NBytesComp h = 4294967295 /\ NBytesComp h > len frame /\
             to_int Int32 (NBytesComp h) = -1) /\
  DecompressWithSize Int64 codecs frame ts = Err ErrInvalidData /\
  DecompressWithSize Int32 codecs frame ts = Panic.
Proof.
  split_and!.
  - eexists. split; [vm_compute; reflexivity|]. by vm_compute.
  - vm_compute. reflexivity.
  - vm_compute. reflexivity.
Qed.

(** C10. Trailing bytes are ignored: for a frame [F] whose bytes 12 to 15
    declare [16 <= NBytesComp <= len F] and any bytes [G] appended to it,
    [DecompressWithSize (F ++ G) ts] is the same outcome (bytes, error or
    panic) as [DecompressWithSize F ts]: nothing from offset [NBytesComp]
    on is read. *)
Theorem decompress_ignores_trailing (W : IntWidth) codecs (F G : list Z)
    (ts n : Z) :
  (slice F 12 16 ≫= LittleEndian.Uint32) = Some n ->
  16 <= n <= len F ->
  DecompressWithSize W codecs (F ++ G) ts = DecompressWithSize W codecs F ts.
Proof.
  intros Hn Hrange.
  assert (len (F ++ G) = len F + len G) as HL
    by (unfold len; rewrite length_app; lia).
  pose proof (len_nonneg G) as HG.
  unfold DecompressWithSize, HeaderSize.
  rewrite !bool_decide_eq_false_2 by lia.
  unfold decompressBackend.
  rewrite ParseHeader_app by (unfold HeaderSize; lia).
  destruct (ParseHeader F) as [h| |] eqn:Hp; [|done|done].
  cbn [rbind]. apply ParseHeader_NBytesComp in Hp.
  assert (NBytesComp h = n) as Hcomp by congruence.
  unfold HeaderSize. rewrite Hcomp.
  pose proof (to_int_le W n ltac:(lia)) as Hint.
  rewrite !bool_decide_eq_false_2 by lia.
  by rewrite slice_app by lia.
Qed.

Lemma decompress_ignores_trailing_witness :
  let F := [2; 1; 2; 1; 3; 0; 0; 0; 3; 0; 0; 0; 19; 0; 0; 0; 7; 8; 9] in
  DecompressWithSize Int32 ∅ (F ++ [42; 43]) 0
  = DecompressWithSize Int32 ∅ F 0.
Proof.
  apply (decompress_ignores_trailing Int32 ∅
           [2; 1; 2; 1; 3; 0; 0; 0; 3; 0; 0; 0; 19; 0; 0; 0; 7; 8; 9]
           [42; 43] 0 19).
  - vm_compute. reflexivity.
  - vm_compute. split; discriminate.
Defined.

(** ** A frame that carries both the shuffle and the memcpy flag

    Not one of the specification's claims, but visible in the model: when
    the codec does not shrink shuffled input, [compressBackend] stores the
    raw input and still sets the shuffle flag, and [decompressBackend]
    then unshuffles bytes that were never shuffled. *)

Remark memcpy_frame_keeps_shuffle_flag (W : IntWidth) :
  Compress identity_registry [1; 2; 3; 4; 5; 6; 7; 8] LZ4 5 Shuffle1 2
  = Ok ([2; 1; 3; 2; 8; 0; 0; 0; 8; 0; 0; 0; 24; 0; 0; 0]
        ++ [1; 2; 3; 4; 5; 6; 7; 8]) /\
  Decompress W identity_registry
    ([2; 1; 3; 2; 8; 0; 0; 0; 8; 0; 0; 0; 24; 0; 0; 0]
     ++ [1; 2; 3; 4; 5; 6; 7; 8])
  = Ok [1; 5; 2; 6; 3; 7; 4; 8].
Proof. split; destruct W; vm_compute; reflexivity. Qed.

(** * More of the shuffle engine *)

Lemma shuffle_tgt_cell (src : list Z) (T i j : Z) :
  1 < T -> T <= len src -> 0 <= i < len src / T -> 0 <= j < T ->
  shuffle_tgt src T !! Z.to_nat (j * (len src / T) + i)
  = src !! Z.to_nat (i * T + j).
Proof.
  intros HT Hn Hi Hj. set (E := len src / T) in *.
  destruct (elements_bounds (len src) T HT Hn) as (HE1 & HE2 & HE3).
  fold E in HE1, HE2, HE3.
  pose proof (cell_bound E T i j Hi Hj) as Hc.
  assert (0 <= i * T + j < E * T) as Hc' by nia.
  unfold shuffle_tgt. fold E.
  rewrite lookup_tabulate by len_lia.
  rewrite Z2Nat.id by lia. rewrite bool_decide_eq_true_2 by lia.
  destruct (div_mod_pair E i j ltac:(lia)) as [-> ->].
  rewrite lookup_at0 by len_lia.
  by rewrite Z2Nat.id by lia.
Qed.

Lemma unshuffle_tgt_cell (src : list Z) (T i j : Z) :
  1 < T -> T <= len src -> 0 <= i < len src / T -> 0 <= j < T ->
  unshuffle_tgt src T !! Z.to_nat (i * T + j)
  = src !! Z.to_nat (j * (len src / T) + i).
Proof.
  intros HT Hn Hi Hj. set (E := len src / T) in *.
  destruct (elements_bounds (len src) T HT Hn) as (HE1 & HE2 & HE3).
  fold E in HE1, HE2, HE3.
  pose proof (cell_bound E T i j Hi Hj) as Hc.
  assert (0 <= i * T + j < E * T) as Hc' by nia.
  unfold unshuffle_tgt. fold E.
  rewrite lookup_tabulate by len_lia.
  rewrite Z2Nat.id by lia. rewrite bool_decide_eq_true_2 by lia.
  destruct (div_mod_pair T j i ltac:(lia)) as [-> ->].
  rewrite lookup_at0 by len_lia.
  by rewrite Z2Nat.id by lia.
Qed.

Lemma tgt_rest (src : list Z) (T : Z) (k : nat) :
  len src / T * T <= Z.of_nat k < len src ->
  shuffle_tgt src T !! k = src !! k /\ unshuffle_tgt src T !! k = src !! k.
Proof.
  intros Hk. unfold shuffle_tgt, unshuffle_tgt.
  rewrite !lookup_tabulate by len_lia.
  rewrite !bool_decide_eq_false_2 by lia.
  by rewrite lookup_at0 by len_lia.
Qed.

(** X1. Layout of the inverse byte shuffle: for [N = len src >= T > 1],
    [E = N / T] and [R = N mod T], [unshuffleBytes] returns a buffer of
    [N] bytes whose position [i*T + j] holds input byte [j*E + i] for all
    [0 <= i < E], [0 <= j < T], and whose last [R] bytes are those of the
    input. *)
Theorem unshuffleBytes_layout (src : list Z) (T : Z) :
  1 < T -> T <= len src ->
  let E := len src / T in
  let R := len src mod T in
  exists dst,
    unshuffleBytes src T = Some dst /\
    len dst = len src /\
    (forall i j, 0 <= i < E -> 0 <= j < T ->
       dst !! Z.to_nat (i * T + j) = src !! Z.to_nat (j * E + i)) /\
    (forall r, 0 <= r < R ->
       dst !! Z.to_nat (E * T + r) = src !! Z.to_nat (E * T + r)).
Proof.
  intros HT Hn E R.
  destruct (elements_bounds (len src) T HT Hn) as (HE1 & HE2 & HE3).
  fold E in HE1, HE2, HE3.
  pose proof (Z.div_mod (len src) T ltac:(lia)) as Hdm. fold E R in Hdm.
  exists (unshuffle_tgt src T). split; [by apply unshuffleBytes_eq|].
  split; [apply len_unshuffle_tgt|]. split.
  - intros i j Hi Hj. by apply unshuffle_tgt_cell.
  - intros r Hr. apply tgt_rest. fold E. rewrite Z2Nat.id by lia. lia.
Qed.

Lemma unshuffleBytes_layout_witness :
  exists dst,
    unshuffleBytes [10; 20; 11; 21; 12; 22; 30; 31] 3 = Some dst /\
    len dst = 8 /\
    (forall i j, 0 <= i < 2 -> 0 <= j < 3 ->
       dst !! Z.to_nat (i * 3 + j)
       = [10; 20; 11; 21; 12; 22; 30; 31] !! Z.to_nat (j * 2 + i)) /\
    (forall r, 0 <= r < 2 ->
       dst !! Z.to_nat (2 * 3 + r)
       = [10; 20; 11; 21; 12; 22; 30; 31] !! Z.to_nat (2 * 3 + r)).
Proof.
  apply (unshuffleBytes_layout [10; 20; 11; 21; 12; 22; 30; 31] 3);
    [lia | vm_compute; discriminate].
Defined.

Lemma shuffle_unshuffle_tgt (src : list Z) (T : Z) :
  1 < T -> T <= len src -> shuffle_tgt (unshuffle_tgt src T) T = src.
Proof.
  intros HT Hn.
  destruct (elements_bounds (len src) T HT Hn) as (HE1 & HE2 & HE3).
  apply fills_all.
  - unfold unshuffle_tgt, shuffle_tgt. by rewrite !length_tabulate.
  - intros k Hk. rewrite (lookup_at0 src k Hk).
    unfold shuffle_tgt. rewrite len_unshuffle_tgt.
    assert (length (unshuffle_tgt src T) = length src) as HL
      by (unfold unshuffle_tgt; by rewrite length_tabulate).
    rewrite HL. rewrite lookup_tabulate by done. f_equal.
    set (E := len src / T) in *.
    unfold unshuffle_tgt. fold E.
    case_bool_decide as Hlt.
    + assert (0 <= Z.of_nat k / E < T) as Hq.
      { split; [apply Z.div_pos; lia|]. apply Z.div_lt_upper_bound; lia. }
      pose proof (Z.mod_pos_bound (Z.of_nat k) E ltac:(lia)) as Hr.
      assert (0 <= Z.of_nat k mod E * T + Z.of_nat k / E < E * T) as Hc by nia.
      rewrite at0_tabulate by len_lia.
      rewrite bool_decide_eq_true_2 by lia.
      destruct (div_mod_pair T (Z.of_nat k / E) (Z.of_nat k mod E) Hq) as [-> ->].
      f_equal. pose proof (Z.div_mod (Z.of_nat k) E ltac:(lia)). lia.
    + rewrite at0_tabulate by len_lia.
      by rewrite bool_decide_eq_false_2 by lia.
Qed.

Lemma bitShuffle_bitUnshuffle_tgt (src : list Z) (T : Z) :
  1 < T -> T <= len src -> Forall is_byte src ->
  bitShuffle_tgt (bitUnshuffle_tgt src T) T = src.
Proof.
  intros HT Hn Hbytes.
  destruct (elements_bounds (len src) T HT Hn) as (HE1 & HE2 & HE3).
  destruct (groups_bounds (len src) T HT Hn) as (HG1 & HG2 & HG3).
  assert (length (bitUnshuffle_tgt src T) = length src) as HL
    by (unfold bitUnshuffle_tgt; by rewrite length_tabulate).
  assert (len (bitUnshuffle_tgt src T) = len src) as HL' by (unfold len; lia).
  apply fills_all.
  - unfold bitShuffle_tgt. by rewrite length_tabulate.
  - intros k Hk. rewrite (lookup_at0 src k Hk).
    unfold bitShuffle_tgt. rewrite HL, HL'.
    rewrite lookup_tabulate by done. f_equal.
    set (G := len src / T / 8) in *.
    case_bool_decide as Hlt; cbv zeta.
    + pose proof (Z.div_mod (Z.of_nat k) (8 * T) ltac:(lia)) as Hdm.
      pose proof (Z.mod_pos_bound (Z.of_nat k) (8 * T) ltac:(lia)) as Hr.
      set (g := Z.of_nat k / (8 * T)) in *.
      set (r := Z.of_nat k mod (8 * T)) in *.
      pose proof (Z.div_mod r 8 ltac:(lia)) as Hdm'.
      pose proof (Z.mod_pos_bound r 8 ltac:(lia)) as Hr'.
      set (j := r / 8) in *. set (m := r mod 8) in *.
      assert (0 <= g < G) as Hg.
      { split; [apply Z.div_pos; lia|]. apply Z.div_lt_upper_bound; lia. }
      assert (0 <= j < T) as Hj.
      { split; [apply Z.div_pos; lia|]. apply Z.div_lt_upper_bound; lia. }
      set (bs := group_bytes src (fun i => g * 8 * T + j * 8 + i)).
      assert (group_bytes (bitUnshuffle_tgt src T)
                (fun elem => g * 8 * T + elem * T + j)
              = (fun e => tbit bs e) <$> seqZ 0 8) as ->.
      { unfold group_bytes at 1. apply list_fmap_ext. intros i e He.
        apply lookup_seqZ in He as [-> Hi]. cbv beta.
        assert (0 <= (0 + Z.of_nat i) * T + j < 8 * T) as Ha by nia.
        unfold bitUnshuffle_tgt. fold G.
        rewrite at0_tabulate by (unfold len in *; nia).
        rewrite bool_decide_eq_true_2 by nia. cbv zeta.
        replace (g * 8 * T + (0 + Z.of_nat i) * T + j)
          with (g * 8 * T + ((0 + Z.of_nat i) * T + j)) by lia.
        destruct (group_cell T g _ Ha) as [-> ->].
        destruct (div_mod_pair T j (0 + Z.of_nat i) ltac:(lia)) as [-> ->].
        done. }
      assert (at0 bs m = at0 src (Z.of_nat k)) as Hbs.
      { unfold bs, group_bytes.
        rewrite (at0_fmap_seqZ_8 (fun i => at0 src (g * 8 * T + j * 8 + i))) by done.
        f_equal. lia. }
      rewrite tbit_involutive; [done|done|].
      rewrite Hbs. by apply at0_is_byte.
    + unfold bitUnshuffle_tgt. fold G.
      rewrite at0_tabulate by len_lia.
      by rewrite bool_decide_eq_false_2 by lia.
Qed.

Lemma len_bit_tgt (src : list Z) (T : Z) :
  len (bitShuffle_tgt src T) = len src /\ len (bitUnshuffle_tgt src T) = len src.
Proof. unfold len, bitShuffle_tgt, bitUnshuffle_tgt. by rewrite !length_tabulate. Qed.

(** The four compositions of a transform with its opposite, for any
    type size. *)
Lemma transforms_invert (src : list Z) (T : Z) :
  (exists s, shuffleBytes src T = Some s /\ unshuffleBytes s T = Some src) /\
  (exists s, unshuffleBytes src T = Some s /\ shuffleBytes s T = Some src) /\
  (Forall is_byte src ->
   (exists s, bitShuffle src T = Some s /\ bitUnshuffle s T = Some src) /\
   (exists s, bitUnshuffle src T = Some s /\ bitShuffle s T = Some src)).
Proof.
  destruct (transform_cases src T) as [Hd|[HT Hn]].
  - split_and!; [exists src|exists src|intros _; split; exists src];
      unfold bitShuffle, bitUnshuffle;
      by rewrite ?shuffleBytes_degenerate, ?unshuffleBytes_degenerate,
           ?bit_transform_degenerate by done.
  - destruct (len_bit_tgt src T) as [Lf Li].
    split_and!.
    + exists (shuffle_tgt src T). split; [by apply shuffleBytes_eq|].
      rewrite unshuffleBytes_eq by (rewrite ?len_shuffle_tgt; done).
      by rewrite unshuffle_shuffle_tgt.
    + exists (unshuffle_tgt src T). split; [by apply unshuffleBytes_eq|].
      rewrite shuffleBytes_eq by (rewrite ?len_unshuffle_tgt; done).
      by rewrite shuffle_unshuffle_tgt.
    + intros Hb. split.
      * exists (bitShuffle_tgt src T). split; [by apply bitShuffle_eq|].
        rewrite bitUnshuffle_eq by (rewrite ?Lf; done).
        by rewrite bitUnshuffle_bitShuffle_tgt.
      * exists (bitUnshuffle_tgt src T). split; [by apply bitUnshuffle_eq|].
        rewrite bitShuffle_eq by (rewrite ?Li; done).
        by rewrite bitShuffle_bitUnshuffle_tgt.
Qed.

(** X2. The transforms are inverse in the other order too: for every
    byte sequence and every type size,
    [shuffleBytes (unshuffleBytes src T) T] is [src] and
    [bitShuffle (bitUnshuffle src T) T] is [src]. *)
Theorem unshuffle_then_shuffle (src : list Z) (T : Z) :
  Forall is_byte src ->
  (exists s, unshuffleBytes src T = Some s /\ shuffleBytes s T = Some src) /\
  (exists s, bitUnshuffle src T = Some s /\ bitShuffle s T = Some src).
Proof.
  intros Hb. destruct (transforms_invert src T) as (_ & H2 & H3).
  split; [done|]. by apply H3.
Qed.

Lemma unshuffle_then_shuffle_witness :
  (exists s, unshuffleBytes (seqZ 3 29) 4 = Some s /\
             shuffleBytes s 4 = Some (seqZ 3 29)) /\
  (exists s, bitUnshuffle (seqZ 3 29) 3 = Some s /\
             bitShuffle s 3 = Some (seqZ 3 29)).
Proof.
  split.
  - apply (unshuffle_then_shuffle (seqZ 3 29) 4).
    apply Forall_forall. intros b Hb. apply elem_of_seqZ in Hb.
    unfold is_byte. lia.
  - apply (unshuffle_then_shuffle (seqZ 3 29) 3).
    apply Forall_forall. intros b Hb. apply elem_of_seqZ in Hb.
    unfold is_byte. lia.
Defined.

Lemma bitShuffle_tgt_cell (src : list Z) (T g j m : Z) :
  1 < T -> T <= len src ->
  0 <= g < len src / T / 8 -> 0 <= j < T -> 0 <= m < 8 ->
  bitShuffle_tgt src T !! Z.to_nat (g * 8 * T + j * 8 + m)
  = Some (tbit (group_bytes src (fun elem => g * 8 * T + elem * T + j)) m).
Proof.
  intros HT Hn Hg Hj Hm. set (G := len src / T / 8) in *.
  destruct (elements_bounds (len src) T HT Hn) as (HE1 & HE2 & HE3).
  destruct (groups_bounds (len src) T HT Hn) as (HG1 & HG2 & HG3).
  fold G in HG1, HG2, HG3.
  assert (0 <= j * 8 + m < 8 * T) as Ha by lia.
  assert (0 <= g * 8 * T + j * 8 + m < G * 8 * T) as Hp by nia.
  unfold bitShuffle_tgt. fold G.
  rewrite lookup_tabulate by len_lia.
  rewrite Z2Nat.id by lia. rewrite bool_decide_eq_true_2 by lia.
  cbv zeta. replace (g * 8 * T + j * 8 + m) with (g * 8 * T + (j * 8 + m)) by lia.
  destruct (group_cell T g (j * 8 + m) Ha) as [-> ->].
  destruct (div_mod_pair 8 m j ltac:(lia)) as [-> ->]. done.
Qed.

Lemma bitUnshuffle_tgt_cell (src : list Z) (T g j e : Z) :
  1 < T -> T <= len src ->
  0 <= g < len src / T / 8 -> 0 <= j < T -> 0 <= e < 8 ->
  bitUnshuffle_tgt src T !! Z.to_nat (g * 8 * T + e * T + j)
  = Some (tbit (group_bytes src (fun i => g * 8 * T + j * 8 + i)) e).
Proof.
  intros HT Hn Hg Hj He. set (G := len src / T / 8) in *.
  destruct (elements_bounds (len src) T HT Hn) as (HE1 & HE2 & HE3).
  destruct (groups_bounds (len src) T HT Hn) as (HG1 & HG2 & HG3).
  fold G in HG1, HG2, HG3.
  assert (0 <= e * T + j < 8 * T) as Ha by nia.
  assert (0 <= g * 8 * T + e * T + j < G * 8 * T) as Hp by nia.
  unfold bitUnshuffle_tgt. fold G.
  rewrite lookup_tabulate by len_lia.
  rewrite Z2Nat.id by lia. rewrite bool_decide_eq_true_2 by lia.
  cbv zeta. replace (g * 8 * T + e * T + j) with (g * 8 * T + (e * T + j)) by lia.
  destruct (group_cell T g (e * T + j) Ha) as [-> ->].
  destruct (div_mod_pair T j e ltac:(lia)) as [-> ->]. done.
Qed.

Lemma tbit_bit (src : list Z) (at_ : Z -> Z) (m k : Z) :
  0 <= m < 8 -> 0 <= k < 8 -> 0 <= at_ k < len src ->
  exists b, src !! Z.to_nat (at_ k) = Some b /\
            Z.testbit (tbit (group_bytes src at_) m) (7 - k)
            = Z.testbit b (7 - m).
Proof.
  intros Hm Hk Hat. exists (at0 src (at_ k)). split.
  - rewrite lookup_at0 by len_lia. by rewrite Z2Nat.id by lia.
  - rewrite testbit_tbit by lia.
    rewrite (proj2 (Z.ltb_lt (7 - k) 8)) by lia. cbn [andb].
    replace (7 - (7 - k)) with k by lia.
    unfold group_bytes.
    by rewrite (at0_fmap_seqZ_8 (fun k => at0 src (at_ k))) by done.
Qed.

(** X3. The bit transpose inside the whole groups: for [T > 1],
    [len src >= T], a group [g < G = len src / T / 8] and a byte position
    [j < T], output byte [g*8T + j*8 + m] of [bitShuffle] is a byte whose
    bit [7-k] is bit [7-m] of input byte [g*8T + k*T + j], for all
    [m, k < 8]; and output byte [g*8T + e*T + j] of [bitUnshuffle] is a
    byte whose bit [7-i] is bit [7-e] of input byte [g*8T + j*8 + i]. *)
Theorem bit_transforms_transpose (src : list Z) (T : Z) :
  1 < T -> T <= len src ->
  let G := len src / T / 8 in
  exists fwd inv,
    bitShuffle src T = Some fwd /\
    bitUnshuffle src T = Some inv /\
    forall g j m, 0 <= g < G -> 0 <= j < T -> 0 <= m < 8 ->
      (exists out,
         fwd !! Z.to_nat (g * 8 * T + j * 8 + m) = Some out /\
         0 <= out < 256 /\
         forall k, 0 <= k < 8 ->
           exists b, src !! Z.to_nat (g * 8 * T + k * T + j) = Some b /\
                     Z.testbit out (7 - k) = Z.testbit b (7 - m)) /\
      (exists out,
         inv !! Z.to_nat (g * 8 * T + m * T + j) = Some out /\
         0 <= out < 256 /\
         forall i, 0 <= i < 8 ->
           exists b, src !! Z.to_nat (g * 8 * T + j * 8 + i) = Some b /\
                     Z.testbit out (7 - i) = Z.testbit b (7 - m)).
Proof.
  intros HT Hn G.
  destruct (elements_bounds (len src) T HT Hn) as (HE1 & HE2 & HE3).
  destruct (groups_bounds (len src) T HT Hn) as (HG1 & HG2 & HG3).
  fold G in HG1, HG2, HG3.
  exists (bitShuffle_tgt src T), (bitUnshuffle_tgt src T).
  split; [by apply bitShuffle_eq|]. split; [by apply bitUnshuffle_eq|].
  intros g j m Hg Hj Hm. split.
  - eexists. split; [by apply bitShuffle_tgt_cell|].
    split; [by apply tbit_range|].
    intros k Hk.
    apply (tbit_bit src (fun elem => g * 8 * T + elem * T + j)); [done|done|].
    nia.
  - eexists. split; [by apply bitUnshuffle_tgt_cell|].
    split; [by apply tbit_range|].
    intros i Hi.
    apply (tbit_bit src (fun i => g * 8 * T + j * 8 + i)); [done|done|].
    nia.
Qed.

Lemma bit_transforms_transpose_witness :
  exists fwd inv,
    bitShuffle (seqZ 1 40) 2 = Some fwd /\
    bitUnshuffle (seqZ 1 40) 2 = Some inv /\
    forall g j m, 0 <= g < len (seqZ 1 40) / 2 / 8 -> 0 <= j < 2 -> 0 <= m < 8 ->
      (exists out,
         fwd !! Z.to_nat (g * 8 * 2 + j * 8 + m) = Some out /\
         0 <= out < 256 /\
         forall k, 0 <= k < 8 ->
           exists b, seqZ 1 40 !! Z.to_nat (g * 8 * 2 + k * 2 + j) = Some b /\
                     Z.testbit out (7 - k) = Z.testbit b (7 - m)) /\
      (exists out,
         inv !! Z.to_nat (g * 8 * 2 + m * 2 + j) = Some out /\
         0 <= out < 256 /\
         forall i, 0 <= i < 8 ->
           exists b, seqZ 1 40 !! Z.to_nat (g * 8 * 2 + j * 8 + i) = Some b /\
                     Z.testbit out (7 - i) = Z.testbit b (7 - m)).
Proof.
  apply (bit_transforms_transpose (seqZ 1 40) 2);
    [lia | vm_compute; discriminate].
Defined.

Lemma tabulate_at0 (src : list Z) :
  tabulate (length src) (at0 src) = src.
Proof.
  apply fills_all; [apply length_tabulate|].
  intros k Hk.
  rewrite lookup_tabulate by done. by rewrite lookup_at0.
Qed.

(** X4. Shapes on which a transform changes nothing: with
    [typeSize <= 1] or [len src < typeSize] each of the four transforms
    returns its input; and with fewer than eight elements
    ([len src < 8 * typeSize]) [bitShuffle] and [bitUnshuffle] return
    their input whatever the type size, 28 bytes at type size 4
    included. *)
Theorem transforms_identity_shapes (src : list Z) (T : Z) :
  (T <= 1 \/ len src < T ->
   shuffleBytes src T = Some src /\ unshuffleBytes src T = Some src /\
   bitShuffle src T = Some src /\ bitUnshuffle src T = Some src) /\
  (len src < 8 * T ->
   bitShuffle src T = Some src /\ bitUnshuffle src T = Some src).
Proof.
  split.
  - intros Hd. unfold bitShuffle, bitUnshuffle.
    by rewrite shuffleBytes_degenerate, unshuffleBytes_degenerate,
         !bit_transform_degenerate by done.
  - intros Hlt. destruct (transform_cases src T) as [Hd|[HT Hn]].
    + unfold bitShuffle, bitUnshuffle.
      by rewrite !bit_transform_degenerate by done.
    + assert (len src / T / 8 = 0) as HG.
      { apply Z.div_small. split; [apply Z.div_pos; lia|].
        apply Z.div_lt_upper_bound; lia. }
      rewrite bitShuffle_eq, bitUnshuffle_eq by done.
      unfold bitShuffle_tgt, bitUnshuffle_tgt. rewrite HG.
      assert (forall f : Z -> Z,
                tabulate (length src)
                  (fun k => if bool_decide (k < 0 * 8 * T) then f k else at0 src k)
                = src) as Hid.
      { intros f. rewrite <- (tabulate_at0 src) at 2.
        unfold tabulate. apply list_fmap_ext. intros i k Hk.
        by rewrite bool_decide_eq_false_2 by lia. }
      split; f_equal; apply Hid.
Qed.

Lemma transforms_identity_shapes_witness :
  bitShuffle (seqZ 0 28) 4 = Some (seqZ 0 28) /\
  bitUnshuffle (seqZ 0 28) 4 = Some (seqZ 0 28).
Proof.
  destruct (transforms_identity_shapes (seqZ 0 28) 4) as [_ H].
  apply H. vm_compute. reflexivity.
Defined.

(** ** The scalar tail after a SIMD kernel *)

Lemma shuffle_loop_fills_from (src : list Z) (T P : Z) :
  1 < T -> T <= len src -> 0 <= P ->
  fills (shuffle_tgt src T)
    (fun k => exists i, P <= i < len src / T /\
              exists j, 0 <= j < T /\ k = Z.to_nat (j * (len src / T) + i))
    (shuffle_loop src T (len src / T) P).
Proof.
  intros HT Hn HP. set (E := len src / T).
  destruct (elements_bounds (len src) T HT Hn) as (HE1 & HE2 & HE3).
  fold E in HE1, HE2, HE3.
  apply fills_for_range. intros i Hi. apply fills_for_range. intros j Hj.
  pose proof (cell_bound E T i j ltac:(lia) Hj) as Hc.
  apply fills_store_value with (v := at0 src (i * T + j)).
  - apply index_at0. nia.
  - rewrite len_shuffle_tgt. lia.
  - unfold E. rewrite shuffle_tgt_cell by (done || lia).
    rewrite lookup_at0 by (unfold len in *; nia).
    by rewrite Z2Nat.id by nia.
Qed.

Lemma unshuffle_loop_fills_from (src : list Z) (T P : Z) :
  1 < T -> T <= len src -> 0 <= P ->
  fills (unshuffle_tgt src T)
    (fun k => exists i, P <= i < len src / T /\
              exists j, 0 <= j < T /\ k = Z.to_nat (i * T + j))
    (unshuffle_loop src T (len src / T) P).
Proof.
  intros HT Hn HP. set (E := len src / T).
  destruct (elements_bounds (len src) T HT Hn) as (HE1 & HE2 & HE3).
  fold E in HE1, HE2, HE3.
  apply fills_for_range. intros i Hi. apply fills_for_range. intros j Hj.
  pose proof (cell_bound E T i j ltac:(lia) Hj) as Hc.
  assert (0 <= i * T + j < E * T) as Hc' by nia.
  apply fills_store_value with (v := at0 src (j * E + i)).
  - apply index_at0. nia.
  - rewrite len_unshuffle_tgt. lia.
  - unfold E. rewrite unshuffle_tgt_cell by (done || lia).
    rewrite lookup_at0 by (unfold len in *; nia).
    by rewrite Z2Nat.id by nia.
Qed.

(** A buffer that holds the element area of [tgt] is completed by the
    remainder copy. *)
Lemma copy_remainder_completes (src tgt s : list Z) (T : Z) :
  1 < T -> T <= len src ->
  length s = length src -> length tgt = length src ->
  (forall k, Z.of_nat k < len src / T * T -> s !! k = tgt !! k) ->
  (forall k, len src / T * T <= Z.of_nat k < len src -> tgt !! k = src !! k) ->
  copy_remainder src T (len src / T) s = Some tgt.
Proof.
  intros HT Hn Ls Lt Hel Hrest.
  destruct (elements_bounds (len src) T HT Hn) as (HE1 & HE2 & HE3).
  rewrite copy_remainder_eq by done. f_equal. apply fills_all.
  - rewrite length_app, length_take, length_drop. len_lia.
  - intros k Hk. rewrite Lt in Hk.
    destruct (decide (Z.of_nat k < len src / T * T)) as [Hlt|Hge].
    + rewrite lookup_app_l by (rewrite length_take; len_lia).
      rewrite lookup_take_lt by lia. by apply Hel.
    + rewrite lookup_app_r by (rewrite length_take; len_lia).
      rewrite lookup_drop, length_take, Hrest by len_lia.
      f_equal. len_lia.
Qed.

Lemma element_cell (E T : Z) (k : nat) :
  0 < E -> 0 < T -> Z.of_nat k < E * T ->
  (exists i j, 0 <= i < E /\ 0 <= j < T /\ k = Z.to_nat (j * E + i)) /\
  (exists i j, 0 <= i < E /\ 0 <= j < T /\ k = Z.to_nat (i * T + j)).
Proof.
  intros HE HT Hk. split.
  - exists (Z.of_nat k mod E), (Z.of_nat k / E).
    pose proof (Z.mod_pos_bound (Z.of_nat k) E ltac:(lia)).
    pose proof (Z.div_mod (Z.of_nat k) E ltac:(lia)).
    split; [done|]. split; [|lia].
    split; [apply Z.div_pos; lia|]. apply Z.div_lt_upper_bound; lia.
  - exists (Z.of_nat k / T), (Z.of_nat k mod T).
    pose proof (Z.mod_pos_bound (Z.of_nat k) T ltac:(lia)).
    pose proof (Z.div_mod (Z.of_nat k) T ltac:(lia)).
    split; [|split; [done|lia]].
    split; [apply Z.div_pos; lia|]. apply Z.div_lt_upper_bound; lia.
Qed.

(** X5. The scalar tail of the SIMD path: if a kernel has left in [dst]
    the shuffled bytes of the first [P] elements (output position
    [j*E + i] holds input byte [i*T + j] for every [i < P]), then the
    element loop from [P] followed by the remainder copy returns exactly
    what [shuffleBytes] returns on the scalar path; likewise for
    [unshuffleBytes], with positions [i*T + j] and [j*E + i] exchanged. *)
Theorem simd_tail_completes (src dst : list Z) (T P : Z) :
  1 < T -> T <= len src ->
  let E := len src / T in
  0 <= P <= E -> len dst = len src ->
  ((forall i j, 0 <= i < P -> 0 <= j < T ->
      dst !! Z.to_nat (j * E + i) = src !! Z.to_nat (i * T + j)) ->
   (d ← shuffle_loop src T E P dst; copy_remainder src T E d)
   = shuffleBytes src T) /\
  ((forall i j, 0 <= i < P -> 0 <= j < T ->
      dst !! Z.to_nat (i * T + j) = src !! Z.to_nat (j * E + i)) ->
   (d ← unshuffle_loop src T E P dst; copy_remainder src T E d)
   = unshuffleBytes src T).
Proof.
  intros HT Hn E HP HL.
  destruct (elements_bounds (len src) T HT Hn) as (HE1 & HE2 & HE3).
  fold E in HE1, HE2, HE3.
  assert (length dst = length src) as HL' by len_lia.
  split; intros Hpre.
  - rewrite shuffleBytes_eq by done.
    destruct (shuffle_loop_fills_from src T P HT Hn ltac:(lia) dst)
      as (s & Es & Ls & Ws & Us).
    { unfold shuffle_tgt. by rewrite length_tabulate. }
    fold E in Es, Ws. rewrite Es. simpl.
    assert (length (shuffle_tgt src T) = length src) as Lt
      by (unfold shuffle_tgt; by rewrite length_tabulate).
    apply copy_remainder_completes; try done; [congruence| |].
    + intros k Hk. fold E in Hk.
      destruct (element_cell E T k ltac:(lia) ltac:(lia) Hk)
        as ((i & j & Hi & Hj & ->) & _).
      destruct (decide (P <= i)) as [Hge|Hlt].
      * apply Ws. exists i. split; [lia|]. by exists j.
      * destruct (Us (Z.to_nat (j * E + i))) as [->| ->]; [done|].
        rewrite Hpre by lia. unfold E. by rewrite shuffle_tgt_cell.
    + intros k Hk. by apply tgt_rest.
  - rewrite unshuffleBytes_eq by done.
    destruct (unshuffle_loop_fills_from src T P HT Hn ltac:(lia) dst)
      as (s & Es & Ls & Ws & Us).
    { unfold unshuffle_tgt. by rewrite length_tabulate. }
    fold E in Es, Ws. rewrite Es. simpl.
    assert (length (unshuffle_tgt src T) = length src) as Lt
      by (unfold unshuffle_tgt; by rewrite length_tabulate).
    apply copy_remainder_completes; try done; [congruence| |].
    + intros k Hk. fold E in Hk.
      destruct (element_cell E T k ltac:(lia) ltac:(lia) Hk)
        as (_ & (i & j & Hi & Hj & ->)).
      destruct (decide (P <= i)) as [Hge|Hlt].
      * apply Ws. exists i. split; [lia|]. by exists j.
      * destruct (Us (Z.to_nat (i * T + j))) as [->| ->]; [done|].
        rewrite Hpre by lia. unfold E. by rewrite unshuffle_tgt_cell.
    + intros k Hk. by apply tgt_rest.
Qed.

Lemma simd_tail_completes_witness :
  (d ← shuffle_loop [1; 2; 3; 4; 5; 6; 7; 8; 9; 10; 11; 12; 13] 4 3 2
         [1; 5; 0; 2; 6; 0; 3; 7; 0; 4; 8; 0; 0];
   copy_remainder [1; 2; 3; 4; 5; 6; 7; 8; 9; 10; 11; 12; 13] 4 3 d)
  = shuffleBytes [1; 2; 3; 4; 5; 6; 7; 8; 9; 10; 11; 12; 13] 4.
Proof.
  destruct (simd_tail_completes
              [1; 2; 3; 4; 5; 6; 7; 8; 9; 10; 11; 12; 13]
              [1; 5; 0; 2; 6; 0; 3; 7; 0; 4; 8; 0; 0] 4 2
              ltac:(lia) ltac:(vm_compute; discriminate)
              ltac:(vm_compute; split; discriminate) eq_refl) as [H _].
  apply H. intros i j Hi Hj.
  assert (i = 0 \/ i = 1) as [-> | ->] by lia;
    assert (j = 0 \/ j = 1 \/ j = 2 \/ j = 3) as [-> |[-> |[-> | ->]]] by lia;
    reflexivity.
Defined.

(** ** In-place transforms *)

(** X6. The in-place transforms: for every buffer of bytes, type size
    and mode, [ShuffleBuffer] leaves a buffer of the same length from
    which [UnshuffleBuffer] with the same type size and mode restores
    the original content; a mode other than byte or bit shuffle changes
    nothing; and what [ShuffleBuffer] leaves under byte (bit) shuffle is
    what [shuffleBytes] ([bitShuffle]) returns. *)
Theorem buffer_roundtrip (data : list Z) (typeSize mode : Z) :
  Forall is_byte data ->
  (exists b,
     ShuffleBuffer data typeSize mode = Some b /\
     len b = len data /\
     UnshuffleBuffer b typeSize mode = Some data) /\
  (mode <> Shuffle1 -> mode <> BitShuffle ->
     ShuffleBuffer data typeSize mode = Some data /\
     UnshuffleBuffer data typeSize mode = Some data) /\
  ShuffleBuffer data typeSize Shuffle1 = shuffleBytes data typeSize /\
  ShuffleBuffer data typeSize BitShuffle = bitShuffle data typeSize.
Proof.
  intros Hb.
  destruct (transforms_invert data typeSize)
    as ((s1 & F1 & B1) & _ & Hbit).
  destruct (Hbit Hb) as ((s2 & F2 & B2) & _).
  destruct (transforms_total data typeSize)
    as ((y1 & E1 & L1) & _ & (y3 & E3 & L3) & _).
  assert (s1 = y1) as -> by congruence.
  assert (s2 = y3) as -> by congruence.
  destruct (transforms_total y1 typeSize) as (_ & (u1 & U1 & LU1) & _).
  destruct (transforms_total y3 typeSize) as (_ & _ & _ & (u3 & U3 & LU3)).
  assert (u1 = data) as -> by congruence.
  assert (u3 = data) as -> by congruence.
  unfold ShuffleBuffer, UnshuffleBuffer. split_and!.
  - case_bool_decide as H1; [|case_bool_decide as H2].
    + rewrite E1. simpl. rewrite copy_exact by done.
      exists y1. split; [done|]. split; [len_lia|].
      rewrite U1. simpl. by rewrite copy_exact by done.
    + rewrite E3. simpl. rewrite copy_exact by done.
      exists y3. split; [done|]. split; [len_lia|].
      rewrite U3. simpl. by rewrite copy_exact by done.
    + by exists data.
  - intros N1 N2. by rewrite !bool_decide_eq_false_2 by done.
  - rewrite bool_decide_eq_true_2 by done. rewrite E1. simpl.
    by rewrite copy_exact by done.
  - rewrite bool_decide_eq_false_2 by done.
    rewrite bool_decide_eq_true_2 by done. rewrite E3. simpl.
    by rewrite copy_exact by done.
Qed.

Lemma buffer_roundtrip_witness :
  exists b,
    ShuffleBuffer (seqZ 0 30) 4 BitShuffle = Some b /\
    len b = len (seqZ 0 30) /\
    UnshuffleBuffer b 4 BitShuffle = Some (seqZ 0 30).
Proof.
  destruct (buffer_roundtrip (seqZ 0 30) 4 BitShuffle) as [H _]; [|exact H].
  apply Forall_forall. intros b Hb. apply elem_of_seqZ in Hb.
  unfold is_byte. lia.
Defined.

(** * More of the header *)

Lemma land_flag_test (f c : Z) :
  0 <= c -> bool_decide (Z.land f (2 ^ c) ≠ 0) = Z.testbit f c.
Proof.
  intros Hc. rewrite land_pow2 by done.
  assert (0 < 2 ^ c) by (apply Z.pow_pos_nonneg; lia).
  destruct (Z.testbit f c).
  - apply bool_decide_eq_true_2. lia.
  - apply bool_decide_eq_false_2. intros Hne. by apply Hne.
Qed.

(** X7. The flag accessors read single bits of the flags byte:
    [HasShuffle] bit 0, [IsMemcpy] bit 1, [HasBitShuffle] bit 2; and
    [ShuffleMode] is [BitShuffle] when bit 2 is set (whatever bit 0 is),
    else [Shuffle1] when bit 0 is set, else [NoShuffle], so that the
    MEMCPY bit, the SPLIT bit and the reserved bits never change it. *)
Theorem flag_accessors (h : Header) :
  HasShuffle h = Z.testbit (Flags h) 0 /\
  IsMemcpy h = Z.testbit (Flags h) 1 /\
  HasBitShuffle h = Z.testbit (Flags h) 2 /\
  ShuffleMode h = (if Z.testbit (Flags h) 2 then BitShuffle
                   else if Z.testbit (Flags h) 0 then Shuffle1
                   else NoShuffle) /\
  (forall h', Z.testbit (Flags h') 0 = Z.testbit (Flags h) 0 ->
              Z.testbit (Flags h') 2 = Z.testbit (Flags h) 2 ->
              ShuffleMode h' = ShuffleMode h).
Proof.
  assert (forall h, HasShuffle h = Z.testbit (Flags h) 0) as H0
    by (intros; apply (land_flag_test _ 0); lia).
  assert (forall h, IsMemcpy h = Z.testbit (Flags h) 1) as H1
    by (intros; apply (land_flag_test _ 1); lia).
  assert (forall h, HasBitShuffle h = Z.testbit (Flags h) 2) as H2
    by (intros; apply (land_flag_test _ 2); lia).
  split_and!; try done.
  - unfold ShuffleMode. by rewrite H0, H2.
  - intros h' E0 E2. unfold ShuffleMode. by rewrite !H0, !H2, E0, E2.
Qed.

Lemma is_byte_high (b n : Z) : is_byte b -> 8 <= n -> Z.testbit b n = false.
Proof.
  intros Hb Hn. apply testbit_high with (k := 8); [|lia].
  change (2 ^ 8) with 256. exact Hb.
Qed.

Lemma le_value_range (b0 b1 b2 b3 : Z) :
  is_byte b0 -> is_byte b1 -> is_byte b2 -> is_byte b3 ->
  0 <= le_value b0 b1 b2 b3 < 2 ^ 32.
Proof. unfold is_byte, le_value. lia. Qed.

Lemma le32_bytes_le_value (b0 b1 b2 b3 : Z) :
  is_byte b0 -> is_byte b1 -> is_byte b2 -> is_byte b3 ->
  le32_bytes (le_value b0 b1 b2 b3) = [b0; b1; b2; b3].
Proof.
  unfold is_byte. intros H0 H1 H2 H3.
  unfold le32_bytes, u8, le_value. rewrite !Z.shiftr_div_pow2 by lia.
  change (2 ^ 8) with 256. change (2 ^ 16) with 65536.
  change (2 ^ 24) with 16777216.
  set (v := b0 + b1 * 256 + b2 * 65536 + b3 * 16777216).
  assert (v / 256 = b1 + b2 * 256 + b3 * 65536) as ->
    by (symmetry; apply (Z.div_unique_pos v 256 _ b0); unfold v; lia).
  assert (v / 65536 = b2 + b3 * 256) as ->
    by (symmetry; apply (Z.div_unique_pos v 65536 _ (b0 + b1 * 256));
        unfold v; lia).
  assert (v / 16777216 = b3) as ->
    by (symmetry;
        apply (Z.div_unique_pos v 16777216 _ (b0 + b1 * 256 + b2 * 65536));
        unfold v; lia).
  assert (v mod 256 = b0) as ->
    by (symmetry;
        apply (Z.mod_unique_pos v 256 (b1 + b2 * 256 + b3 * 65536));
        unfold v; lia).
  assert ((b1 + b2 * 256 + b3 * 65536) mod 256 = b1) as ->
    by (symmetry; apply (Z.mod_unique_pos _ 256 (b2 + b3 * 256)); lia).
  assert ((b2 + b3 * 256) mod 256 = b2) as ->
    by (symmetry; apply (Z.mod_unique_pos _ 256 b3); lia).
  by rewrite Z.mod_small by lia.
Qed.

Lemma le32_le_value (b0 b1 b2 b3 : Z) :
  is_byte b0 -> is_byte b1 -> is_byte b2 -> is_byte b3 ->
  le32 b0 b1 b2 b3 = le_value b0 b1 b2 b3.
Proof.
  intros H0 H1 H2 H3.
  pose proof (le32_combine (le_value b0 b1 b2 b3)
                (le_value_range _ _ _ _ H0 H1 H2 H3)) as Hc.
  pose proof (le32_bytes_le_value _ _ _ _ H0 H1 H2 H3) as Hb.
  unfold le32_bytes in Hb. injection Hb as E0 E1 E2 E3.
  rewrite E0, E1, E2, E3 in Hc. exact Hc.
Qed.

Lemma ParseHeader_explicit (data : list Z) :
  HeaderSize <= len data ->
  ParseHeader data
  = if bool_decide (at0 data 0 ≠ FormatVersion) then Err ErrInvalidVersion
    else Ok (header_at data).
Proof.
  unfold HeaderSize. intros Hlen.
  rewrite <- (take_drop 16 data).
  assert (length (take 16 data) = 16%nat) as Hhd
    by (rewrite length_take; len_lia).
  set (rest := drop 16 data). clearbody rest.
  destruct (take 16 data) as [|x0 hd]; [discriminate|].
  do 15 (destruct hd as [|? hd]; [discriminate|]).
  destruct hd; [|discriminate].
  rewrite ParseHeader_app by (unfold HeaderSize, len; simpl; lia).
  reflexivity.
Qed.

Lemma le32_range (b0 b1 b2 b3 : Z) : 0 <= le32 b0 b1 b2 b3 < 2 ^ 32.
Proof.
  unfold le32.
  assert (forall x, 0 <= u32 x < 2 ^ 32) as Hu
    by (intros x; unfold u32; apply Z.mod_pos_bound; lia).
  repeat apply lor_lt_pow2; try apply Hu; lia.
Qed.

(** The sizes of a parsed header are [uint32] values. *)
Lemma ParseHeader_sizes (data : list Z) (h : Header) :
  ParseHeader data = Ok h ->
  0 <= NBytesOrig h < 2 ^ 32 /\ 0 <= NBytesComp h < 2 ^ 32.
Proof.
  intros Hp. pose proof (ParseHeader_Ok_len _ _ Hp) as Hlen.
  rewrite ParseHeader_explicit in Hp by done.
  case_bool_decide; [discriminate|]. injection Hp as <-.
  split; apply le32_range.
Qed.

Lemma take_16_at0 (data : list Z) :
  HeaderSize <= len data ->
  take 16 data
  = [at0 data 0; at0 data 1; at0 data 2; at0 data 3;
     at0 data 4; at0 data 5; at0 data 6; at0 data 7;
     at0 data 8; at0 data 9; at0 data 10; at0 data 11;
     at0 data 12; at0 data 13; at0 data 14; at0 data 15].
Proof.
  unfold HeaderSize. intros Hlen.
  assert (forall i, 0 <= i < 16 -> at0 data i = at0 (take 16 data) i) as Hat.
  { intros i Hi. unfold at0. by rewrite lookup_take_lt by lia. }
  rewrite (Hat 0), (Hat 1), (Hat 2), (Hat 3), (Hat 4), (Hat 5), (Hat 6),
    (Hat 7), (Hat 8), (Hat 9), (Hat 10), (Hat 11), (Hat 12), (Hat 13),
    (Hat 14), (Hat 15) by lia.
  assert (length (take 16 data) = 16%nat) as Hhd
    by (rewrite length_take; len_lia).
  clear Hat. destruct (take 16 data) as [|x0 hd]; [discriminate|].
  do 15 (destruct hd as [|? hd]; [discriminate|]).
  destruct hd; [|discriminate]. reflexivity.
Qed.

Lemma header_at_well_formed (data : list Z) :
  Forall is_byte data -> at0 data 0 = FormatVersion ->
  well_formed (header_at data) /\
  NBytesOrig (header_at data)
  = le_value (at0 data 4) (at0 data 5) (at0 data 6) (at0 data 7) /\
  BlockSize (header_at data)
  = le_value (at0 data 8) (at0 data 9) (at0 data 10) (at0 data 11) /\
  NBytesComp (header_at data)
  = le_value (at0 data 12) (at0 data 13) (at0 data 14) (at0 data 15).
Proof.
  intros Hb Hv.
  pose proof (fun i => at0_is_byte data i Hb) as B.
  unfold header_at. cbn [NBytesOrig BlockSize NBytesComp].
  rewrite !le32_le_value by done.
  split; [|done]. constructor; cbn; rewrite ?le32_le_value by done;
    try apply le_value_range; try done; change (2 ^ 8) with 256; apply B.
Qed.

(** X8. Queries on arbitrary bytes: [GetInfo] and [GetDecompressedSize]
    never panic.  With fewer than 16 bytes both fail with
    [ErrInvalidHeader]; with 16 or more and a first byte other than 2
    both fail with [ErrInvalidVersion]; otherwise [GetInfo] returns the
    header whose one-byte fields are bytes 1, 2, 3 and whose sizes are
    the little-endian values of bytes 4-7, 8-11 and 12-15 (each below
    [2^32]), and [GetDecompressedSize] returns [int(NBytesOrig)]: the
    field itself where [int] has 64 bits or the field is below [2^31],
    and the negative number [NBytesOrig - 2^32] where [int] has 32 bits
    and the field is [2^31] or more. *)
Theorem header_queries (W : IntWidth) (data : list Z) :
  Forall is_byte data ->
  (len data < 16 ->
     GetInfo data = Err ErrInvalidHeader /\
     GetDecompressedSize W data = Err ErrInvalidHeader) /\
  (16 <= len data -> at0 data 0 <> 2 ->
     GetInfo data = Err ErrInvalidVersion /\
     GetDecompressedSize W data = Err ErrInvalidVersion) /\
  (16 <= len data -> at0 data 0 = 2 ->
     exists h,
       GetInfo data = Ok h /\
       GetDecompressedSize W data
       = Ok match W with
            | Int64 => NBytesOrig h
            | Int32 => if bool_decide (NBytesOrig h < 2 ^ 31)
                       then NBytesOrig h
                       else NBytesOrig h - 2 ^ 32
            end /\
       well_formed h /\
       VersionLZ h = at0 data 1 /\ Flags h = at0 data 2 /\
       TypeSize h = at0 data 3 /\
       NBytesOrig h
       = le_value (at0 data 4) (at0 data 5) (at0 data 6) (at0 data 7) /\
       BlockSize h
       = le_value (at0 data 8) (at0 data 9) (at0 data 10) (at0 data 11) /\
       NBytesComp h
       = le_value (at0 data 12) (at0 data 13) (at0 data 14) (at0 data 15)).
Proof.
  intros Hb. unfold GetInfo, GetDecompressedSize. split_and!.
  - intros Hlen. unfold ParseHeader, HeaderSize.
    by rewrite bool_decide_eq_true_2.
  - intros Hlen Hv. rewrite ParseHeader_explicit by done.
    by rewrite bool_decide_eq_true_2.
  - intros Hlen Hv. rewrite ParseHeader_explicit by done.
    rewrite bool_decide_eq_false_2 by (intros Hne; by apply Hne).
    destruct (header_at_well_formed data Hb Hv) as (Hwf & Ho & Hbl & Hc).
    exists (header_at data). cbn [rbind].
    rewrite (to_int_u32 W (NBytesOrig (header_at data))) by apply Hwf.
    split_and!; done.
Qed.

Lemma header_queries_witness :
  (exists h,
     GetInfo [2; 1; 1; 4; 255; 255; 255; 255; 160; 15; 0; 0; 44; 1; 0; 0; 9; 9]
     = Ok h /\
     GetDecompressedSize Int32
       [2; 1; 1; 4; 255; 255; 255; 255; 160; 15; 0; 0; 44; 1; 0; 0; 9; 9]
     = Ok (-1) /\
     NBytesOrig h = 4294967295 /\ NBytesComp h = 300) /\
  (exists h,
     GetInfo [2; 1; 1; 4; 255; 255; 255; 255; 160; 15; 0; 0; 44; 1; 0; 0; 9; 9]
     = Ok h /\
     GetDecompressedSize Int64
       [2; 1; 1; 4; 255; 255; 255; 255; 160; 15; 0; 0; 44; 1; 0; 0; 9; 9]
     = Ok 4294967295).
Proof.
  assert (Forall is_byte
            [2; 1; 1; 4; 255; 255; 255; 255; 160; 15; 0; 0; 44; 1; 0; 0; 9; 9])
    as Hb by (repeat constructor; unfold is_byte; lia).
  destruct (header_queries Int32 _ Hb) as (_ & _ & H32).
  destruct (header_queries Int64 _ Hb) as (_ & _ & H64).
  destruct H32 as (h & Hi & Hs & _ & _ & _ & _ & Ho & _ & Hc);
    [vm_compute; discriminate|reflexivity|].
  destruct H64 as (h' & Hi' & Hs' & _ & _ & _ & _ & Ho' & _);
    [vm_compute; discriminate|reflexivity|].
  split.
  - exists h. split; [exact Hi|]. split; [|split].
    + rewrite Hs, Ho. reflexivity.
    + rewrite Ho. reflexivity.
    + rewrite Hc. reflexivity.
  - exists h'. split; [exact Hi'|]. rewrite Hs', Ho'. reflexivity.
Defined.

(** X9. Parse, then serialize: when [ParseHeader] accepts a buffer of
    bytes, [Bytes] of the header it returns is the first sixteen bytes of
    that buffer. *)
Theorem parse_then_serialize (data : list Z) (h : Header) :
  Forall is_byte data ->
  ParseHeader data = Ok h ->
  Bytes h = Some (take 16 data).
Proof.
  intros Hb Hp. pose proof (ParseHeader_Ok_len _ _ Hp) as Hlen.
  rewrite ParseHeader_explicit in Hp by done.
  case_bool_decide as Hv; [discriminate|]. injection Hp as <-.
  pose proof (fun i => at0_is_byte data i Hb) as B.
  rewrite Bytes_layout, take_16_at0 by done.
  unfold header_at. cbn [Version VersionLZ Flags TypeSize NBytesOrig BlockSize NBytesComp].
  rewrite !le32_le_value by done.
  by rewrite !le32_bytes_le_value by done.
Qed.

Lemma parse_then_serialize_witness :
  Bytes {| Version := 2; VersionLZ := 1; Flags := 1; TypeSize := 4;
           NBytesOrig := 4000; BlockSize := 4000; NBytesComp := 300 |}
  = Some (take 16 [2; 1; 1; 4; 160; 15; 0; 0; 160; 15; 0; 0; 44; 1; 0; 0; 9; 9]).
Proof.
  apply (parse_then_serialize
           [2; 1; 1; 4; 160; 15; 0; 0; 160; 15; 0; 0; 44; 1; 0; 0; 9; 9]).
  - repeat constructor; unfold is_byte; lia.
  - vm_compute. reflexivity.
Defined.

(** * More of the pipeline *)

(** ** Compression *)

Lemma validateOptions_eq (opts : Options) :
  validateOptions opts
  = {| opt_Codec := opt_Codec opts;
       opt_Level := Z.max 1 (Z.min 9 (opt_Level opts));
       opt_Shuffle := opt_Shuffle opts;
       opt_TypeSize := Z.max 1 (opt_TypeSize opts);
       opt_BlockSize := opt_BlockSize opts;
       opt_NumThreads := opt_NumThreads opts |}.
Proof.
  unfold validateOptions. destruct opts as [c l s t b n]; simpl.
  repeat case_bool_decide; simpl in *; repeat case_bool_decide; simpl in *;
    f_equal; lia.
Qed.

Lemma nonempty_len (data : list Z) : data <> [] <-> len data <> 0.
Proof. unfold len. destruct data; simpl; split; intros H; try done; lia. Qed.

(** Every way [compressBackend] can end. *)
Lemma compressBackend_outcome codecs (data : list Z) (opts : Options) :
  match codecs !! opt_Codec opts with
  | None => compressBackend codecs data opts = Err ErrInvalidCodec
  | Some c =>
    exists shuffled,
      applyShuffle data opts = Some shuffled /\ len shuffled = len data /\
      match Codec_Compress c shuffled (opt_Level opts) with
      | Panic => compressBackend codecs data opts = Panic
      | Err _ => compressBackend codecs data opts = Err ErrCompressionFailed
      | Ok compressed =>
        let useMemcpy := bool_decide (len compressed >= len data) in
        let payload := if useMemcpy then data else compressed in
        exists hb,
          Bytes (buildHeader data payload opts useMemcpy) = Some hb /\
          compressBackend codecs data opts = Ok (hb ++ payload)
      end
  end.
Proof.
  destruct (codecs !! opt_Codec opts) as [c|] eqn:Hc.
  - destruct (applyShuffle_total data opts) as (shuffled & Hs & Ls).
    exists shuffled. split; [done|]. split; [len_lia|].
    destruct (Codec_Compress c shuffled (opt_Level opts)) as [z|e|] eqn:Hz.
    + by apply (compressBackend_Ok codecs data opts c shuffled z).
    + unfold compressBackend. rewrite Hc, Hs. cbn [must rbind]. by rewrite Hz.
    + unfold compressBackend. rewrite Hc, Hs. cbn [must rbind]. by rewrite Hz.
  - unfold compressBackend. by rewrite Hc.
Qed.

(** X10. Outcomes of compression: empty input fails with
    [ErrInvalidData] before the codec is looked up; a codec id that is
    not registered fails with [ErrInvalidCodec]; otherwise the shuffle
    step cannot fail and the codec is called once, on data as long as
    the input and with a level between 1 and 9: its error becomes
    [ErrCompressionFailed] and its success a frame.  No other error
    comes out of [CompressWithOptions], and it panics only if the codec
    does. *)
Theorem compress_outcomes codecs (data : list Z) (opts : Options) :
  (data = [] -> CompressWithOptions codecs data opts = Err ErrInvalidData) /\
  (data <> [] -> codecs !! opt_Codec opts = None ->
     CompressWithOptions codecs data opts = Err ErrInvalidCodec) /\
  (forall c, data <> [] -> codecs !! opt_Codec opts = Some c ->
     exists shuffled level,
       applyShuffle data (validateOptions opts) = Some shuffled /\
       len shuffled = len data /\
       level = opt_Level (validateOptions opts) /\ 1 <= level <= 9 /\
       match Codec_Compress c shuffled level with
       | Panic => CompressWithOptions codecs data opts = Panic
       | Err _ => CompressWithOptions codecs data opts = Err ErrCompressionFailed
       | Ok _ => exists frame, CompressWithOptions codecs data opts = Ok frame
       end).
Proof.
  destruct (validateOptions_fields opts) as (Hcodec & _ & _ & Hlevel).
  split_and!.
  - intros ->. reflexivity.
  - intros Hne Hc. unfold CompressWithOptions.
    rewrite bool_decide_eq_false_2 by (by apply nonempty_len).
    pose proof (compressBackend_outcome codecs data (validateOptions opts)) as H.
    by rewrite Hcodec, Hc in H.
  - intros c Hne Hc. unfold CompressWithOptions.
    rewrite bool_decide_eq_false_2 by (by apply nonempty_len).
    pose proof (compressBackend_outcome codecs data (validateOptions opts)) as H.
    rewrite Hcodec, Hc in H. destruct H as (shuffled & Hs & Ls & H).
    exists shuffled, (opt_Level (validateOptions opts)).
    split_and!; try done; try lia.
    destruct (Codec_Compress c shuffled (opt_Level (validateOptions opts)));
      try done.
    destruct H as (hb & _ & ->). eauto.
Qed.

Lemma compress_outcomes_witness :
  CompressWithOptions identity_registry [] DefaultOptions = Err ErrInvalidData /\
  CompressWithOptions ∅ [1; 2] DefaultOptions = Err ErrInvalidCodec.
Proof.
  destruct (compress_outcomes identity_registry [] DefaultOptions) as (H1 & _).
  destruct (compress_outcomes ∅ [1; 2] DefaultOptions) as (_ & H2 & _).
  split; [apply H1; reflexivity|apply H2; [discriminate|reflexivity]].
Defined.

(** What a successful [CompressWithOptions] went through. *)
Lemma compress_inv codecs (data : list Z) (opts : Options) (frame : list Z) :
  CompressWithOptions codecs data opts = Ok frame ->
  data <> [] /\
  exists c shuffled compressed hb,
    codecs !! opt_Codec opts = Some c /\
    applyShuffle data (validateOptions opts) = Some shuffled /\
    Codec_Compress c shuffled (opt_Level (validateOptions opts)) = Ok compressed /\
    let useMemcpy := bool_decide (len compressed >= len data) in
    let payload := if useMemcpy then data else compressed in
    Bytes (buildHeader data payload (validateOptions opts) useMemcpy) = Some hb /\
    frame = hb ++ payload.
Proof.
  unfold CompressWithOptions. case_bool_decide as Hne; [discriminate|].
  intros Hok. split; [by apply nonempty_len|].
  destruct (validateOptions_fields opts) as (Hcodec & _).
  pose proof (compressBackend_outcome codecs data (validateOptions opts)) as H.
  rewrite Hcodec in H.
  destruct (codecs !! opt_Codec opts) as [c|]; [|congruence].
  destruct H as (shuffled & Hs & _ & H).
  destruct (Codec_Compress c shuffled (opt_Level (validateOptions opts)))
    as [z| |] eqn:Hz; [|congruence|congruence].
  destruct H as (hb & Hhb & Hres).
  exists c, shuffled, z, hb. split_and!; try done. congruence.
Qed.

Lemma buildHeader_ShuffleMode (data payload : list Z) (opts : Options)
    (useMemcpy : bool) :
  ShuffleMode (buildHeader data payload opts useMemcpy)
  = if bool_decide (opt_Shuffle opts = Shuffle1) then Shuffle1
    else if bool_decide (opt_Shuffle opts = BitShuffle) then BitShuffle
    else NoShuffle.
Proof.
  unfold ShuffleMode, HasBitShuffle, HasShuffle, buildHeader. simpl.
  destruct useMemcpy; repeat case_bool_decide; done.
Qed.

(** X11. Shape of a produced frame: when [CompressWithOptions] succeeds
    on an input with [len data + 16 < 2^32], the frame is at least 16
    bytes long and at most 16 bytes longer than the input, and its header
    parses to format version 2, the codec id and the clamped type size
    as bytes, [NBytesOrig] and [BlockSize] equal to [len data],
    [NBytesComp] equal to the length of the frame, and the requested
    shuffle mode; [GetDecompressedSize] of the frame is [len data] on
    every target whose [int] holds [len data]. *)
Theorem compress_frame_shape codecs (data : list Z) (opts : Options)
    (frame : list Z) :
  len data + 16 < 2 ^ 32 ->
  CompressWithOptions codecs data opts = Ok frame ->
  16 <= len frame <= 16 + len data /\
  (forall W, len data < 2 ^ (int_bits W - 1) ->
             GetDecompressedSize W frame = Ok (len data)) /\
  exists h,
    GetInfo frame = Ok h /\
    Version h = 2 /\
    VersionLZ h = u8 (opt_Codec opts) /\
    TypeSize h = u8 (Z.max 1 (opt_TypeSize opts)) /\
    NBytesOrig h = len data /\
    BlockSize h = len data /\
    NBytesComp h = len frame /\
    ShuffleMode h = (if bool_decide (opt_Shuffle opts = Shuffle1) then Shuffle1
                     else if bool_decide (opt_Shuffle opts = BitShuffle)
                          then BitShuffle
                          else NoShuffle).
Proof.
  intros Hsize Hok.
  destruct (compress_inv codecs data opts frame Hok)
    as (Hne & c & shuffled & compressed & hb & Hc & Hs & Hz & Hhb & ->).
  set (useMemcpy := bool_decide (len compressed >= len data)) in *.
  set (payload := if useMemcpy then data else compressed) in *.
  pose proof (length_Bytes _ _ Hhb) as Lhb.
  pose proof (len_nonneg data) as Hd.
  pose proof (len_nonneg compressed) as Hcz.
  assert (0 <= len payload <= len data) as Hpl.
  { unfold payload, useMemcpy. case_bool_decide; lia. }
  assert (len (hb ++ payload) = 16 + len payload) as Lf
    by (unfold len; rewrite length_app; lia).
  assert (ParseHeader (hb ++ payload)
          = Ok (buildHeader data payload (validateOptions opts) useMemcpy))
    as Hp.
  { rewrite ParseHeader_app by (unfold HeaderSize, len; lia).
    by apply buildHeader_parse. }
  split; [lia|].
  assert (u32 (len data) = len data) as Ho
    by (unfold u32; apply Z.mod_small; lia).
  split.
  - intros W HW. unfold GetDecompressedSize. rewrite Hp. cbn [rbind].
    unfold buildHeader, NBytesOrig. rewrite Ho.
    by rewrite to_int_fits by lia.
  - eexists. split; [exact Hp|].
    rewrite buildHeader_ShuffleMode.
    rewrite (validateOptions_eq opts).
    unfold buildHeader. cbn.
    rewrite Ho. split_and!; try done.
    rewrite Lf. unfold u32, HeaderSize. apply Z.mod_small. lia.
Qed.

Lemma compress_frame_shape_witness :
  16 <= len [2; 1; 3; 2; 4; 0; 0; 0; 4; 0; 0; 0; 20; 0; 0; 0; 7; 7; 7; 9]
     <= 16 + len [7; 7; 7; 9] /\
  GetDecompressedSize Int32
    [2; 1; 3; 2; 4; 0; 0; 0; 4; 0; 0; 0; 20; 0; 0; 0; 7; 7; 7; 9]
  = Ok (len [7; 7; 7; 9]).
Proof.
  destruct (compress_frame_shape identity_registry [7; 7; 7; 9]
              {| opt_Codec := LZ4; opt_Level := 5; opt_Shuffle := Shuffle1;
                 opt_TypeSize := 2; opt_BlockSize := 0; opt_NumThreads := 0 |}
              [2; 1; 3; 2; 4; 0; 0; 0; 4; 0; 0; 0; 20; 0; 0; 0; 7; 7; 7; 9])
    as (H1 & H2 & _); [vm_compute; reflexivity|vm_compute; reflexivity|].
  split; [exact H1|apply H2; vm_compute; reflexivity].
Defined.

(** X12. Clamping: [Compress] with any level and type size is [Compress]
    with the level clamped to 1..9 and the type size raised to at least
    1; so a level of 0 or below behaves as 1, a level above 9 as 9, and
    a type size of 0 or below as 1. *)
Theorem compress_clamps codecs (data : list Z) (codec level shuffle typeSize : Z) :
  Compress codecs data codec level shuffle typeSize
  = Compress codecs data codec
      (Z.max 1 (Z.min 9 level)) shuffle (Z.max 1 typeSize).
Proof.
  unfold Compress, CompressWithOptions. case_bool_decide; [done|].
  f_equal. rewrite !validateOptions_eq. cbn. f_equal; lia.
Qed.

(** ** Decompression *)

Lemma slice_payload (hb payload : list Z) :
  length hb = 16%nat ->
  slice (hb ++ payload) 16 (16 + len payload) = Some payload.
Proof.
  intros Hhb. pose proof (len_nonneg payload) as Hp.
  rewrite slice_Some; [|lia|unfold len; rewrite length_app; lia].
  f_equal. change (Z.to_nat 16) with 16%nat.
  rewrite drop_app_length' by done.
  apply take_ge. unfold len. lia.
Qed.

(** [DecompressWithSize] once the header is read and the payload cut. *)
Lemma decompress_step (W : IntWidth) codecs (data : list Z) (h : Header)
    (payload : list Z) (ts : Z) :
  ParseHeader data = Ok h ->
  slice data 16 (NBytesComp h) = Some payload ->
  DecompressWithSize W codecs data ts
  = (decoded <~ decodePayload W codecs h payload;;
     final <~ must (applyUnshuffle h ts decoded);;
     if bool_decide (len final ≠ to_int W (NBytesOrig h))
     then Err ErrSizeMismatch
     else Ok final).
Proof.
  intros Hp Hs.
  pose proof (ParseHeader_Ok_len _ _ Hp) as Hlen. unfold HeaderSize in Hlen.
  assert (16 <= NBytesComp h <= len data) as Hrange.
  { unfold slice in Hs. case_bool_decide; [lia|discriminate]. }
  pose proof (to_int_le W (NBytesComp h) ltac:(lia)) as Hint.
  unfold DecompressWithSize, HeaderSize.
  rewrite bool_decide_eq_false_2 by lia. unfold decompressBackend.
  rewrite Hp. cbn [rbind]. unfold HeaderSize.
  rewrite !bool_decide_eq_false_2 by lia.
  rewrite Hs. reflexivity.
Qed.

Lemma copy_make (payload : list Z) : copy (make (len payload)) payload = payload.
Proof. apply copy_exact. rewrite length_make. unfold len. lia. Qed.

(** A length is [int(x)] for a [uint32] [x] only if [x] fits [int]. *)
Lemma to_int_nonneg_u32 (W : IntWidth) (x : Z) :
  0 <= x < 2 ^ 32 -> 0 <= to_int W x ->
  to_int W x = x /\ x < 2 ^ (int_bits W - 1).
Proof.
  intros Hx. rewrite to_int_u32 by done. destruct W; cbn [int_bits].
  - change (2 ^ (32 - 1)) with (2 ^ 31). case_bool_decide; lia.
  - change (2 ^ (64 - 1)) with (2 ^ 63). lia.
Qed.

(** X13. Outcomes of decompression past the header checks, for a frame
    whose header [h] parses and whose payload is [data[16:NBytesComp]].
    Under the MEMCPY flag no codec is looked up: the payload goes through
    the inverse shuffle and is returned if it is [int(NBytesOrig)] bytes
    long, [ErrSizeMismatch] otherwise, whatever the registry holds.
    Without the flag, a codec byte that is not registered gives
    [ErrInvalidCodec]; the registered codec is called once with the
    payload and [int(NBytesOrig)], which is negative where [int] has 32
    bits and [NBytesOrig] is [2^31] or more; its error becomes
    [ErrDecompressionFailed], and the call panics only if the codec does.
    The inverse shuffle never fails and keeps the length, and every
    successful result is [NBytesOrig] bytes long, with an [NBytesOrig]
    that fits [int]. *)
Theorem decompress_outcomes (W : IntWidth) codecs (data : list Z) (h : Header)
    (payload : list Z) (ts : Z) :
  ParseHeader data = Ok h ->
  slice data 16 (NBytesComp h) = Some payload ->
  (IsMemcpy h = true ->
     exists final,
       applyUnshuffle h ts payload = Some final /\
       DecompressWithSize W codecs data ts
       = if bool_decide (len payload = to_int W (NBytesOrig h)) then Ok final
         else Err ErrSizeMismatch) /\
  (IsMemcpy h = false -> codecs !! VersionLZ h = None ->
     DecompressWithSize W codecs data ts = Err ErrInvalidCodec) /\
  (forall c, IsMemcpy h = false -> codecs !! VersionLZ h = Some c ->
     match Codec_Decompress c payload (to_int W (NBytesOrig h)) with
     | Panic => DecompressWithSize W codecs data ts = Panic
     | Err _ => DecompressWithSize W codecs data ts = Err ErrDecompressionFailed
     | Ok decoded =>
       exists final,
         applyUnshuffle h ts decoded = Some final /\
         DecompressWithSize W codecs data ts
         = if bool_decide (len decoded = to_int W (NBytesOrig h)) then Ok final
           else Err ErrSizeMismatch
     end) /\
  (forall out, DecompressWithSize W codecs data ts = Ok out ->
               len out = NBytesOrig h /\
               NBytesOrig h < 2 ^ (int_bits W - 1)).
Proof.
  intros Hp Hs. rewrite (decompress_step W codecs data h payload ts Hp Hs).
  assert (forall decoded,
    exists final,
      applyUnshuffle h ts decoded = Some final /\
      (final <~ must (applyUnshuffle h ts decoded);;
       if bool_decide (len final ≠ to_int W (NBytesOrig h))
       then Err ErrSizeMismatch else Ok final)
      = if bool_decide (len decoded = to_int W (NBytesOrig h)) then Ok final
        else Err ErrSizeMismatch) as Hun.
  { intros decoded.
    destruct (applyUnshuffle_total h ts decoded) as (final & Hf & Lf).
    exists final. split; [done|]. rewrite Hf. cbn [must rbind].
    assert (len final = len decoded) as -> by len_lia.
    repeat case_bool_decide; done. }
  split_and!.
  - intros Hm. unfold decodePayload. rewrite Hm. cbn [rbind].
    rewrite copy_make. apply Hun.
  - intros Hm Hc. unfold decodePayload. by rewrite Hm, Hc.
  - intros c Hm Hc. unfold decodePayload. rewrite Hm, Hc.
    destruct (Codec_Decompress c payload (to_int W (NBytesOrig h)))
      as [decoded|e|]; [cbn [rbind]; apply Hun|done|done].
  - intros out.
    destruct (decodePayload W codecs h payload) as [decoded|e|]; try done.
    cbn [rbind].
    destruct (applyUnshuffle h ts decoded) as [final|]; try done.
    cbn [must rbind]. case_bool_decide as Hn; [done|].
    intros [= <-].
    assert (len final = to_int W (NBytesOrig h)) as Hl
      by (by destruct (decide (len final = to_int W (NBytesOrig h)))).
    destruct (ParseHeader_sizes _ _ Hp) as [Ho _].
    pose proof (len_nonneg final) as Hf.
    destruct (to_int_nonneg_u32 W (NBytesOrig h) Ho ltac:(lia)) as [E1 E2].
    split; [lia|done].
Qed.

Lemma decompress_outcomes_witness :
  DecompressWithSize Int32 ∅
    [2; 1; 0; 1; 3; 0; 0; 0; 3; 0; 0; 0; 19; 0; 0; 0; 7; 8; 9] 0
  = Err ErrInvalidCodec.
Proof.
  destruct (decompress_outcomes Int32 ∅
              [2; 1; 0; 1; 3; 0; 0; 0; 3; 0; 0; 0; 19; 0; 0; 0; 7; 8; 9]
              {| Version := 2; VersionLZ := 1; Flags := 0; TypeSize := 1;
                 NBytesOrig := 3; BlockSize := 3; NBytesComp := 19 |}
              [7; 8; 9] 0) as (_ & H & _);
    [vm_compute; reflexivity|vm_compute; reflexivity|].
  apply H; reflexivity.
Defined.

(** X26. Error results of decompression, on every target: an input of
    fewer than 16 bytes fails with [ErrInvalidHeader]; an input of 16
    bytes or more whose first byte is not 2 fails with
    [ErrInvalidVersion]; a frame whose header parses fails with
    [ErrInvalidData] when its [NBytesComp] is below 16, and when it
    exceeds the input length and [int] has 64 bits or the field is below
    [2^31]; when the decode step and the inverse shuffle leave a buffer
    whose length differs from [int(NBytesOrig)], the call fails with
    [ErrSizeMismatch].  Where [int] has 32 bits, an input of fewer than
    [2^31] bytes whose header parses with an [NBytesComp] of [2^31] or
    more makes the call panic. *)
Theorem decompress_errors (W : IntWidth) codecs (typeSize : Z) :
  (forall data,
     len data < 16 ->
     DecompressWithSize W codecs data typeSize = Err ErrInvalidHeader) /\
  (forall data v,
     16 <= len data -> index data 0 = Some v -> v <> 2 ->
     DecompressWithSize W codecs data typeSize = Err ErrInvalidVersion) /\
  (forall data h,
     ParseHeader data = Ok h ->
     NBytesComp h < 16 \/
     (NBytesComp h > len data /\ (W = Int64 \/ NBytesComp h < 2 ^ 31)) ->
     DecompressWithSize W codecs data typeSize = Err ErrInvalidData) /\
  (forall data h payload decoded final,
     ParseHeader data = Ok h ->
     slice data 16 (NBytesComp h) = Some payload ->
     decodePayload W codecs h payload = Ok decoded ->
     applyUnshuffle h typeSize decoded = Some final ->
     len final <> to_int W (NBytesOrig h) ->
     DecompressWithSize W codecs data typeSize = Err ErrSizeMismatch) /\
  (forall data h,
     W = Int32 ->
     ParseHeader data = Ok h ->
     len data < 2 ^ 31 -> 2 ^ 31 <= NBytesComp h ->
     DecompressWithSize W codecs data typeSize = Panic).
Proof.
  split_and!.
  - intros data Hlen. unfold DecompressWithSize, HeaderSize.
    by rewrite bool_decide_eq_true_2.
  - intros data v Hlen Hv Hne. unfold DecompressWithSize, HeaderSize.
    rewrite bool_decide_eq_false_2 by lia. unfold decompressBackend.
    destruct (ParseHeader_cases data Hlen) as (h & H0 & _ & ->).
    rewrite bool_decide_eq_true_2; [done|].
    unfold FormatVersion. congruence.
  - intros data h Hp Hbad. pose proof (ParseHeader_Ok_len _ _ Hp) as Hlen.
    unfold HeaderSize in Hlen.
    destruct (ParseHeader_sizes _ _ Hp) as [_ Hc].
    unfold DecompressWithSize, HeaderSize.
    rewrite bool_decide_eq_false_2 by lia. unfold decompressBackend.
    rewrite Hp. cbn [rbind]. unfold HeaderSize.
    destruct Hbad as [Hlow|[Hhigh Hfit]].
    + rewrite (bool_decide_eq_true_2 (NBytesComp h < 16)) by done.
      by case_bool_decide.
    + rewrite bool_decide_eq_true_2; [done|].
      rewrite to_int_u32 by done.
      destruct Hfit as [->|Hfit]; [lia|].
      destruct W; [|lia]. by rewrite bool_decide_eq_true_2.
  - intros data h payload decoded final Hp Hs Hd Hu Hne.
    rewrite (decompress_step W codecs data h payload typeSize Hp Hs).
    rewrite Hd. cbn [rbind]. rewrite Hu. cbn [must rbind].
    by rewrite bool_decide_eq_true_2.
  - intros data h -> Hp Hlen Hbig.
    pose proof (ParseHeader_Ok_len _ _ Hp) as Hmin. unfold HeaderSize in Hmin.
    destruct (ParseHeader_sizes _ _ Hp) as [_ Hc].
    unfold DecompressWithSize, HeaderSize.
    rewrite bool_decide_eq_false_2 by lia. unfold decompressBackend.
    rewrite Hp. cbn [rbind]. unfold HeaderSize.
    rewrite to_int_u32 by done. cbn match.
    rewrite (bool_decide_eq_false_2 (NBytesComp h < 2 ^ 31)) by lia.
    pose proof (len_nonneg data) as Hd.
    rewrite !bool_decide_eq_false_2 by lia.
    unfold slice. by rewrite bool_decide_eq_false_2 by lia.
Qed.

Lemma decompress_errors_witness :
  DecompressWithSize Int32 ∅ [1; 2; 3; 4] 0 = Err ErrInvalidHeader /\
  DecompressWithSize Int32 ∅ (99 :: replicate 15 0) 0 = Err ErrInvalidVersion /\
  DecompressWithSize Int32 ∅
    ([2; 1; 2; 1; 100; 0; 0; 0; 100; 0; 0; 0; 216; 0; 0; 0] ++ replicate 50 0) 0
  = Err ErrInvalidData /\
  DecompressWithSize Int32 ∅
    ([2; 1; 2; 4; 100; 0; 0; 0; 100; 0; 0; 0; 26; 0; 0; 0] ++ replicate 10 7) 0
  = Err ErrSizeMismatch /\
  DecompressWithSize Int32 ∅
    ([2; 1; 2; 1; 100; 0; 0; 0; 100; 0; 0; 0; 0; 0; 0; 128] ++ replicate 50 0) 0
  = Panic.
Proof.
  destruct (decompress_errors Int32 ∅ 0) as (H1 & H2 & H3 & H4 & H5).
  split_and!.
  - apply H1. reflexivity.
  - apply (H2 _ 99); [discriminate|reflexivity|discriminate].
  - eapply H3; [vm_compute; reflexivity|].
    right. split; [reflexivity|right; reflexivity].
  - eapply H4; [vm_compute; reflexivity|vm_compute; reflexivity|
                vm_compute; reflexivity|vm_compute; reflexivity|].
    vm_compute. discriminate.
  - eapply H5; [reflexivity|vm_compute; reflexivity|reflexivity|].
    vm_compute. discriminate.
Defined.

(** ** Codec adapters *)

Lemma ReadFull_make (r : Reader) (expectedSize : Z) :
  0 <= expectedSize ->
  let m := len (delivered r) in
  ReadFull r (make expectedSize)
  = if bool_decide (expectedSize <= m)
    then (take (Z.to_nat expectedSize) (delivered r), expectedSize, None)
    else (delivered r ++ make (expectedSize - m), m,
          Some match ending r with
               | io_EOF => if bool_decide (m > 0) then io_ErrUnexpectedEOF
                           else io_EOF
               | e => e
               end).
Proof.
  intros He m. unfold ReadFull.
  assert (len (make expectedSize) = expectedSize) as Hm
    by (unfold len; rewrite length_make; lia).
  rewrite Hm. fold m. pose proof (len_nonneg (delivered r)) as Hd. fold m in Hd.
  unfold copy. rewrite length_make.
  destruct (decide (expectedSize <= m)) as [Hle|Hle].
  - rewrite (bool_decide_eq_true_2 (expectedSize <= m)) by done.
    rewrite Z.min_l by lia. rewrite bool_decide_eq_true_2 by lia.
    rewrite Nat.min_l by (unfold m, len in *; lia).
    rewrite drop_ge by (rewrite length_make; lia). by rewrite app_nil_r.
  - rewrite (bool_decide_eq_false_2 (expectedSize <= m)) by done.
    rewrite Z.min_r by lia.
    rewrite (bool_decide_eq_false_2 (m >= expectedSize)) by lia.
    rewrite Nat.min_r by (unfold m, len in *; lia).
    rewrite take_ge by lia.
    assert (drop (length (delivered r)) (make expectedSize)
            = make (expectedSize - m)) as ->.
    { unfold make. rewrite drop_replicate. f_equal. unfold m, len in *. lia. }
    by destruct (ending r).
Qed.

(** What the zlib adapter returns once the reader is created. *)
Lemma zlib_read_result
    (NewReader : list Z -> result CodecError Reader)
    (data : list Z) (expectedSize : Z) (r : Reader) :
  NewReader data = Ok r -> 0 <= expectedSize ->
  zlibCodec_Decompress NewReader data expectedSize
  = if bool_decide (expectedSize <= len (delivered r))
    then Ok (take (Z.to_nat expectedSize) (delivered r))
    else match ending r with
         | io_other msg => Err msg
         | _ => Ok (delivered r)
         end.
Proof.
  intros Hr He. set (m := len (delivered r)).
  pose proof (len_nonneg (delivered r)) as Hd. fold m in Hd.
  unfold zlibCodec_Decompress. rewrite Hr. cbn [rbind].
  rewrite bool_decide_eq_false_2 by lia.
  rewrite ReadFull_make by done. fold m.
  destruct (bool_decide_reflect (expectedSize <= m)) as [Hle|Hlt].
  - rewrite slice_Some
      by (unfold len; rewrite ?length_take; unfold m, len in *; lia).
    cbn [must]. f_equal. rewrite drop_0, Z.sub_0_r.
    apply take_ge. rewrite length_take. lia.
  - assert (must (E := CodecError)
              (slice (delivered r ++ make (expectedSize - m)) 0 m)
            = Ok (delivered r)) as Hs.
    { rewrite slice_Some
        by (unfold len; rewrite ?length_app; unfold m, len in *; lia).
      cbn [must]. f_equal. rewrite drop_0, Z.sub_0_r.
      rewrite take_app_le by (unfold m, len; lia).
      apply take_ge. unfold m, len. lia. }
    destruct (ending r); try done. by case_bool_decide.
Qed.

(** C8 (amended). What the built-in adapters return.  For
    [expected_size >= 0]: zlib fails when the reader cannot be created,
    and when the stream holds fewer than [expected_size] bytes and ends
    in an error other than [io.EOF] and [io.ErrUnexpectedEOF]; otherwise
    it returns the first [expected_size] bytes of the stream, or the
    whole shorter stream without error, a stream cut short included.
    LZ4 and LZ4HC fail with the library's error and otherwise return the
    first [n] bytes of the buffer for the count [n] the library reports;
    ZSTD and Snappy fail with the library's error and otherwise return
    the library's buffer, of any length.  For [expected_size < 0] every
    adapter panics in [make] (zlib after it has created the reader).  In
    the pipeline, where [expected_size] is [int(NBytesOrig)], the codec's
    error becomes [ErrDecompressionFailed] and a result of another length
    is rejected by the size check with [ErrSizeMismatch]. *)
Theorem codec_decompress_result (L : Libraries) (data : list Z)
    (expectedSize : Z) :
  (expectedSize < 0 ->
     Codec_Decompress (lz4Codec L) data expectedSize = Panic /\
     Codec_Decompress (lz4hcCodec L) data expectedSize = Panic /\
     Codec_Decompress (zstdCodec L) data expectedSize = Panic /\
     Codec_Decompress (snappyCodec L) data expectedSize = Panic /\
     (forall r, kzlib_NewReader_ L data = Ok r ->
        Codec_Decompress (zlibCodec L) data expectedSize = Panic)) /\
  (0 <= expectedSize ->
     (forall e, kzlib_NewReader_ L data = Err e ->
        Codec_Decompress (zlibCodec L) data expectedSize = Err e) /\
     (forall r, kzlib_NewReader_ L data = Ok r ->
        let m := len (delivered r) in
        (expectedSize <= m ->
           Codec_Decompress (zlibCodec L) data expectedSize
           = Ok (take (Z.to_nat expectedSize) (delivered r))) /\
        (m < expectedSize ->
         ending r = io_EOF \/ ending r = io_ErrUnexpectedEOF ->
           Codec_Decompress (zlibCodec L) data expectedSize
           = Ok (delivered r)) /\
        (forall msg, m < expectedSize -> ending r = io_other msg ->
           Codec_Decompress (zlibCodec L) data expectedSize = Err msg)) /\
     (forall c, c = lz4Codec L \/ c = lz4hcCodec L ->
        (forall buf n msg,
           lz4_UncompressBlock_ L data (make expectedSize) = (buf, n, Some msg) ->
           Codec_Decompress c data expectedSize = Err msg) /\
        (forall buf n,
           lz4_UncompressBlock_ L data (make expectedSize) = (buf, n, None) ->
           0 <= n <= len buf ->
           Codec_Decompress c data expectedSize = Ok (take (Z.to_nat n) buf))) /\
     (forall buf e,
        zstd_DecodeAll L data expectedSize = (buf, Some e) ->
        Codec_Decompress (zstdCodec L) data expectedSize = Err e) /\
     (forall buf,
        zstd_DecodeAll L data expectedSize = (buf, None) ->
        Codec_Decompress (zstdCodec L) data expectedSize = Ok buf) /\
     (forall buf e,
        snappy_Decode L (make expectedSize) data = (buf, Some e) ->
        Codec_Decompress (snappyCodec L) data expectedSize = Err e) /\
     (forall buf,
        snappy_Decode L (make expectedSize) data = (buf, None) ->
        Codec_Decompress (snappyCodec L) data expectedSize = Ok buf)) /\
  (forall W codecs frame h c ts,
     ParseHeader frame = Ok h ->
     slice frame 16 (NBytesComp h) = Some data ->
     IsMemcpy h = false ->
     codecs !! VersionLZ h = Some c ->
     to_int W (NBytesOrig h) = expectedSize ->
     (forall e, Codec_Decompress c data expectedSize = Err e ->
        DecompressWithSize W codecs frame ts = Err ErrDecompressionFailed) /\
     (forall decoded,
        Codec_Decompress c data expectedSize = Ok decoded ->
        len decoded <> expectedSize ->
        DecompressWithSize W codecs frame ts = Err ErrSizeMismatch)).
Proof.
  split_and!.
  - intros Hneg.
    cbn [Codec_Decompress lz4Codec lz4hcCodec zstdCodec snappyCodec zlibCodec].
    unfold lz4Codec_Decompress, lz4hcCodec_Decompress, zstdCodec_Decompress,
      snappyCodec_Decompress.
    rewrite !bool_decide_eq_true_2 by done. split_and!; try reflexivity.
    intros r Hr. unfold zlibCodec_Decompress. rewrite Hr. cbn [rbind].
    by rewrite bool_decide_eq_true_2.
  - intros He.
    cbn [Codec_Decompress lz4Codec lz4hcCodec zstdCodec snappyCodec zlibCodec].
    split_and!.
    + intros e Hr. unfold zlibCodec_Decompress. by rewrite Hr.
    + intros r Hr. rewrite (zlib_read_result _ _ _ r Hr He).
      split_and!.
      * intros Hle. by rewrite bool_decide_eq_true_2.
      * intros Hlt Hend. rewrite bool_decide_eq_false_2 by lia.
        by destruct Hend as [-> | ->].
      * intros msg Hlt Hend. rewrite bool_decide_eq_false_2 by lia.
        by rewrite Hend.
    + intros c Hc.
      assert (Codec_Decompress c data expectedSize
              = lz4Codec_Decompress (lz4_UncompressBlock_ L) data expectedSize)
        as -> by (by destruct Hc as [-> | ->]).
      unfold lz4Codec_Decompress. rewrite bool_decide_eq_false_2 by lia.
      split.
      * intros buf n msg Hr. by rewrite Hr.
      * intros buf n Hr Hn. rewrite Hr.
        rewrite slice_Some by lia. cbn [must]. f_equal.
        by rewrite drop_0, Z.sub_0_r.
    + intros buf e Hr. unfold zstdCodec_Decompress.
      rewrite bool_decide_eq_false_2 by lia. by rewrite Hr.
    + intros buf Hr. unfold zstdCodec_Decompress.
      rewrite bool_decide_eq_false_2 by lia. by rewrite Hr.
    + intros buf e Hr. unfold snappyCodec_Decompress.
      rewrite bool_decide_eq_false_2 by lia. by rewrite Hr.
    + intros buf Hr. unfold snappyCodec_Decompress.
      rewrite bool_decide_eq_false_2 by lia. by rewrite Hr.
  - intros W codecs frame h c ts Hp Hs Hm Hc Hsize.
    rewrite (decompress_step W codecs frame h data ts Hp Hs).
    unfold decodePayload. rewrite Hm, Hc, Hsize. split.
    + intros e ->. reflexivity.
    + intros decoded -> Hlen. cbn [rbind].
      destruct (applyUnshuffle_total h ts decoded) as (final & -> & Lf).
      cbn [must rbind]. rewrite bool_decide_eq_true_2; [done|]. len_lia.
Qed.

Lemma codec_decompress_result_witness :
  Codec_Decompress (zlibCodec sample_libraries) [1; 2; 3] 2 = Ok [1; 2] /\
  Codec_Decompress (zlibCodec sample_libraries) [1; 2; 3] 5 = Ok [1; 2; 3] /\
  Codec_Decompress (lz4Codec sample_libraries) [1; 2; 3] 5 = Ok [1; 2; 3] /\
  Codec_Decompress (snappyCodec sample_libraries) [1; 2; 3] (-1) = Panic /\
  DecompressWithSize Int32 (default_codecs sample_libraries)
    [2; 1; 0; 1; 5; 0; 0; 0; 5; 0; 0; 0; 19; 0; 0; 0; 1; 2; 3] 0
  = Err ErrSizeMismatch.
Proof.
  destruct (codec_decompress_result sample_libraries [1; 2; 3] 2)
    as (_ & H2 & _).
  destruct (codec_decompress_result sample_libraries [1; 2; 3] 5)
    as (_ & H5 & Hpipe).
  destruct (codec_decompress_result sample_libraries [1; 2; 3] (-1))
    as (Hneg & _).
  destruct (H2 ltac:(lia)) as (_ & Hz2 & _).
  destruct (H5 ltac:(lia)) as (_ & Hz5 & Hlz & _).
  destruct (Hz2 {| delivered := [1; 2; 3]; ending := io_EOF |} eq_refl)
    as (Hz2' & _).
  destruct (Hz5 {| delivered := [1; 2; 3]; ending := io_EOF |} eq_refl)
    as (_ & Hz5' & _).
  destruct (Hlz (lz4Codec sample_libraries) ltac:(by left)) as (_ & Hlz').
  destruct (Hneg ltac:(lia)) as (_ & _ & _ & Hsn & _).
  destruct (Hpipe Int32 (default_codecs sample_libraries)
              [2; 1; 0; 1; 5; 0; 0; 0; 5; 0; 0; 0; 19; 0; 0; 0; 1; 2; 3]
              {| Version := 2; VersionLZ := 1; Flags := 0; TypeSize := 1;
                 NBytesOrig := 5; BlockSize := 5; NBytesComp := 19 |}
              (lz4Codec sample_libraries) 0) as (_ & Hmis);
    [vm_compute; reflexivity|vm_compute; reflexivity|reflexivity
    |vm_compute; reflexivity|vm_compute; reflexivity|].
  split_and!.
  - apply Hz2'. vm_compute. discriminate.
  - apply Hz5'; [vm_compute; reflexivity|by left].
  - apply (Hlz' [1; 2; 3; 0; 0] 3); [vm_compute; reflexivity|].
    vm_compute. split; discriminate.
  - exact Hsn.
  - apply (Hmis [1; 2; 3]); [vm_compute; reflexivity|].
    vm_compute. discriminate.
Defined.

(** C8, counterexample.  The zlib stream of three bytes decoded with
    [expected_size = 5]: the adapter returns the three bytes and no
    error.  The same stream without its checksum, which is not a
    well-formed blob, gives the same three bytes and no error.  So does
    the identity codec that the tests register. *)
Lemma codec_decompress_short_result :
  zlibCodec_Decompress sample_NewReader zlib_blob_123 5 = Ok [1; 2; 3] /\
  zlibCodec_Decompress sample_NewReader zlib_blob_123_cut 5 = Ok [1; 2; 3] /\
  Codec_Decompress (mockCodecImpl "mock") [1; 2; 3] 5 = Ok [1; 2; 3] /\
  len [1; 2; 3] <> 5.
Proof. split_and!; [reflexivity|reflexivity|reflexivity|discriminate]. Qed.

(** ** Compression followed by decompression *)

Lemma buildHeader_flags (data payload : list Z) (opts : Options)
    (useMemcpy : bool) :
  HasShuffle (buildHeader data payload opts useMemcpy)
  = bool_decide (opt_Shuffle opts = Shuffle1) /\
  HasBitShuffle (buildHeader data payload opts useMemcpy)
  = bool_decide (opt_Shuffle opts = BitShuffle).
Proof.
  unfold HasBitShuffle, HasShuffle, buildHeader. simpl.
  destruct useMemcpy; repeat case_bool_decide; try done;
    unfold Shuffle1, BitShuffle in *; congruence.
Qed.

(** The shuffle step, without the test on the type size: at a type size
    of 1 or less the transforms return their input. *)
Lemma applyShuffle_eq (data : list Z) (opts : Options) :
  applyShuffle data opts
  = if bool_decide (opt_Shuffle opts = Shuffle1)
    then shuffleBytes data (opt_TypeSize opts)
    else if bool_decide (opt_Shuffle opts = BitShuffle)
         then bitShuffle data (opt_TypeSize opts)
         else Some data.
Proof.
  unfold applyShuffle, bitShuffle.
  destruct (bool_decide_reflect (opt_TypeSize opts > 1)) as [Hg|Hg].
  - by rewrite !andb_true_r.
  - rewrite !andb_false_r.
    rewrite shuffleBytes_degenerate, bit_transform_degenerate by lia.
    by repeat case_bool_decide.
Qed.

(** The inverse shuffle of [Decompress] on a header that
    [compressBackend] built. *)
Lemma applyUnshuffle_buildHeader (data payload : list Z) (opts : Options)
    (useMemcpy : bool) (d : list Z) :
  applyUnshuffle (buildHeader data payload opts useMemcpy) 0 d
  = if bool_decide (opt_Shuffle opts = Shuffle1)
    then unshuffleBytes d (u8 (opt_TypeSize opts))
    else if bool_decide (opt_Shuffle opts = BitShuffle)
         then bitUnshuffle d (u8 (opt_TypeSize opts))
         else Some d.
Proof.
  unfold applyUnshuffle.
  destruct (buildHeader_flags data payload opts useMemcpy) as [-> ->].
  rewrite (bool_decide_eq_true_2 (0 <= 0)) by lia.
  change (TypeSize (buildHeader data payload opts useMemcpy))
    with (u8 (opt_TypeSize opts)).
  unfold bitUnshuffle.
  destruct (bool_decide_reflect (u8 (opt_TypeSize opts) > 1)) as [Hg|Hg].
  - rewrite !andb_true_r.
    repeat case_bool_decide; try done.
    unfold Shuffle1, BitShuffle in *; congruence.
  - rewrite !andb_false_r.
    rewrite unshuffleBytes_degenerate, bit_transform_degenerate by lia.
    by repeat case_bool_decide.
Qed.

(** A frame that [CompressWithOptions] returned, as [Decompress] sees
    it. *)
Lemma compressed_frame codecs (data : list Z) (opts : Options)
    (frame : list Z) :
  len data + 16 < 2 ^ 32 ->
  CompressWithOptions codecs data opts = Ok frame ->
  exists c shuffled compressed hb,
    let useMemcpy := bool_decide (len compressed >= len data) in
    let payload := if useMemcpy then data else compressed in
    let h := buildHeader data payload (validateOptions opts) useMemcpy in
    codecs !! opt_Codec opts = Some c /\
    applyShuffle data (validateOptions opts) = Some shuffled /\
    len shuffled = len data /\
    Codec_Compress c shuffled (opt_Level (validateOptions opts))
    = Ok compressed /\
    frame = hb ++ payload /\
    length hb = 16%nat /\
    ParseHeader frame = Ok h /\
    slice frame 16 (NBytesComp h) = Some payload /\
    NBytesOrig h = len data.
Proof.
  intros Hsize Hok.
  destruct (compress_inv codecs data opts frame Hok)
    as (Hne & c & shuffled & compressed & hb & Hc & Hs & Hz & Hhb & ->).
  exists c, shuffled, compressed, hb. intros useMemcpy payload h.
  pose proof (length_Bytes _ _ Hhb) as Lhb.
  pose proof (len_nonneg data) as Hd.
  pose proof (len_nonneg compressed) as Hcz.
  assert (0 <= len payload <= len data) as Hpl.
  { unfold payload, useMemcpy. case_bool_decide; lia. }
  destruct (applyShuffle_total data (validateOptions opts))
    as (s' & Hs' & Ls').
  assert (s' = shuffled) as -> by congruence.
  assert (NBytesComp h = 16 + len payload) as Hcomp.
  { unfold h, buildHeader, NBytesComp, u32, HeaderSize.
    apply Z.mod_small. lia. }
  split_and!; try done.
  - len_lia.
  - rewrite ParseHeader_app by (unfold HeaderSize, len; lia).
    by apply buildHeader_parse.
  - rewrite Hcomp. by apply slice_payload.
  - unfold h, buildHeader, NBytesOrig, u32. apply Z.mod_small. lia.
Qed.

(** X14. Round trip through the pipeline.  Let [data] be bytes with
    [len data + 16 < 2^32] and a length that the target's [int] holds,
    the codec id a byte, the type size below 256,
    and let the registered codec give back, from what it returned for the
    shuffled input and the input's length, that shuffled input.  If
    [CompressWithOptions] returns a frame and either the frame is shorter
    than [16 + len data] (the codec's output was kept), or no shuffle was
    asked for, or the type size is at most 1 or exceeds the input length,
    then [Decompress] of the frame is [data]. *)
Theorem compress_decompress_roundtrip (W : IntWidth) codecs (data : list Z)
    (opts : Options) (frame : list Z) :
  Forall is_byte data ->
  len data + 16 < 2 ^ 32 ->
  len data < 2 ^ (int_bits W - 1) ->
  0 <= opt_Codec opts < 256 ->
  opt_TypeSize opts < 256 ->
  (forall c shuffled compressed,
     codecs !! opt_Codec opts = Some c ->
     applyShuffle data (validateOptions opts) = Some shuffled ->
     Codec_Compress c shuffled (opt_Level (validateOptions opts))
     = Ok compressed ->
     len compressed < len data ->
     Codec_Decompress c compressed (len data) = Ok shuffled) ->
  CompressWithOptions codecs data opts = Ok frame ->
  len frame < 16 + len data \/
  (opt_Shuffle opts <> Shuffle1 /\ opt_Shuffle opts <> BitShuffle) \/
  opt_TypeSize opts <= 1 \/ len data < opt_TypeSize opts ->
  Decompress W codecs frame = Ok data.
Proof.
  intros Hb Hsize HW Hcodec Hts Hrt Hok Hcase.
  assert (to_int W (len data) = len data) as Hfit
    by (apply to_int_fits; pose proof (len_nonneg data); lia).
  destruct (compressed_frame codecs data opts frame Hsize Hok)
    as (c & shuffled & compressed & hb & Hc & Hs & Ls & Hz & Hf & Lhb
        & Hp & Hsl & Ho).
  cbv zeta in *.
  unfold Decompress. rewrite (decompress_step W codecs frame _ _ 0 Hp Hsl).
  rewrite Ho, Hfit. rewrite applyShuffle_eq in Hs.
  rewrite validateOptions_eq in *. cbn [opt_Shuffle opt_TypeSize opt_Level
    opt_Codec] in *.
  set (T := Z.max 1 (opt_TypeSize opts)) in *.
  assert (u8 T = T) as HT by (unfold u8; apply Z.mod_small; lia).
  assert (forall d final,
    applyUnshuffle
      (buildHeader data
         (if bool_decide (len compressed >= len data) then data else compressed)
         {| opt_Codec := opt_Codec opts;
            opt_Level := Z.max 1 (Z.min 9 (opt_Level opts));
            opt_Shuffle := opt_Shuffle opts; opt_TypeSize := T;
            opt_BlockSize := opt_BlockSize opts;
            opt_NumThreads := opt_NumThreads opts |}
         (bool_decide (len compressed >= len data))) 0 d = Some final ->
    len final = len data ->
    (final <~ must (applyUnshuffle
      (buildHeader data
         (if bool_decide (len compressed >= len data) then data else compressed)
         {| opt_Codec := opt_Codec opts;
            opt_Level := Z.max 1 (Z.min 9 (opt_Level opts));
            opt_Shuffle := opt_Shuffle opts; opt_TypeSize := T;
            opt_BlockSize := opt_BlockSize opts;
            opt_NumThreads := opt_NumThreads opts |}
         (bool_decide (len compressed >= len data))) 0 d);;
     if bool_decide (len final ≠ len data) then Err ErrSizeMismatch
     else Ok final) = Ok (E := Error) final) as Hfin.
  { intros d final -> Hl. cbn [must rbind].
    by rewrite bool_decide_eq_false_2 by (intros Hn; by apply Hn). }
  unfold decodePayload. rewrite buildHeader_IsMemcpy, Ho, Hfit.
  destruct (bool_decide_reflect (len compressed >= len data)) as [Hm|Hm].
  - cbn [rbind]. rewrite copy_make. apply Hfin; [|done].
    rewrite applyUnshuffle_buildHeader. cbn [opt_Shuffle opt_TypeSize].
    rewrite HT. unfold bitUnshuffle.
    assert (len frame = 16 + len data) as Lfr
      by (rewrite Hf; unfold len; rewrite length_app; lia).
    destruct Hcase as [Hlt|[[H1 H2]|Hdeg]].
    + lia.
    + by rewrite !bool_decide_eq_false_2.
    + rewrite unshuffleBytes_degenerate, bit_transform_degenerate by lia.
      by repeat case_bool_decide.
  - change (VersionLZ (buildHeader _ _ _ _)) with (u8 (opt_Codec opts)).
    assert (u8 (opt_Codec opts) = opt_Codec opts) as ->
      by (unfold u8; apply Z.mod_small; lia).
    rewrite Hc. rewrite (Hrt c shuffled compressed Hc) ; [| |done|lia].
    + cbn [rbind]. apply Hfin; [|done].
      rewrite applyUnshuffle_buildHeader. cbn [opt_Shuffle opt_TypeSize].
      rewrite HT.
      destruct (transforms_invert data T) as ((s1 & E1 & E2) & _ & Hbit).
      destruct (Hbit Hb) as ((s2 & E3 & E4) & _).
      repeat case_bool_decide; congruence.
    + by rewrite applyShuffle_eq.
Qed.

Lemma compress_decompress_roundtrip_witness :
  Compress zero_tail_registry [5; 0; 6; 0; 0; 0; 0; 0] LZ4 5 Shuffle1 2
  = Ok [2; 1; 1; 2; 8; 0; 0; 0; 8; 0; 0; 0; 18; 0; 0; 0; 5; 6] /\
  Decompress Int32 zero_tail_registry
    [2; 1; 1; 2; 8; 0; 0; 0; 8; 0; 0; 0; 18; 0; 0; 0; 5; 6]
  = Ok [5; 0; 6; 0; 0; 0; 0; 0].
Proof.
  split; [vm_compute; reflexivity|].
  apply (compress_decompress_roundtrip Int32 zero_tail_registry
           [5; 0; 6; 0; 0; 0; 0; 0]
           {| opt_Codec := LZ4; opt_Level := 5; opt_Shuffle := Shuffle1;
              opt_TypeSize := 2; opt_BlockSize := 0; opt_NumThreads := 0 |}).
  - repeat constructor; unfold is_byte; lia.
  - vm_compute. reflexivity.
  - vm_compute. reflexivity.
  - cbn. unfold LZ4. lia.
  - cbn. lia.
  - intros c shuffled compressed Hc Hs Hz _.
    vm_compute in Hc. injection Hc as <-.
    vm_compute in Hs. injection Hs as <-.
    vm_compute in Hz. injection Hz as <-.
    vm_compute. reflexivity.
  - vm_compute. reflexivity.
  - left. vm_compute. reflexivity.
Defined.

(** X15. Decoding a stored frame.  When [CompressWithOptions] returns a
    frame of [16 + len data] bytes (the codec's output was not shorter
    than the input, so the input itself was stored, not its shuffled
    form), [Decompress] returns, with any registry and on every target
    whose [int] holds [len data], the inverse shuffle
    of the requested mode applied to the raw input at the type size the
    header byte holds: [unshuffleBytes data T] for [Shuffle1],
    [bitUnshuffle data T] for [BitShuffle], [data] otherwise, where
    [T = u8 (max 1 typeSize)]. *)
Theorem stored_frame_is_unshuffled codecs (data : list Z) (opts : Options)
    (frame : list Z) :
  len data + 16 < 2 ^ 32 ->
  CompressWithOptions codecs data opts = Ok frame ->
  len frame = 16 + len data ->
  exists out,
    (if bool_decide (opt_Shuffle opts = Shuffle1)
     then unshuffleBytes data (u8 (Z.max 1 (opt_TypeSize opts)))
     else if bool_decide (opt_Shuffle opts = BitShuffle)
          then bitUnshuffle data (u8 (Z.max 1 (opt_TypeSize opts)))
          else Some data) = Some out /\
    len out = len data /\
    forall W codecs',
      len data < 2 ^ (int_bits W - 1) ->
      Decompress W codecs' frame = Ok out.
Proof.
  intros Hsize Hok Hlen.
  destruct (compressed_frame codecs data opts frame Hsize Hok)
    as (c & shuffled & compressed & hb & Hc & Hs & Ls & Hz & Hf & Lhb
        & Hp & Hsl & Ho).
  cbv zeta in *.
  destruct (bool_decide_reflect (len compressed >= len data)) as [Hm|Hm].
  2: { exfalso. rewrite Hf in Hlen. unfold len in *.
       rewrite length_app in Hlen. lia. }
  set (h := buildHeader data data (validateOptions opts) true) in *.
  destruct (applyUnshuffle_total h 0 data) as (out & Hout & Lout).
  exists out. split_and!.
  - rewrite <- Hout. unfold h. rewrite applyUnshuffle_buildHeader.
    by rewrite validateOptions_eq.
  - len_lia.
  - intros W codecs' HW. unfold Decompress.
    rewrite (decompress_step W codecs' frame h data 0 Hp Hsl).
    unfold decodePayload. unfold h at 1. rewrite buildHeader_IsMemcpy.
    cbn [rbind]. rewrite copy_make, Hout. cbn [must rbind].
    rewrite Ho. rewrite to_int_fits by (pose proof (len_nonneg data); lia).
    rewrite bool_decide_eq_false_2; [done|].
    intros Hn. apply Hn. len_lia.
Qed.

Lemma stored_frame_is_unshuffled_witness :
  exists out,
    unshuffleBytes [1; 2; 3; 4; 5; 6; 7; 8] 2 = Some out /\
    len out = 8 /\
    forall W codecs',
      len [1; 2; 3; 4; 5; 6; 7; 8] < 2 ^ (int_bits W - 1) ->
      Decompress W codecs'
        [2; 1; 3; 2; 8; 0; 0; 0; 8; 0; 0; 0; 24; 0; 0; 0; 1; 2; 3; 4; 5; 6; 7; 8]
      = Ok out.
Proof.
  apply (stored_frame_is_unshuffled identity_registry [1; 2; 3; 4; 5; 6; 7; 8]
           {| opt_Codec := LZ4; opt_Level := 5; opt_Shuffle := Shuffle1;
              opt_TypeSize := 2; opt_BlockSize := 0; opt_NumThreads := 0 |}
           [2; 1; 3; 2; 8; 0; 0; 0; 8; 0; 0; 0; 24; 0; 0; 0;
            1; 2; 3; 4; 5; 6; 7; 8]);
    vm_compute; reflexivity.
Defined.

(** ** The type size given to [DecompressWithSize] *)

Lemma applyUnshuffle_override (h : Header) (ts : Z) (d : list Z) :
  ts <= 0 \/ ts = TypeSize h \/
  (HasShuffle h = false /\ HasBitShuffle h = false) \/
  (ts <= 1 /\ TypeSize h <= 1) ->
  applyUnshuffle h ts d = applyUnshuffle h 0 d.
Proof.
  unfold applyUnshuffle.
  rewrite (bool_decide_eq_true_2 (0 <= 0)) by lia.
  intros [H|[H|[[H1 H2]|[H1 H2]]]].
  - by rewrite (bool_decide_eq_true_2 (ts <= 0)).
  - destruct (bool_decide (ts <= 0)); [done|]. by rewrite H.
  - rewrite H1, H2. done.
  - destruct (bool_decide (ts <= 0)); [done|].
    rewrite (bool_decide_eq_false_2 (ts > 1)) by lia.
    rewrite (bool_decide_eq_false_2 (TypeSize h > 1)) by lia.
    by rewrite !andb_false_r.
Qed.

(** X16. The type size override of [DecompressWithSize] is the header's
    type size when it is zero or negative, so [Decompress] is
    [DecompressWithSize] at any such value; and for a frame whose header
    parses, an override equal to the header's type size, any override on
    a frame without shuffle flags, and an override of at most 1 on a
    frame whose type size is at most 1 give the result of [Decompress]
    too. *)
Theorem typesize_override (W : IntWidth) codecs (data : list Z) (ts : Z) :
  (ts <= 0 -> DecompressWithSize W codecs data ts = Decompress W codecs data) /\
  (forall h,
     ParseHeader data = Ok h ->
     ts = TypeSize h \/
     (HasShuffle h = false /\ HasBitShuffle h = false) \/
     (ts <= 1 /\ TypeSize h <= 1) ->
     DecompressWithSize W codecs data ts = Decompress W codecs data).
Proof.
  assert (forall h,
    ParseHeader data = Ok h ->
    (forall d, applyUnshuffle h ts d = applyUnshuffle h 0 d) ->
    DecompressWithSize W codecs data ts = Decompress W codecs data) as Hgen.
  { intros h Hp Hu. unfold Decompress, DecompressWithSize.
    case_bool_decide; [done|]. unfold decompressBackend.
    rewrite Hp. cbn [rbind].
    repeat case_bool_decide; try done.
    destruct (must (slice data HeaderSize (NBytesComp h))) as [p| |];
      try done.
    cbn [rbind].
    destruct (decodePayload W codecs h p) as [d| |]; try done.
    cbn [rbind]. by rewrite Hu. }
  split.
  - intros Hts. destruct (ParseHeader data) as [h| |] eqn:Hp.
    + apply (Hgen h eq_refl). intros d. apply applyUnshuffle_override. by left.
    + unfold Decompress, DecompressWithSize, decompressBackend. by rewrite Hp.
    + unfold Decompress, DecompressWithSize, decompressBackend. by rewrite Hp.
  - intros h Hp Hcase. apply (Hgen h Hp). intros d.
    apply applyUnshuffle_override. by right.
Qed.

Lemma typesize_override_witness :
  DecompressWithSize Int32 identity_registry
    [2; 1; 1; 2; 8; 0; 0; 0; 8; 0; 0; 0; 24; 0; 0; 0; 1; 5; 2; 6; 3; 7; 4; 8] 2
  = Decompress Int32 identity_registry
      [2; 1; 1; 2; 8; 0; 0; 0; 8; 0; 0; 0; 24; 0; 0; 0; 1; 5; 2; 6; 3; 7; 4; 8].
Proof.
  destruct (typesize_override Int32 identity_registry
              [2; 1; 1; 2; 8; 0; 0; 0; 8; 0; 0; 0; 24; 0; 0; 0;
               1; 5; 2; 6; 3; 7; 4; 8] 2) as [_ H].
  apply (H {| Version := 2; VersionLZ := 1; Flags := 1; TypeSize := 2;
              NBytesOrig := 8; BlockSize := 8; NBytesComp := 24 |});
    [vm_compute; reflexivity|left; reflexivity].
Defined.

(** * The registry *)

Lemma elem_of_keys (codecs : gmap Z CodecInterface) (k : Z) :
  k ∈ (map_to_list codecs).*1 <-> is_Some (codecs !! k).
Proof.
  rewrite list_elem_of_fmap. split.
  - intros ([k' c] & -> & Hin). apply elem_of_map_to_list in Hin.
    by exists c.
  - intros [c Hc]. exists (k, c). split; [done|].
    by apply elem_of_map_to_list.
Qed.

Lemma compress_other_codec codecs (id : Z) (codec : CodecInterface)
    (data : list Z) (opts : Options) :
  opt_Codec opts <> id ->
  CompressWithOptions (<[id := codec]> codecs) data opts
  = CompressWithOptions codecs data opts.
Proof.
  intros Hne. unfold CompressWithOptions. case_bool_decide; [done|].
  unfold compressBackend.
  destruct (validateOptions_fields opts) as (-> & _).
  by rewrite lookup_insert_ne.
Qed.

Lemma decompress_other_codec (W : IntWidth) codecs (id : Z)
    (codec : CodecInterface) (data : list Z) (ts : Z) :
  (forall h, ParseHeader data = Ok h -> IsMemcpy h = true \/ VersionLZ h <> id) ->
  DecompressWithSize W (<[id := codec]> codecs) data ts
  = DecompressWithSize W codecs data ts.
Proof.
  intros Hh. unfold DecompressWithSize. case_bool_decide; [done|].
  unfold decompressBackend.
  destruct (ParseHeader data) as [h| |]; try done.
  cbn [rbind]. repeat case_bool_decide; try done.
  destruct (must (slice data HeaderSize (NBytesComp h))) as [p| |]; try done.
  cbn [rbind]. unfold decodePayload.
  destruct (Hh h eq_refl) as [Hm|Hv].
  - by rewrite Hm.
  - by rewrite lookup_insert_ne.
Qed.

(** X17. Registering a codec: after [RegisterCodec id codec], [GetCodec id]
    finds [codec] and every other id finds what it found before;
    [ListCodecs] returns, in some order and without repetition, [id] and
    the ids that were registered; compression with another codec id is
    unchanged, and so is decompression of every input whose header, if it
    parses, carries the MEMCPY flag or another codec id. *)
Theorem register_codec_effect codecs (id : Z) (codec : CodecInterface) :
  GetCodec (RegisterCodec codecs id codec) id = Some codec /\
  (forall k, k <> id ->
     GetCodec (RegisterCodec codecs id codec) k = GetCodec codecs k) /\
  (forall l, ListCodecs_returns (RegisterCodec codecs id codec) l ->
     NoDup l /\ forall k, k ∈ l <-> k = id \/ is_Some (GetCodec codecs k)) /\
  (forall data opts, opt_Codec opts <> id ->
     CompressWithOptions (RegisterCodec codecs id codec) data opts
     = CompressWithOptions codecs data opts) /\
  (forall W data ts,
     (forall h, ParseHeader data = Ok h ->
                IsMemcpy h = true \/ VersionLZ h <> id) ->
     DecompressWithSize W (RegisterCodec codecs id codec) data ts
     = DecompressWithSize W codecs data ts).
Proof.
  unfold RegisterCodec, GetCodec, ListCodecs_returns. split_and!.
  - apply lookup_insert_eq.
  - intros k Hk. by apply lookup_insert_ne.
  - intros l Hl. split.
    + rewrite Hl. apply NoDup_fst_map_to_list.
    + intros k. rewrite Hl, elem_of_keys.
      destruct (decide (k = id)) as [->|Hk].
      * rewrite lookup_insert_eq. split; [by left|by eexists].
      * rewrite lookup_insert_ne by done. split; [by right|].
        by intros [?|?].
  - intros data opts. apply compress_other_codec.
  - intros W data ts. apply decompress_other_codec.
Qed.

Lemma register_codec_effect_witness :
  CompressWithOptions (RegisterCodec identity_registry 7 zero_tail_codec)
    [1; 2; 3] DefaultOptions
  = CompressWithOptions identity_registry [1; 2; 3] DefaultOptions.
Proof.
  destruct (register_codec_effect identity_registry 7 zero_tail_codec)
    as (_ & _ & _ & H & _).
  apply H. vm_compute. discriminate.
Defined.

(** ** The built-in registry *)

Lemma default_codecs_lookup (L : Libraries) (id : Z) :
  default_codecs L !! id
  = if bool_decide (id = LZ4) then Some (lz4Codec L)
    else if bool_decide (id = LZ4HC) then Some (lz4hcCodec L)
    else if bool_decide (id = ZLIB) then Some (zlibCodec L)
    else if bool_decide (id = ZSTD) then Some (zstdCodec L)
    else if bool_decide (id = Snappy) then Some (snappyCodec L)
    else None.
Proof.
  unfold default_codecs.
  do 5 (let H := fresh "H" in
        case_bool_decide as H;
        [rewrite H; apply lookup_insert_eq
        |rewrite lookup_insert_ne by (intros E; by apply H)]).
  apply lookup_empty.
Qed.

(** X18. The registry the package starts with holds exactly the ids 1
    to 5 (LZ4, LZ4HC, Snappy, ZLIB, ZSTD), each with a codec whose [Name]
    is the [String] of its id; [ListCodecs] returns these five ids in
    some order; and [BloscLZ], which the package declares as codec 0, has
    no codec: compressing non-empty data with it fails with
    [ErrInvalidCodec]. *)
Theorem default_registry (L : Libraries) :
  (forall id, is_Some (GetCodec (default_codecs L) id) <-> 1 <= id <= 5) /\
  (forall id c, GetCodec (default_codecs L) id = Some c ->
                Codec_Name c = Codec_String id) /\
  (forall l, ListCodecs_returns (default_codecs L) l ->
             l ≡ₚ [LZ4; LZ4HC; Snappy; ZLIB; ZSTD]) /\
  (forall data opts, data <> [] -> opt_Codec opts = BloscLZ ->
     CompressWithOptions (default_codecs L) data opts = Err ErrInvalidCodec).
Proof.
  assert (forall id, is_Some (default_codecs L !! id) <-> 1 <= id <= 5) as Hdom.
  { intros id. rewrite default_codecs_lookup.
    unfold LZ4, LZ4HC, ZLIB, ZSTD, Snappy.
    repeat case_bool_decide;
      (split; [intros [c Hc]; try discriminate; lia
              |intros Hr; try (by eexists); lia]). }
  unfold GetCodec, ListCodecs_returns. split_and!.
  - exact Hdom.
  - intros id c. rewrite default_codecs_lookup. unfold Codec_String.
    unfold BloscLZ, LZ4, LZ4HC, ZLIB, ZSTD, Snappy.
    repeat case_bool_decide; intros [= <-]; try reflexivity; lia.
  - intros l Hl. rewrite Hl. apply NoDup_Permutation.
    + apply NoDup_fst_map_to_list.
    + unfold LZ4, LZ4HC, ZLIB, ZSTD, Snappy.
      repeat (apply NoDup_cons; split;
              [rewrite ?elem_of_cons, ?elem_of_nil; lia|]).
      apply NoDup_nil_2.
    + intros id. rewrite elem_of_keys, Hdom.
      rewrite !elem_of_cons, elem_of_nil.
      unfold LZ4, LZ4HC, ZLIB, ZSTD, Snappy. lia.
  - intros data opts Hne Hc. unfold CompressWithOptions.
    rewrite bool_decide_eq_false_2 by (by apply nonempty_len).
    unfold compressBackend.
    destruct (validateOptions_fields opts) as (-> & _).
    rewrite Hc. by rewrite default_codecs_lookup.
Qed.

Lemma default_registry_witness :
  Compress (default_codecs sample_libraries) [1; 2; 3] BloscLZ 5 NoShuffle 1
  = Err ErrInvalidCodec.
Proof.
  destruct (default_registry sample_libraries) as (_ & _ & _ & H).
  apply H; [discriminate|reflexivity].
Defined.

(** ** Compression levels of the built-in codecs *)

Lemma lz4hc_level_clamp (level : Z) :
  lz4hc_level (Z.max 1 (Z.min 9 level)) = lz4hc_level level.
Proof. unfold lz4hc_level. repeat case_bool_decide; try done; lia. Qed.

Lemma zstd_index_clamp (level : Z) :
  zstd_index (Z.max 1 (Z.min 9 level)) = zstd_index level.
Proof. unfold zstd_index. repeat case_bool_decide; try done; lia. Qed.

(** [Compress] sees the level only through the codec. *)
Lemma compress_level_ext codecs (data : list Z) (codec l l' s ts : Z)
    (c : CodecInterface) :
  codecs !! codec = Some c ->
  (forall d, Codec_Compress c d (Z.max 1 (Z.min 9 l))
             = Codec_Compress c d (Z.max 1 (Z.min 9 l'))) ->
  Compress codecs data codec l s ts = Compress codecs data codec l' s ts.
Proof.
  intros Hc Hext. unfold Compress, CompressWithOptions.
  case_bool_decide; [done|]. rewrite !validateOptions_eq.
  unfold compressBackend. cbn [opt_Codec opt_Level]. rewrite Hc.
  unfold applyShuffle. cbn [opt_Shuffle opt_TypeSize].
  destruct (if _ && _ then _ else _) as [sh|]; [|done].
  cbn [must rbind]. rewrite Hext. reflexivity.
Qed.

(** X19. Levels of the built-in codecs.  The LZ4 and Snappy adapters
    ignore the level; the LZ4HC adapter maps it to one of four library
    levels (up to 3, 4 to 5, 6 to 7, above) and the ZSTD adapter to one
    of four encoders (up to 2, 3 to 4, 5 to 6, above), whose index is
    always inside the encoder array, so that adapter cannot panic.  With
    the built-in registry, [Compress] therefore returns the same result
    for two levels whenever the codec is LZ4 or Snappy, or LZ4HC or ZSTD
    and the two levels, clamped or not, fall in the same class. *)
Theorem builtin_levels (L : Libraries) (data : list Z)
    (level level' shuffle typeSize : Z) :
  (Compress (default_codecs L) data LZ4 level shuffle typeSize
   = Compress (default_codecs L) data LZ4 level' shuffle typeSize) /\
  (Compress (default_codecs L) data Snappy level shuffle typeSize
   = Compress (default_codecs L) data Snappy level' shuffle typeSize) /\
  (lz4hc_level level = lz4hc_level level' ->
   Compress (default_codecs L) data LZ4HC level shuffle typeSize
   = Compress (default_codecs L) data LZ4HC level' shuffle typeSize) /\
  (zstd_index level = zstd_index level' ->
   Compress (default_codecs L) data ZSTD level shuffle typeSize
   = Compress (default_codecs L) data ZSTD level' shuffle typeSize) /\
  (exists e, zstdEncoders !! Z.to_nat (zstd_index level) = Some e /\
             zstdCodec_Compress L data level = Ok (zstd_EncodeAll L e data)).
Proof.
  split_and!.
  - apply (compress_level_ext _ _ _ _ _ _ _ (lz4Codec L));
      [by rewrite default_codecs_lookup|done].
  - apply (compress_level_ext _ _ _ _ _ _ _ (snappyCodec L));
      [by rewrite default_codecs_lookup|done].
  - intros Hl. apply (compress_level_ext _ _ _ _ _ _ _ (lz4hcCodec L));
      [by rewrite default_codecs_lookup|].
    intros d. cbn [Codec_Compress lz4hcCodec]. unfold lz4hcCodec_Compress.
    by rewrite !lz4hc_level_clamp, Hl.
  - intros Hl. apply (compress_level_ext _ _ _ _ _ _ _ (zstdCodec L));
      [by rewrite default_codecs_lookup|].
    intros d. cbn [Codec_Compress zstdCodec]. unfold zstdCodec_Compress.
    by rewrite !zstd_index_clamp, Hl.
  - unfold zstdCodec_Compress, zstd_index, zstdEncoders.
    repeat case_bool_decide; try lia; eexists; split; reflexivity.
Qed.

Lemma builtin_levels_witness :
  Compress (default_codecs sample_libraries) [1; 2; 3] LZ4HC 1 NoShuffle 1
  = Compress (default_codecs sample_libraries) [1; 2; 3] LZ4HC 3 NoShuffle 1.
Proof.
  destruct (builtin_levels sample_libraries [1; 2; 3] 1 3 NoShuffle 1)
    as (_ & _ & H & _).
  apply H. reflexivity.
Defined.

(** ** LZ4 input that does not shrink *)

(** X20. When the LZ4 or LZ4HC library reports no gain on the shuffled
    input ([n = 0] without an error), the adapter returns its input
    instead of the output buffer, and [CompressWithOptions] stores the
    raw input: the frame is a 16-byte header followed by [data], and the
    header carries the MEMCPY flag, so that decoding never hands these
    bytes to the LZ4 decoder. *)
Theorem lz4_no_gain_is_stored (L : Libraries) (data : list Z) (opts : Options)
    (shuffled : list Z) :
  data <> [] ->
  applyShuffle data (validateOptions opts) = Some shuffled ->
  0 <= lz4_CompressBlockBound L (len shuffled) ->
  (opt_Codec opts = LZ4 /\
   exists buf,
     lz4_CompressBlock L shuffled (make (lz4_CompressBlockBound L (len shuffled)))
     = (buf, 0, None)) \/
  (opt_Codec opts = LZ4HC /\
   exists buf,
     lz4_CompressBlockHC L shuffled
       (make (lz4_CompressBlockBound L (len shuffled)))
       (lz4hc_level (opt_Level opts))
     = (buf, 0, None)) ->
  exists hb h,
    CompressWithOptions (default_codecs L) data opts = Ok (hb ++ data) /\
    length hb = 16%nat /\
    ParseHeader (hb ++ data) = Ok h /\
    IsMemcpy h = true.
Proof.
  intros Hne Hs Hbound Hlib.
  assert (exists c, default_codecs L !! opt_Codec opts = Some c /\
                    Codec_Compress c shuffled (opt_Level (validateOptions opts))
                    = Ok shuffled) as (c & Hc & Hz).
  { destruct Hlib as [[Hid (buf & Hlz)]|[Hid (buf & Hlz)]].
    - exists (lz4Codec L). rewrite Hid, default_codecs_lookup.
      split; [done|]. cbn [Codec_Compress lz4Codec].
      unfold lz4Codec_Compress.
      rewrite bool_decide_eq_false_2 by lia. by rewrite Hlz.
    - exists (lz4hcCodec L). rewrite Hid, default_codecs_lookup.
      split; [done|]. cbn [Codec_Compress lz4hcCodec].
      unfold lz4hcCodec_Compress.
      rewrite bool_decide_eq_false_2 by lia.
      rewrite validateOptions_eq. cbn [opt_Level].
      by rewrite lz4hc_level_clamp, Hlz. }
  destruct (applyShuffle_total data (validateOptions opts)) as (s' & Hs' & Ls').
  assert (s' = shuffled) as -> by congruence.
  destruct (validateOptions_fields opts) as (Hcodec & _).
  rewrite <- Hcodec in Hc.
  destruct (compressBackend_Ok (default_codecs L) data (validateOptions opts)
              c shuffled shuffled Hc Hs Hz) as (hb & Hhb & Hres).
  rewrite (bool_decide_eq_true_2 (len shuffled >= len data)) in Hhb, Hres
    by len_lia.
  exists hb, (buildHeader data data (validateOptions opts) true).
  pose proof (length_Bytes _ _ Hhb) as Lhb.
  split_and!.
  - unfold CompressWithOptions.
    by rewrite bool_decide_eq_false_2 by (by apply nonempty_len).
  - done.
  - rewrite ParseHeader_app by (unfold HeaderSize, len; lia).
    by apply buildHeader_parse.
  - apply buildHeader_IsMemcpy.
Qed.

Lemma lz4_no_gain_is_stored_witness :
  exists hb h,
    CompressWithOptions (default_codecs sample_libraries) [9; 8; 7; 6]
      DefaultOptions = Ok (hb ++ [9; 8; 7; 6]) /\
    length hb = 16%nat /\
    ParseHeader (hb ++ [9; 8; 7; 6]) = Ok h /\
    IsMemcpy h = true.
Proof.
  apply (lz4_no_gain_is_stored sample_libraries [9; 8; 7; 6] DefaultOptions
           [9; 8; 7; 6]).
  - discriminate.
  - vm_compute. reflexivity.
  - vm_compute. discriminate.
  - left. split; [reflexivity|]. eexists. reflexivity.
Defined.

(** * Byte shuffle as a permutation *)

Lemma shuffle_index_range (E T k : Z) :
  1 <= E -> 1 < T -> 0 <= k < E * T ->
  0 <= (k mod E) * T + k / E < E * T /\
  ((k mod E) * T + k / E) / T = k mod E /\
  ((k mod E) * T + k / E) mod T = k / E.
Proof.
  intros HE HT Hk.
  pose proof (Z.mod_pos_bound k E ltac:(lia)) as Hm.
  assert (0 <= k / E < T) as Hd.
  { split; [apply Z.div_pos; lia|apply Z.div_lt_upper_bound; lia]. }
  destruct (div_mod_pair T (k / E) (k mod E) Hd) as [H1 H2].
  split_and!; [nia|nia|done|done].
Qed.

Lemma shuffle_index_inj (E T k k' : Z) :
  1 <= E -> 1 < T -> 0 <= k -> 0 <= k' ->
  (if bool_decide (k < E * T) then (k mod E) * T + k / E else k)
  = (if bool_decide (k' < E * T) then (k' mod E) * T + k' / E else k') ->
  k = k'.
Proof.
  intros HE HT Hk Hk'.
  destruct (bool_decide_reflect (k < E * T)) as [H1|H1],
           (bool_decide_reflect (k' < E * T)) as [H2|H2]; intros Heq.
  - destruct (shuffle_index_range E T k HE HT ltac:(lia)) as (_ & A1 & A2).
    destruct (shuffle_index_range E T k' HE HT ltac:(lia)) as (_ & B1 & B2).
    rewrite Heq in A1, A2.
    rewrite (Z.div_mod k E), (Z.div_mod k' E) by lia. congruence.
  - destruct (shuffle_index_range E T k HE HT ltac:(lia)) as (A0 & _). lia.
  - destruct (shuffle_index_range E T k' HE HT ltac:(lia)) as (A0 & _). lia.
  - done.
Qed.

Lemma shuffle_tgt_permutes (src : list Z) (T : Z) :
  1 < T -> T <= len src -> shuffle_tgt src T ≡ₚ src.
Proof.
  intros HT Hn. set (E := len src / T).
  destruct (elements_bounds (len src) T HT Hn) as (HE1 & HE2 & HE3).
  fold E in HE1, HE2, HE3.
  set (p := fun k : Z =>
         if bool_decide (k < E * T) then (k mod E) * T + k / E else k).
  assert (forall k, 0 <= k < len src -> 0 <= p k < len src) as Hp.
  { intros k Hk. unfold p. case_bool_decide; [|lia].
    destruct (shuffle_index_range E T k HE1 HT ltac:(lia)) as (A0 & _). lia. }
  assert (forall k, len src <= k -> p k = k) as Hq.
  { intros k Hk. unfold p. rewrite bool_decide_eq_false_2; [done|lia]. }
  apply Permutation_inj. split.
  - unfold shuffle_tgt. apply length_tabulate.
  - exists (fun i => Z.to_nat (p (Z.of_nat i))). split.
    + intros i i' Heq.
      assert (0 <= p (Z.of_nat i) /\ 0 <= p (Z.of_nat i')) as [P1 P2].
      { split.
        - destruct (decide (Z.of_nat i < len src));
            [apply Hp; lia|rewrite Hq; lia].
        - destruct (decide (Z.of_nat i' < len src));
            [apply Hp; lia|rewrite Hq; lia]. }
      apply Z2Nat.inj in Heq; [|done|done].
      apply (shuffle_index_inj E T) in Heq; lia.
    + intros i. destruct (decide (i < length src)%nat) as [Hi|Hi].
      * unfold shuffle_tgt. rewrite lookup_tabulate by done. fold E.
        change (if bool_decide (Z.of_nat i < E * T)
                then (Z.of_nat i mod E) * T + Z.of_nat i / E
                else Z.of_nat i) with (p (Z.of_nat i)).
        pose proof (Hp (Z.of_nat i) ltac:(len_lia)) as Hpi.
        rewrite (lookup_at0 src (Z.to_nat (p (Z.of_nat i)))) by len_lia.
        by rewrite Z2Nat.id by lia.
      * rewrite Hq by len_lia. rewrite Nat2Z.id.
        rewrite !lookup_ge_None_2; [done|lia|].
        unfold shuffle_tgt. rewrite length_tabulate. lia.
Qed.

(** X21. The byte shuffle only reorders: what [shuffleBytes] returns,
    and what [unshuffleBytes] returns, is a permutation of the input, for
    every input and every type size. *)
Theorem byte_shuffle_permutes (src : list Z) (T : Z) (s : list Z) :
  shuffleBytes src T = Some s \/ unshuffleBytes src T = Some s ->
  s ≡ₚ src.
Proof.
  assert (forall x y, shuffleBytes x T = Some y -> y ≡ₚ x) as Hsh.
  { intros x y Hy. destruct (transform_cases x T) as [Hd|[HT Hn]].
    - rewrite shuffleBytes_degenerate in Hy by done. by injection Hy as <-.
    - rewrite shuffleBytes_eq in Hy by done. injection Hy as <-.
      by apply shuffle_tgt_permutes. }
  intros [H|H]; [by apply Hsh|].
  destruct (transforms_invert src T) as (_ & (s' & E1 & E2) & _).
  assert (s' = s) as -> by congruence.
  symmetry. by apply Hsh.
Qed.

Lemma byte_shuffle_permutes_witness :
  [1; 4; 7; 2; 5; 8; 3; 6; 9; 10] ≡ₚ [1; 2; 3; 4; 5; 6; 7; 8; 9; 10].
Proof.
  apply (byte_shuffle_permutes [1; 2; 3; 4; 5; 6; 7; 8; 9; 10] 3).
  left. vm_compute. reflexivity.
Defined.

(** * More of the built-in codecs *)

Lemma lz4hc_decompress_as_lz4 (L : Libraries) (data : list Z) (n : Z) :
  lz4hcCodec_Decompress L data n
  = lz4Codec_Decompress (lz4_UncompressBlock_ L) data n.
Proof. reflexivity. Qed.

(** X22. An LZ4HC frame is an LZ4 frame: with the built-in registry, a
    buffer whose codec byte (byte 1) is LZ4HC decompresses to the same
    outcome when that byte is replaced by LZ4, because the LZ4HC adapter
    decodes with the LZ4 block decoder into a buffer of the same size. *)
Theorem lz4hc_frame_decodes_as_lz4 (W : IntWidth) (L : Libraries)
    (data : list Z) (ts : Z) :
  data !! 1%nat = Some LZ4HC ->
  DecompressWithSize W (default_codecs L) (<[1%nat := LZ4]> data) ts
  = DecompressWithSize W (default_codecs L) data ts.
Proof.
  intros Hb1. set (data' := <[1%nat := LZ4]> data).
  assert (len data' = len data) as Hlen
    by (unfold len, data'; by rewrite length_insert).
  assert (forall i, 0 <= i -> i <> 1 -> at0 data' i = at0 data i) as Hat.
  { intros i Hi Hne. unfold at0, data'.
    rewrite list_lookup_insert_ne; [done|lia]. }
  assert (at0 data 1 = LZ4HC) as Hc.
  { unfold at0. change (Z.to_nat 1) with 1%nat. by rewrite Hb1. }
  assert (at0 data' 1 = LZ4) as Hc'.
  { unfold at0, data'. change (Z.to_nat 1) with 1%nat.
    rewrite list_lookup_insert_eq; [done|].
    by apply lookup_lt_is_Some_1. }
  unfold DecompressWithSize. rewrite Hlen.
  case_bool_decide as Hl; [done|]. unfold decompressBackend.
  rewrite !ParseHeader_explicit by lia. rewrite (Hat 0) by lia.
  case_bool_decide; [done|]. cbn [rbind]. rewrite Hlen.
  unfold header_at. rewrite Hc, Hc'.
  rewrite !(Hat 2), !(Hat 3), !(Hat 4), !(Hat 5), !(Hat 6), !(Hat 7),
    !(Hat 8), !(Hat 9), !(Hat 10), !(Hat 11), !(Hat 12), !(Hat 13),
    !(Hat 14), !(Hat 15) by lia.
  cbn [NBytesComp NBytesOrig].
  set (orig := le32 (at0 data 4) (at0 data 5) (at0 data 6) (at0 data 7)).
  set (comp := le32 (at0 data 12) (at0 data 13) (at0 data 14) (at0 data 15)).
  repeat case_bool_decide; try done.
  assert (slice data' HeaderSize comp = slice data HeaderSize comp) as ->.
  { unfold slice. rewrite Hlen. unfold data', HeaderSize.
    change (Z.to_nat 16) with 16%nat. by rewrite drop_insert_lt by lia. }
  destruct (slice data HeaderSize comp) as [payload|]; [|done].
  cbn [must rbind]. unfold decodePayload, IsMemcpy.
  cbn [Flags VersionLZ NBytesOrig].
  rewrite !default_codecs_lookup.
  rewrite (bool_decide_eq_true_2 (LZ4 = LZ4)) by done.
  rewrite (bool_decide_eq_false_2 (LZ4HC = LZ4)) by done.
  rewrite (bool_decide_eq_true_2 (LZ4HC = LZ4HC)) by done.
  cbn [Codec_Decompress lz4Codec lz4hcCodec].
  rewrite lz4hc_decompress_as_lz4.
  reflexivity.
Qed.

Lemma lz4hc_frame_decodes_as_lz4_witness :
  DecompressWithSize Int32 (default_codecs sample_libraries)
    [2; 1; 0; 1; 3; 0; 0; 0; 3; 0; 0; 0; 19; 0; 0; 0; 7; 8; 9] 0
  = DecompressWithSize Int32 (default_codecs sample_libraries)
      [2; 2; 0; 1; 3; 0; 0; 0; 3; 0; 0; 0; 19; 0; 0; 0; 7; 8; 9] 0.
Proof.
  apply (lz4hc_frame_decodes_as_lz4 Int32 sample_libraries
           [2; 2; 0; 1; 3; 0; 0; 0; 3; 0; 0; 0; 19; 0; 0; 0; 7; 8; 9] 0).
  reflexivity.
Defined.

(** X23. ZLIB through the pipeline.  [CompressWithOptions] hands the
    ZLIB adapter a level between 1 and 9 whatever level was asked for, so
    a library that accepts these levels and then writes and closes
    without error always yields a frame; and an error from creating the
    writer, from the write or from the close makes the call fail with
    [ErrCompressionFailed]. *)
Theorem zlib_compress_outcomes (L : Libraries) (data : list Z) (opts : Options) :
  data <> [] -> opt_Codec opts = ZLIB ->
  ((forall l d, 1 <= l <= 9 ->
      kzlib_NewWriterLevel L l = None /\ kzlib_Write L l d = None /\
      kzlib_Close L l d = None) ->
   exists frame, CompressWithOptions (default_codecs L) data opts = Ok frame) /\
  (forall shuffled level,
     applyShuffle data (validateOptions opts) = Some shuffled ->
     level = Z.max 1 (Z.min 9 (opt_Level opts)) ->
     is_Some (kzlib_NewWriterLevel L level) \/
     is_Some (kzlib_Write L level shuffled) \/
     is_Some (kzlib_Close L level shuffled) ->
     CompressWithOptions (default_codecs L) data opts
     = Err ErrCompressionFailed).
Proof.
  intros Hne Hcodec.
  destruct (validateOptions_fields opts) as (Hc & _ & _ & Hlevel).
  pose proof (compressBackend_outcome (default_codecs L) data
                (validateOptions opts)) as Hout.
  assert (default_codecs L !! ZLIB = Some (zlibCodec L)) as Hz
    by (by rewrite default_codecs_lookup).
  rewrite Hc, Hcodec, Hz in Hout.
  destruct Hout as (shuffled & Hs & Ls & Hout).
  cbn [Codec_Compress zlibCodec] in Hout.
  unfold CompressWithOptions.
  rewrite bool_decide_eq_false_2 by (by apply nonempty_len).
  unfold zlibCodec_Compress in Hout.
  split.
  - intros Hlib.
    destruct (Hlib (opt_Level (validateOptions opts)) shuffled Hlevel)
      as (H1 & H2 & H3).
    rewrite H1, H2, H3 in Hout. destruct Hout as (hb & _ & ->). eauto.
  - intros shuffled' level Hs' -> Herr.
    assert (shuffled' = shuffled) as -> by congruence.
    rewrite validateOptions_eq in Hout |- *. cbn [opt_Level] in Hout.
    destruct (kzlib_NewWriterLevel L _) as [e|]; [done|].
    destruct (kzlib_Write L _ shuffled) as [e|]; [done|].
    destruct (kzlib_Close L _ shuffled) as [e|]; [done|].
    destruct Herr as [[? [=]]|[[? [=]]|[? [=]]]].
Qed.

Lemma zlib_compress_outcomes_witness :
  exists frame,
    CompressWithOptions (default_codecs sample_libraries) [4; 5; 6]
      {| opt_Codec := ZLIB; opt_Level := 100; opt_Shuffle := NoShuffle;
         opt_TypeSize := 1; opt_BlockSize := 0; opt_NumThreads := 0 |}
    = Ok frame.
Proof.
  destruct (zlib_compress_outcomes sample_libraries [4; 5; 6]
              {| opt_Codec := ZLIB; opt_Level := 100; opt_Shuffle := NoShuffle;
                 opt_TypeSize := 1; opt_BlockSize := 0; opt_NumThreads := 0 |})
    as [H _]; [discriminate|reflexivity|].
  apply H. intros l d _. split_and!; reflexivity.
Defined.

(** * Names *)

Lemma string_length_app (s t : string) :
  String.length (s +:+ t) = (String.length s + String.length t)%nat.
Proof. induction s as [|a s IH]; simpl; [done|]. by rewrite IH. Qed.

Lemma string_app_inj_r (s1 s2 t : string) : s1 +:+ t = s2 +:+ t -> s1 = s2.
Proof.
  revert s2. induction s1 as [|a s1 IH]; intros [|b s2] Heq; simpl in Heq.
  - done.
  - apply (f_equal String.length) in Heq.
    rewrite !string_length_app in Heq. simpl in Heq. lia.
  - apply (f_equal String.length) in Heq.
    rewrite !string_length_app in Heq. simpl in Heq. lia.
  - injection Heq as -> Heq. f_equal. by apply IH.
Qed.

Lemma unknown_name_inj (c c' : Z) :
  "unknown(" +:+ pretty c +:+ ")" = "unknown(" +:+ pretty c' +:+ ")" -> c = c'.
Proof.
  intros Heq. simpl in Heq. injection Heq as Heq.
  change (pretty c +:+ ")" = pretty c' +:+ ")") in Heq.
  apply string_app_inj_r in Heq. by apply (inj pretty).
Qed.

(** X24. Names tell values apart: two different codec ids have different
    [String]s, and so have two different shuffle modes; and the mode that
    [ShuffleMode] reads from a header always has one of the three proper
    names. *)
Theorem names_distinct :
  (forall c c', c <> c' -> Codec_String c <> Codec_String c') /\
  (forall s s', s <> s' -> Shuffle_String s <> Shuffle_String s') /\
  (forall h, Shuffle_String (ShuffleMode h)
             ∈ ["noshuffle"; "shuffle"; "bitshuffle"]).
Proof.
  split_and!.
  - intros c c' Hne. unfold Codec_String.
    repeat case_bool_decide; subst; try done;
      try (simpl; discriminate).
    intros Heq. by apply unknown_name_inj in Heq.
  - intros s s' Hne. unfold Shuffle_String.
    repeat case_bool_decide; subst; try done;
      try (simpl; discriminate).
    intros Heq. by apply unknown_name_inj in Heq.
  - intros h. unfold ShuffleMode.
    destruct (HasBitShuffle h), (HasShuffle h); cbn; set_solver.
Qed.

Lemma names_distinct_witness :
  Codec_String LZ4 <> Codec_String 200 /\
  Shuffle_String Shuffle1 <> Shuffle_String BitShuffle.
Proof.
  destruct names_distinct as (H1 & H2 & _).
  split; [apply H1|apply H2]; discriminate.
Defined.
